(** * ELRU buffer replacement policy: a shallow embedding of
      [src/elru/freelist_elru.c] and the properties of its specification.

    The C code keeps its state in shared memory: a control block
    ([StrategyControl]), an array of list nodes ([elruStack]) and the buffer
    descriptors of the buffer manager.  The embedding threads that state
    explicitly through a small state-and-failure monad and runs one call at
    a time: the spinlocks are not modelled.  Pointers into [elruStack] are
    indices ([option nat], [None] being [NULL]); following a [NULL] pointer
    or leaving an array is a [Fault].

    The loops that chase pointers through the list change nothing before
    they exit, so a chase that has visited more nodes than the array holds
    has entered a cycle and never ends in C.  They run on a budget of one
    step per array element plus one, and exhausting it is the outcome
    [Diverge]. *)

From Stdlib Require Import ZArith Lia.
From stdpp Require Import base option list sorting.

Local Open Scope Z_scope.

(** ** Data model *)

(** [#define TIMESTAMP_NIL -1] *)
Definition TIMESTAMP_NIL : Z := -1.

(** [InvalidBuffer (that is, zero)], as the comment on the ring's [buffers]
    array says; a [Buffer] number is a descriptor index plus one
    ([GetBufferDescriptor(bufnum - 1)] in [GetBufferFromRing]). *)
Definition InvalidBuffer : Z := 0.

(** [struct BufferNode].  In this list [prev] is the neighbour closer to the
    top and [next] the neighbour closer to the bottom: the victim walk goes
    from [stackBottom] along [prev]. *)
Record BufferNode : Type := mkBufferNode {
  node_id : Z;
  prev : option nat;
  next : option nat;
  last_accessed : Z;
  second_last_accessed : Z
}.

Definition set_prev (v : option nat) (n : BufferNode) : BufferNode :=
  mkBufferNode (node_id n) v (next n) (last_accessed n) (second_last_accessed n).
Definition set_next (v : option nat) (n : BufferNode) : BufferNode :=
  mkBufferNode (node_id n) (prev n) v (last_accessed n) (second_last_accessed n).
Definition set_last_accessed (v : Z) (n : BufferNode) : BufferNode :=
  mkBufferNode (node_id n) (prev n) (next n) v (second_last_accessed n).
Definition set_second_last_accessed (v : Z) (n : BufferNode) : BufferNode :=
  mkBufferNode (node_id n) (prev n) (next n) (last_accessed n) v.

(** [BufferStrategyControl], without its three spinlocks. *)
Record BufferStrategyControl : Type := mkControl {
  nextVictimBuffer : Z;          (* pg_atomic_uint32 *)
  firstFreeBuffer : Z;
  lastFreeBuffer : Z;
  stackTop : option nat;
  stackBottom : option nat;
  completePasses : Z;            (* uint32 *)
  numBufferAllocs : Z;           (* pg_atomic_uint32 *)
  bgwprocno : Z
}.

Definition set_nextVictimBuffer (v : Z) (c : BufferStrategyControl) :=
  mkControl v (firstFreeBuffer c) (lastFreeBuffer c) (stackTop c) (stackBottom c)
            (completePasses c) (numBufferAllocs c) (bgwprocno c).
Definition set_firstFreeBuffer (v : Z) (c : BufferStrategyControl) :=
  mkControl (nextVictimBuffer c) v (lastFreeBuffer c) (stackTop c) (stackBottom c)
            (completePasses c) (numBufferAllocs c) (bgwprocno c).
Definition set_lastFreeBuffer (v : Z) (c : BufferStrategyControl) :=
  mkControl (nextVictimBuffer c) (firstFreeBuffer c) v (stackTop c) (stackBottom c)
            (completePasses c) (numBufferAllocs c) (bgwprocno c).
Definition set_stackTop (v : option nat) (c : BufferStrategyControl) :=
  mkControl (nextVictimBuffer c) (firstFreeBuffer c) (lastFreeBuffer c) v (stackBottom c)
            (completePasses c) (numBufferAllocs c) (bgwprocno c).
Definition set_stackBottom (v : option nat) (c : BufferStrategyControl) :=
  mkControl (nextVictimBuffer c) (firstFreeBuffer c) (lastFreeBuffer c) (stackTop c) v
            (completePasses c) (numBufferAllocs c) (bgwprocno c).
Definition set_completePasses (v : Z) (c : BufferStrategyControl) :=
  mkControl (nextVictimBuffer c) (firstFreeBuffer c) (lastFreeBuffer c) (stackTop c)
            (stackBottom c) v (numBufferAllocs c) (bgwprocno c).
Definition set_numBufferAllocs (v : Z) (c : BufferStrategyControl) :=
  mkControl (nextVictimBuffer c) (firstFreeBuffer c) (lastFreeBuffer c) (stackTop c)
            (stackBottom c) (completePasses c) v (bgwprocno c).
Definition set_bgwprocno (v : Z) (c : BufferStrategyControl) :=
  mkControl (nextVictimBuffer c) (firstFreeBuffer c) (lastFreeBuffer c) (stackTop c)
            (stackBottom c) (completePasses c) (numBufferAllocs c) v.

(** The part of a buffer descriptor this file reads or writes: its index,
    its free-list link, and the two counters packed in its state word
    ([BUF_STATE_GET_REFCOUNT], [BUF_STATE_GET_USAGECOUNT]). *)
Record BufferDesc : Type := mkBufferDesc {
  buf_id : Z;
  freeNext : Z;
  refcount : Z;
  usage_count : Z
}.

Definition set_freeNext (v : Z) (d : BufferDesc) : BufferDesc :=
  mkBufferDesc (buf_id d) v (refcount d) (usage_count d).

(** The state word [LockBufHdr] returns, as the pair of its two counters.
    The flag bits of the word are not modelled, and so neither is
    [BM_LOCKED], the header spinlock that [LockBufHdr] takes and
    [UnlockBufHdr] releases: [GetBufferFromRing] and [StrategyGetBuffer]
    return a buffer with that lock held, and a descriptor of the model does
    not show it. *)
Definition buf_state_of (d : BufferDesc) : Z * Z := (refcount d, usage_count d).

(** Everything the functions of the file can reach: the control block, the
    node array, the descriptor array and the latches set so far
    ([SetLatch(&ProcGlobal->allProcs[bgwprocno].procLatch)], most recent
    first). *)
Record State : Type := mkState {
  StrategyControl : BufferStrategyControl;
  elruStack : list BufferNode;
  BufferDescriptors : list BufferDesc;
  latches_set : list Z
}.

Definition with_control (f : BufferStrategyControl -> BufferStrategyControl) (s : State) : State :=
  mkState (f (StrategyControl s)) (elruStack s) (BufferDescriptors s) (latches_set s).
Definition with_elruStack (f : list BufferNode -> list BufferNode) (s : State) : State :=
  mkState (StrategyControl s) (f (elruStack s)) (BufferDescriptors s) (latches_set s).
Definition with_descriptors (f : list BufferDesc -> list BufferDesc) (s : State) : State :=
  mkState (StrategyControl s) (elruStack s) (f (BufferDescriptors s)) (latches_set s).
Definition with_latch (p : Z) (s : State) : State :=
  mkState (StrategyControl s) (elruStack s) (BufferDescriptors s) (p :: latches_set s).

(** ** The monad of the embedding *)

(** The three [elog(ERROR, ...)] of the file. *)
Inductive error : Type :=
| InvalidBufferIndex        (* "Invalid buffer index" *)
| NoUnpinnedBuffer          (* "No unpinned buffer" *)
| UnrecognizedStrategy.     (* "unrecognized buffer access strategy" *)

(** How a call ends: it returns, it leaves through [elog(ERROR)] (the state
    written so far stays), it follows a [NULL] or out-of-array pointer, or it
    loops for ever. *)
Inductive result (A : Type) : Type :=
| Ret (a : A) (s : State)
| Elog (e : error) (s : State)
| Fault
| Diverge.
Arguments Ret {A} a s.
Arguments Elog {A} e s.
Arguments Fault {A}.
Arguments Diverge {A}.

Definition M (A : Type) : Type := State -> result A.

Definition ret {A} (a : A) : M A := fun s => Ret a s.
Definition bind {A B} (m : M A) (k : A -> M B) : M B :=
  fun s => match m s with
           | Ret a s' => k a s'
           | Elog e s' => Elog e s'
           | Fault => Fault
           | Diverge => Diverge
           end.
Definition elog {A} (e : error) : M A := fun s => Elog e s.
Definition fault {A} : M A := fun _ => Fault.
Definition diverge {A} : M A := fun _ => Diverge.
Definition gets {A} (f : State -> A) : M A := fun s => Ret (f s) s.
Definition modify (f : State -> State) : M unit := fun s => Ret tt (f s).

Declare Scope elru_scope.
Delimit Scope elru_scope with elru.
Notation "x <- c1 ;; c2" := (bind c1 (fun x => c2))
  (at level 100, c1 at next level, right associativity) : elru_scope.
Notation "c1 ;; c2" := (bind c1 (fun _ => c2))
  (at level 100, right associativity) : elru_scope.
Local Open Scope elru_scope.

(** [p->field] for a node pointer [p]. *)
Definition rd {A} (p : option nat) (field : BufferNode -> A) : M A :=
  fun s => match p with
           | None => Fault
           | Some i => match elruStack s !! i with
                       | Some n => Ret (field n) s
                       | None => Fault
                       end
           end.

(** [p->field = v] for a node pointer [p], [upd] being the field's setter. *)
Definition wr (p : option nat) (upd : BufferNode -> BufferNode) : M unit :=
  fun s => match p with
           | None => Fault
           | Some i => match elruStack s !! i with
                       | Some n => Ret tt (with_elruStack (fun l => <[i:=upd n]> l) s)
                       | None => Fault
                       end
           end.

Definition ctl {A} (field : BufferStrategyControl -> A) : M A :=
  gets (fun s => field (StrategyControl s)).
Definition set_ctl (upd : BufferStrategyControl -> BufferStrategyControl) : M unit :=
  modify (with_control upd).

(** [GetBufferDescriptor(id)]: a pointer into the descriptor array. *)
Definition desc_index (id : Z) : option nat :=
  if id <? 0 then None else Some (Z.to_nat id).

Definition rd_desc {A} (id : Z) (field : BufferDesc -> A) : M A :=
  fun s => match desc_index id with
           | None => Fault
           | Some i => match BufferDescriptors s !! i with
                       | Some d => Ret (field d) s
                       | None => Fault
                       end
           end.

Definition wr_desc (id : Z) (upd : BufferDesc -> BufferDesc) : M unit :=
  fun s => match desc_index id with
           | None => Fault
           | Some i => match BufferDescriptors s !! i with
                       | Some d => Ret tt (with_descriptors (fun l => <[i:=upd d]> l) s)
                       | None => Fault
                       end
           end.

(** Conversion of a [long long] to [int], which keeps the low 32 bits
    (what gcc and clang do for a value out of range), and arithmetic on
    [uint32]. *)
Definition to_int (z : Z) : Z := (z + 2^31) mod 2^32 - 2^31.
Definition to_uint32 (z : Z) : Z := z mod 2^32.

(** ** The ELRU comparator *)

Definition isRemovedNode (n : BufferNode) : bool :=
  (last_accessed n =? TIMESTAMP_NIL) && (second_last_accessed n =? TIMESTAMP_NIL).

(** [compareELRU] returns [int]; the two differences are computed in
    [long long] and converted to [int] by the [return].  Timestamps are at
    least [-1], so the subtraction itself does not overflow; in any case
    the low 32 bits of the exact difference and of the wrapped one agree. *)
Definition compareELRU (a b : BufferNode) : Z :=
  if isRemovedNode a then 1
  else if isRemovedNode b then -1
  else if (second_last_accessed a =? TIMESTAMP_NIL) && (second_last_accessed b =? TIMESTAMP_NIL)
  then to_int (last_accessed a - last_accessed b)
  else if second_last_accessed a =? TIMESTAMP_NIL then -1
  else if second_last_accessed b =? TIMESTAMP_NIL then 1
  else to_int (second_last_accessed a - second_last_accessed b).

(** [compareELRU(a, b)] on two node pointers. *)
Definition compare_at (a b : option nat) : M Z :=
  na <- rd a (fun n => n) ;;
  nb <- rd b (fun n => n) ;;
  ret (compareELRU na nb).

(** ** Insertion into the list: [processStackBottomToTop] *)

(** The four statements that put [node] between [current] and the node
    below it ([current->next], not [NULL]). *)
Definition link_below (node current : option nat) : M unit :=
  cn <- rd current next ;;
  wr cn (set_prev node) ;;
  cn <- rd current next ;;
  wr node (set_next cn) ;;
  wr current (set_next node) ;;
  wr node (set_prev current).

(** The [while (current != NULL)] loop. *)
Fixpoint processStack_loop (fuel : nat) (node current : option nat) : M unit :=
  match fuel with
  | O => diverge
  | S fuel' =>
    match current with
    | None => ret tt
    | Some _ =>
      cur_id <- rd current node_id ;;
      top <- ctl stackTop ;;
      top_id <- rd top node_id ;;
      if cur_id =? top_id then
        c <- compare_at node current ;;
        if c >? 0 then
          wr current (set_prev node) ;;
          wr node (set_next current) ;;
          wr node (set_prev None) ;;
          set_ctl (set_stackTop node)
        else
          cn <- rd current next ;;
          match cn with
          | None =>
            wr node (set_prev current) ;;
            wr current (set_next node) ;;
            set_ctl (set_stackBottom node)
          | Some _ => link_below node current
          end
      else
        c <- compare_at node current ;;
        if c <=? 0 then
          cn <- rd current next ;;
          match cn with
          | None =>
            set_ctl (set_stackBottom node) ;;
            wr node (set_prev current) ;;
            wr node (set_next None) ;;
            wr current (set_next node)
          | Some _ => link_below node current
          end
        else
          cp <- rd current prev ;;
          processStack_loop fuel' node cp
    end
  end.

Definition processStackBottomToTop (node : option nat) : M unit :=
  current <- ctl stackBottom ;;
  match current with
  | None =>
    set_ctl (set_stackBottom node) ;;
    set_ctl (set_stackTop node) ;;
    wr node (set_next None) ;;
    wr node (set_prev None)
  | Some _ =>
    n <- gets (fun s => length (elruStack s)) ;;
    processStack_loop (S n) node current
  end.

(** ** Recording an access: [StrategyAccessBuffer] *)

(** [stackTop == NULL || stackTop->node_id != buf_id] *)
Definition top_is_not (buf_id : Z) : M bool :=
  top <- ctl stackTop ;;
  match top with
  | None => ret true
  | Some _ => tid <- rd top node_id ;; ret (negb (tid =? buf_id))
  end.

(** The body of [if (false) { ... }], "case 4: remove buffer (returned to
    freelist) from stack". *)
Definition StrategyAccessBuffer_case4 (buf_id : Z) (curr : option nat) : M unit :=
  let clear :=
    wr curr (set_prev None) ;;
    wr curr (set_next None) ;;
    wr curr (set_last_accessed TIMESTAMP_NIL) ;;
    wr curr (set_second_last_accessed TIMESTAMP_NIL) in
  cp <- rd curr prev ;;
  cn <- rd curr next ;;
  match cp, cn with
  | None, None =>
    absent <- top_is_not buf_id ;;
    if absent then ret tt
    else
      top <- ctl stackTop ;;
      tid <- rd top node_id ;;
      bid <- (if tid =? buf_id
              then bot <- ctl stackBottom ;; rd bot node_id
              else ret buf_id) ;;
      (if (tid =? buf_id) && (bid =? buf_id)
       then set_ctl (set_stackTop None) ;; set_ctl (set_stackBottom None)
       else ret tt) ;;
      clear
  | _, _ =>
    top <- ctl stackTop ;;
    tid <- rd top node_id ;;
    (if tid =? buf_id then
       cn <- rd curr next ;;
       set_ctl (set_stackTop cn) ;;
       cn <- rd curr next ;;
       wr cn (set_prev None)
     else
       bot <- ctl stackBottom ;;
       bid <- rd bot node_id ;;
       if bid =? buf_id then
         cp <- rd curr prev ;;
         set_ctl (set_stackBottom cp) ;;
         cp <- rd curr prev ;;
         wr cp (set_next None)
       else
         cn <- rd curr next ;;
         cp <- rd curr prev ;;
         wr cn (set_prev cp) ;;
         cp <- rd curr prev ;;
         cn <- rd curr next ;;
         wr cp (set_next cn)) ;;
    clear
  end.

(** [while (temp != NULL) temp = temp->prev;] *)
Fixpoint walk_to_top (fuel : nat) (temp : option nat) : M unit :=
  match fuel with
  | O => diverge
  | S fuel' =>
    match temp with
    | None => ret tt
    | Some _ => t <- rd temp prev ;; walk_to_top fuel' t
    end
  end.

(** The [else] branch of the residency test: take the node out of its place. *)
Definition unlink_resident (buf_id : Z) (curr : option nat) : M unit :=
  bot <- ctl stackBottom ;;
  bid <- rd bot node_id ;;
  if bid =? buf_id then
    cp <- rd curr prev ;;
    set_ctl (set_stackBottom cp) ;;
    cp <- rd curr prev ;;
    wr cp (set_next None)
  else
    top <- ctl stackTop ;;
    tid <- rd top node_id ;;
    if tid =? buf_id then
      cn <- rd curr next ;;
      set_ctl (set_stackTop cn) ;;
      top <- ctl stackTop ;;
      wr top (set_prev None)
    else
      n <- gets (fun s => length (elruStack s)) ;;
      walk_to_top (S n) curr ;;
      cn <- rd curr next ;;
      match cn with
      | Some _ => cp <- rd curr prev ;; wr cn (set_prev cp)
      | None => ret tt
      end ;;
      cp <- rd curr prev ;;
      match cp with
      | Some _ => cn <- rd curr next ;; wr cp (set_next cn)
      | None => ret tt
      end.

Section Strategy.

(** Constants of the buffer manager that the file uses and does not define. *)
Variable NBuffers : Z.
Variable BLCKSZ : Z.
Variable FREENEXT_NOT_IN_LIST : Z.

(** [now] is the value [getCurrentTimeNanoseconds()] returns in this call.
    The [delete] argument is never read: the branch that would use it is
    under [if (false)]. *)
Definition StrategyAccessBuffer (buf_id : Z) (delete : bool) (now : Z) : M unit :=
  if (buf_id <? 0) || (buf_id >=? NBuffers) then elog InvalidBufferIndex
  else
    let curr := Some (Z.to_nat buf_id) in
    if false then StrategyAccessBuffer_case4 buf_id curr
    else
      prev_last_accessed <- rd curr last_accessed ;;
      wr curr (set_last_accessed now) ;;
      wr curr (set_second_last_accessed prev_last_accessed) ;;
      cp <- rd curr prev ;;
      cn <- rd curr next ;;
      absent <- match cp, cn with
                | None, None => top_is_not buf_id
                | _, _ => ret false
                end ;;
      if absent then processStackBottomToTop curr
      else
        unlink_resident buf_id curr ;;
        processStackBottomToTop curr.

(** ** Ring strategies *)

Inductive BufferAccessStrategyType : Type :=
| BAS_NORMAL | BAS_BULKREAD | BAS_BULKWRITE | BAS_VACUUM.

(** [BufferAccessStrategyData]: private to one backend, so not part of
    [State]; the functions that write to it return the new value. *)
Record BufferAccessStrategyData : Type := mkStrategy {
  btype : BufferAccessStrategyType;
  nbuffers : Z;
  current : Z;
  buffers : list Z
}.

Definition set_current (v : Z) (st : BufferAccessStrategyData) : BufferAccessStrategyData :=
  mkStrategy (btype st) (nbuffers st) v (buffers st).

(** [palloc0] zeroes the whole object, the slots and [current] included;
    only [btype] and [nbuffers] are assigned afterwards.  The two [Assert]s
    are debugging aids and compile to nothing in a production build. *)
Definition GetAccessStrategyWithSize (btype : BufferAccessStrategyType) (ring_size_kb : Z)
  : option BufferAccessStrategyData :=
  let ring_buffers := ring_size_kb ÷ (BLCKSZ ÷ 1024) in
  if ring_buffers =? 0 then None
  else
    let ring_buffers := Z.min (NBuffers ÷ 8) ring_buffers in
    Some (mkStrategy btype ring_buffers 0 (replicate (Z.to_nat ring_buffers) 0)).

(** The [default:] case of the [switch] cannot be reached from a value of
    the enumeration. *)
Definition GetAccessStrategy (btype : BufferAccessStrategyType)
  : option BufferAccessStrategyData :=
  match btype with
  | BAS_NORMAL => None
  | BAS_BULKREAD => GetAccessStrategyWithSize btype 256
  | BAS_BULKWRITE => GetAccessStrategyWithSize btype (16 * 1024)
  | BAS_VACUUM => GetAccessStrategyWithSize btype 256
  end.

(** [strategy->buffers[i]] *)
Definition ring_slot (st : BufferAccessStrategyData) (i : Z) : option Z :=
  if i <? 0 then None else buffers st !! Z.to_nat i.

(** The slot [++strategy->current] lands on. *)
Definition ring_advance (st : BufferAccessStrategyData) : Z :=
  if current st + 1 >=? nbuffers st then 0 else current st + 1.

(** A returned [BufferDesc *] is the index of the descriptor; the second
    component is the two counters of the word that the function stores in
    [*buf_state]. *)
Definition GetBufferFromRing (strategy : BufferAccessStrategyData)
  : M (option (Z * (Z * Z)) * BufferAccessStrategyData) :=
  let strategy := set_current (ring_advance strategy) strategy in
  match ring_slot strategy (current strategy) with
  | None => fault
  | Some bufnum =>
    if bufnum =? InvalidBuffer then ret (None, strategy)
    else
      let buf := bufnum - 1 in
      d <- rd_desc buf (fun d => d) ;;
      if (refcount d =? 0) && (usage_count d <=? 1)
      then ret (Some (buf, buf_state_of d), strategy)
      else ret (None, strategy)
  end.

(** ** Acquisition: [StrategyGetBuffer] *)

(** What the caller of [StrategyGetBuffer] gets: a descriptor with the two
    counters of the word stored in [*buf_state] and the value stored in
    [*from_ring], or nothing at all when control reaches the closing brace
    of the function. *)
Inductive get_buffer_result : Type :=
| Returned (buf : Z) (buf_state : Z * Z) (from_ring : bool)
| FellOffEnd.

(** The [while (true)] loop over the free list.  [Assert] compiles to
    nothing in a production build.  Every round marks one more descriptor
    [FREENEXT_NOT_IN_LIST], a negative number; a round that takes a marked
    descriptor is followed by the round that leaves the loop.  The loop
    therefore ends within two rounds more than there are descriptors, which
    is the budget [StrategyGetBuffer] gives it. *)
Fixpoint freelist_loop (fuel : nat) (now : Z) : M (option (Z * (Z * Z))) :=
  match fuel with
  | O => diverge
  | S fuel' =>
    first <- ctl firstFreeBuffer ;;
    if first <? 0 then ret None
    else
      let buf := first in
      fnext <- rd_desc buf freeNext ;;
      set_ctl (set_firstFreeBuffer fnext) ;;
      wr_desc buf (set_freeNext FREENEXT_NOT_IN_LIST) ;;
      d <- rd_desc buf (fun d => d) ;;
      if (refcount d =? 0) && (usage_count d =? 0) then
        StrategyAccessBuffer (buf_id d) false now ;;
        ret (Some (buf, buf_state_of d))
      else freelist_loop fuel' now
  end.

(** The [while (victim != NULL)] loop from the bottom of the list. *)
Fixpoint victim_loop (fuel : nat) (now : Z) (victim : option nat) : M get_buffer_result :=
  match fuel with
  | O => diverge
  | S fuel' =>
    match victim with
    | None => ret FellOffEnd
    | Some _ =>
      buf <- rd victim node_id ;;
      d <- rd_desc buf (fun d => d) ;;
      if refcount d =? 0 then
        wr victim (set_last_accessed TIMESTAMP_NIL) ;;
        wr victim (set_second_last_accessed TIMESTAMP_NIL) ;;
        StrategyAccessBuffer (buf_id d) false now ;;
        ret (Returned buf (buf_state_of d) false)
      else
        top <- ctl stackTop ;;
        top_id <- rd top node_id ;;
        if top_id =? buf_id d then elog NoUnpinnedBuffer
        else
          vp <- rd victim prev ;;
          victim_loop fuel' now vp
    end
  end.

Definition StrategyGetBuffer (strategy : option BufferAccessStrategyData) (now : Z)
  : M (get_buffer_result * option BufferAccessStrategyData) :=
  ring <- match strategy with
          | Some st => r <- GetBufferFromRing st ;; ret (fst r, Some (snd r))
          | None => ret (None, None)
          end ;;
  match fst ring with
  | Some (buf, buf_state) =>
    id <- rd_desc buf buf_id ;;
    StrategyAccessBuffer id false now ;;
    ret (Returned buf buf_state true, snd ring)
  | None =>
    bgw <- ctl bgwprocno ;;
    (if negb (bgw =? -1)
     then set_ctl (set_bgwprocno (-1)) ;; modify (with_latch bgw)
     else ret tt) ;;
    allocs <- ctl numBufferAllocs ;;
    set_ctl (set_numBufferAllocs (to_uint32 (allocs + 1))) ;;
    first <- ctl firstFreeBuffer ;;
    free <- (if first >=? 0
             then n <- gets (fun s => length (BufferDescriptors s)) ;;
                  freelist_loop (S (S n)) now
             else ret None) ;;
    match free with
    | Some (buf, buf_state) => ret (Returned buf buf_state false, snd ring)
    | None =>
      victim <- ctl stackBottom ;;
      n <- gets (fun s => length (elruStack s)) ;;
      r <- victim_loop (S n) now victim ;;
      ret (r, snd ring)
    end
  end.

(** ** Release: [StrategyFreeBuffer] *)

Definition StrategyFreeBuffer (buf : Z) (now : Z) : M unit :=
  fnext <- rd_desc buf freeNext ;;
  if fnext =? FREENEXT_NOT_IN_LIST then
    first <- ctl firstFreeBuffer ;;
    wr_desc buf (set_freeNext first) ;;
    d <- rd_desc buf (fun d => d) ;;
    (if freeNext d <? 0 then set_ctl (set_lastFreeBuffer (buf_id d)) else ret tt) ;;
    set_ctl (set_firstFreeBuffer (buf_id d)) ;;
    StrategyAccessBuffer (buf_id d) true now
  else ret tt.

(** ** Statistics *)

(** The compare-and-exchange loop of [ClockSweepTick]: with one thread the
    first exchange already succeeds. *)
Fixpoint ClockSweepTick_wrap (fuel : nat) (expected : Z) : M unit :=
  match fuel with
  | O => diverge
  | S fuel' =>
    let wrapped := expected mod NBuffers in
    seen <- ctl nextVictimBuffer ;;
    if seen =? expected then
      set_ctl (set_nextVictimBuffer wrapped) ;;
      passes <- ctl completePasses ;;
      set_ctl (set_completePasses (to_uint32 (passes + 1)))
    else ClockSweepTick_wrap fuel' seen
  end.

Definition ClockSweepTick : M Z :=
  victim <- ctl nextVictimBuffer ;;
  set_ctl (set_nextVictimBuffer (to_uint32 (victim + 1))) ;;
  if victim >=? NBuffers then
    let originalVictim := victim in
    let victim := victim mod NBuffers in
    (if victim =? 0
     then ClockSweepTick_wrap 2 (to_uint32 (originalVictim + 1))
     else ret tt) ;;
    ret victim
  else ret victim.

(** The two out-parameters may be [NULL]; [complete_passes] and
    [num_buf_alloc] say whether they are not. *)
Definition StrategySyncStart (complete_passes num_buf_alloc : bool)
  : M (Z * option Z * option Z) :=
  nextVictim <- ctl nextVictimBuffer ;;
  let result := nextVictim mod NBuffers in
  passes <- (if complete_passes
             then cp <- ctl completePasses ;;
                  ret (Some (to_uint32 (cp + nextVictim / NBuffers)))
             else ret None) ;;
  allocs <- (if num_buf_alloc
             then a <- ctl numBufferAllocs ;;
                  set_ctl (set_numBufferAllocs 0) ;;
                  ret (Some a)
             else ret None) ;;
  ret (result, passes, allocs).

Definition StrategyNotifyBgWriter (bgwprocno : Z) : M unit :=
  set_ctl (set_bgwprocno bgwprocno).

(** ** Initialisation *)

(** [StrategyInitialize(true)] in the postmaster, on the descriptor array
    that [InitBufferPool] has set up before. *)
Definition StrategyInitialize (descriptors : list BufferDesc) : State :=
  mkState
    (mkControl 0 0 (NBuffers - 1) None None 0 0 (-1))
    (map (fun i => mkBufferNode (Z.of_nat i) None None TIMESTAMP_NIL TIMESTAMP_NIL)
         (seq 0 (Z.to_nat NBuffers)))
    descriptors
    [].

End Strategy.

(** ** The ELRU key and the list as the victim walk sees it *)

Definition tier (n : BufferNode) : Z :=
  if second_last_accessed n =? TIMESTAMP_NIL then 0 else 1.

Definition rank (n : BufferNode) : Z :=
  if second_last_accessed n =? TIMESTAMP_NIL then last_accessed n
  else second_last_accessed n.

Definition elru_key (n : BufferNode) : Z * Z := (tier n, rank n).

(** The order on keys: by tier, then by rank. *)
Definition key_leb (k1 k2 : Z * Z) : bool :=
  (fst k1 <? fst k2) || ((fst k1 =? fst k2) && (snd k1 <=? snd k2)).

Definition key_le (k1 k2 : Z * Z) : Prop := key_leb k1 k2 = true.

(** All the timestamps of a node lie in the window of 2^31 nanoseconds that
    starts at [T]. *)
Definition in_window (T : Z) (n : BufferNode) : Prop :=
  T ≤ last_accessed n < T + 2^31 ∧
  (second_last_accessed n = TIMESTAMP_NIL ∨ T ≤ second_last_accessed n < T + 2^31).

(** The nodes from [cur] upwards along [prev], as [StrategyGetBuffer]
    visits them. *)
Fixpoint walk_up (fuel : nat) (ns : list BufferNode) (cur : option nat) : list nat :=
  match fuel, cur with
  | S fuel', Some i =>
    i :: walk_up fuel' ns (match ns !! i with Some n => prev n | None => None end)
  | _, _ => []
  end.

Definition elru_list (s : State) : list nat :=
  walk_up (length (elruStack s)) (elruStack s) (stackBottom (StrategyControl s)).

Definition keys_of (ns : list BufferNode) (l : list nat) : list (Z * Z) :=
  omap (fun i => elru_key <$> ns !! i) l.

Fixpoint sorted_keys (ks : list (Z * Z)) : bool :=
  match ks with
  | k1 :: (k2 :: _) as rest => key_leb k1 k2 && sorted_keys rest
  | _ => true
  end.

(** Every adjacent pair of the list, bottom first, is in key order. *)
Definition elru_sorted (s : State) : bool :=
  sorted_keys (keys_of (elruStack s) (elru_list s)).

(** ** Well-formed lists *)

(** Node [a] sits in the array under its own index, with [lo] below it and
    [hi] above it. *)
Definition links (ns : list BufferNode) (a : nat) (lo hi : option nat) : Prop :=
  ∃ n, ns !! a = Some n ∧ node_id n = Z.of_nat a ∧ next n = lo ∧ prev n = hi.

Definition head_or {A} (l : list A) (d : option A) : option A :=
  match l with [] => d | a :: _ => Some a end.

Definition last_or {A} (l : list A) (d : option A) : option A :=
  match last l with Some a => Some a | None => d end.

(** The nodes of [l], bottom first, are linked to one another, the lowest
    one to [lo] and the highest one to [hi]. *)
Fixpoint seg (ns : list BufferNode) (lo : option nat) (l : list nat) (hi : option nat) : Prop :=
  match l with
  | [] => True
  | a :: r => links ns a lo (head_or r hi) ∧ seg ns (Some a) r hi
  end.

(** [l] is the list of the state as the walk from the bottom sees it: the
    two ends are what the control block says, the links of both directions
    agree with [l], no node occurs twice; [lo] is the link of the bottom
    node towards the bottom. *)
Definition stack_from (s : State) (lo : option nat) (l : list nat) : Prop :=
  seg (elruStack s) lo l None ∧ NoDup l ∧
  stackBottom (StrategyControl s) = head l ∧
  stackTop (StrategyControl s) = last l.

(** A well-formed list: the bottom node has nothing below it. *)
Definition stack_wf (s : State) (l : list nat) : Prop := stack_from s None l.

(** Where node [x] stands before an access, [rest] being the list without
    [x]: either [x] is not in the list [l] and both its links are [NULL],
    or it is in [l] together with at least one other node. *)
Definition access_case (s : State) (x : nat) (l rest : list nat) : Prop :=
((x ∉ l) ∧ rest = l ∧
   ∃ nx, elruStack s !! x = Some nx ∧ node_id nx = Z.of_nat x ∧
         prev nx = None ∧ next nx = None) ∨
  (∃ la lc, l = la ++ x :: lc ∧ rest = la ++ lc ∧ rest ≠ []).

(** Every node of [l] compares below the node [x]. *)
Definition placed_above (ns : list BufferNode) (x : nat) (l : list nat) : Prop :=
  ∀ a na nx, a ∈ l → ns !! a = Some na → ns !! x = Some nx → compareELRU nx na > 0.

(** The first node of [l], if any, does not compare below [x]. *)
Definition stops_below (ns : list BufferNode) (x : nat) (l : list nat) : Prop :=
  ∀ d nd nx, head l = Some d → ns !! d = Some nd → ns !! x = Some nx →
             compareELRU nx nd <= 0.

(** ** Sequences of calls *)

(** The calls a backend or the buffer manager makes between two
    [StrategySyncStart], with the clock value each one reads.  [OpPin]
    stands for the buffer manager changing the counters of a descriptor. *)
Inductive op : Type :=
| OpTouch (buf_id : Z) (now : Z)
| OpAcquire (strategy : option BufferAccessStrategyData) (now : Z)
| OpRelease (buf : Z) (now : Z)
| OpNotify (bgwprocno : Z)
| OpPin (buf : Z) (refcount usage_count : Z).

Section Runs.

Variable NBuffers : Z.
Variable FREENEXT_NOT_IN_LIST : Z.

(** The state a call leaves behind, when it leaves one: a call that ends in
    [elog(ERROR)] has still written what it wrote. *)
Definition state_after {A} (r : result A) : option State :=
  match r with
  | Ret _ s => Some s
  | Elog _ s => Some s
  | Fault => None
  | Diverge => None
  end.

(** Whether the ring gives [StrategyGetBuffer] a buffer in state [s], so
    that the call returns it and goes no further. *)
Definition ring_offers (strategy : option BufferAccessStrategyData) (s : State) : bool :=
  match strategy with
  | Some st =>
    match GetBufferFromRing st s with
    | Ret (Some _, _) _ => true
    | _ => false
    end
  | None => false
  end.

(** Runs the calls in order; gives the final state with the number of
    [StrategyGetBuffer] calls and the number of those to which the ring
    gave nothing. *)
Fixpoint run (ops : list op) (s : State) : option (State * nat * nat) :=
  match ops with
  | [] => Some (s, O, O)
  | o :: rest =>
    match o with
    | OpTouch id now =>
      s' ← state_after (StrategyAccessBuffer NBuffers id false now s);
      run rest s'
    | OpAcquire strategy now =>
      s' ← state_after (StrategyGetBuffer NBuffers FREENEXT_NOT_IN_LIST strategy now s);
      '(s'', calls, counted) ← run rest s';
      Some (s'', S calls, if ring_offers strategy s then counted else S counted)
    | OpRelease buf now =>
      s' ← state_after (StrategyFreeBuffer NBuffers FREENEXT_NOT_IN_LIST buf now s);
      run rest s'
    | OpNotify p =>
      s' ← state_after (StrategyNotifyBgWriter p s);
      run rest s'
    | OpPin buf rc uc =>
      s' ← state_after (wr_desc buf (fun d => mkBufferDesc (buf_id d) (freeNext d) rc uc) s);
      run rest s'
    end
  end.

(** [release_frame(id); acquire_frame(); touch(id)], giving what the
    acquisition returned. *)
Definition round_trip (id : Z) (t1 t2 t3 : Z) : M get_buffer_result :=
  StrategyFreeBuffer NBuffers FREENEXT_NOT_IN_LIST id t1 ;;
  r <- StrategyGetBuffer NBuffers FREENEXT_NOT_IN_LIST None t2 ;;
  StrategyAccessBuffer NBuffers id false t3 ;;
  ret (fst r).

(** What [StrategySyncStart] reports of the clock hand: the index to start
    from and the number of passes. *)
Definition sync_position (s : State) : option (Z * option Z) :=
  match StrategySyncStart NBuffers true false s with
  | Ret (start, passes, _) _ => Some (start, passes)
  | _ => None
  end.

End Runs.

(** The descriptor array as [StrategyInitialize] expects to find it: every
    buffer unpinned and linked to the next one, the last one ending the
    chain with [-1]. *)
Definition linked_descriptors (n : nat) : list BufferDesc :=
  map (fun i => mkBufferDesc (Z.of_nat i)
                             (if (S i =? n)%nat then -1 else Z.of_nat (S i)) 0 0)
      (seq 0 n).

(** ** Weakest preconditions *)

(** [wp m Q E s]: if [m] run from [s] returns, [Q] holds of the value and
    the state, and if it leaves through [elog], [E] holds. *)
Definition wp {A} (m : M A) (Q : A -> State -> Prop) (E : error -> State -> Prop)
  (s : State) : Prop :=
  match m s with
  | Ret a s' => Q a s'
  | Elog e s' => E e s'
  | Fault => True
  | Diverge => True
  end.

(** [twp m Q s]: [m] run from [s] returns, and [Q] holds of the value and
    the state. *)
Definition twp {A} (m : M A) (Q : A -> State -> Prop) (s : State) : Prop :=
  match m s with
  | Ret a s' => Q a s'
  | _ => False
  end.

(** [m] keeps the invariant [I], also when it ends in [elog]. *)
Definition preserves {A} (I : State -> Prop) (m : M A) : Prop :=
  ∀ s, I s → wp m (fun _ s' => I s') (fun _ s' => I s') s.

(** ** Invariants *)

(** What of a node the list operations never change once an access has
    been recorded. *)
Definition stamps (n : BufferNode) : Z * Z * Z :=
  (node_id n, last_accessed n, second_last_accessed n).

Definition same_stamps (L : list (Z * Z * Z)) (s : State) : Prop :=
  stamps <$> elruStack s = L.

Definition same_clock (hand passes : Z) (s : State) : Prop :=
  nextVictimBuffer (StrategyControl s) = hand ∧
  completePasses (StrategyControl s) = passes.


(** Every descriptor carries its own index, as the buffer manager sets
    them up. *)
Definition descriptors_indexed (s : State) : Prop :=
  ∀ i d, BufferDescriptors s !! i = Some d → buf_id d = Z.of_nat i.

(** The node of buffer [buf] carries an access at time [now]. *)
Definition recorded (now buf : Z) (s : State) : Prop :=
  0 ≤ buf ∧ ∃ n, elruStack s !! Z.to_nat buf = Some n ∧ last_accessed n = now.

(** A check of [descriptors_indexed] that computes. *)
Fixpoint indexed_from (k : nat) (l : list BufferDesc) : bool :=
  match l with
  | [] => true
  | d :: r => (buf_id d =? Z.of_nat k) && indexed_from (S k) r
  end.

(** ** Two small pools *)

Module Pool4.

(** Four buffers, [FREENEXT_NOT_IN_LIST] being [-2]; the pool right after
    [StrategyInitialize], and after the first calls. *)
Definition N : Z := 4.
Definition NOT_IN_LIST : Z := -2.

Definition after (ops : list op) (s : State) : State :=
  match run N NOT_IN_LIST ops s with
  | Some (s', _, _) => s'
  | None => s
  end.

(** The state a call ends in, [s] if it ends in none. *)
Definition state_of {A} (r : result A) (s : State) : State :=
  match state_after r with
  | Some s' => s'
  | None => s
  end.

Definition fresh : State := StrategyInitialize N (linked_descriptors 4).

(** One buffer allocated, at time 10. *)
Definition one : State := after [OpAcquire None 10] fresh.

(** Two buffers allocated, at times 10 and 20. *)
Definition two : State := after [OpAcquire None 20] one.

(** A ring of two slots whose slot 1 holds buffer 0. *)
Definition ring : BufferAccessStrategyData := mkStrategy BAS_BULKREAD 2 0 [0; 1].

End Pool4.

Module Pool3.

(** Three buffers, [FREENEXT_NOT_IN_LIST] being [-2]. *)
Definition N : Z := 3.
Definition NOT_IN_LIST : Z := -2.

Definition fresh : State := StrategyInitialize N (linked_descriptors 3).

(** Buffers 0 and 1 are handed out, 10 and 20 ns after the origin of the
    clock, and pinned by their callers; buffer 0 is accessed at 30 ns,
    buffer 1 at 3 s and again one nanosecond later. *)
Definition first_calls : list op :=
  [OpAcquire None 10; OpPin 0 1 1; OpAcquire None 20; OpPin 1 1 1;
   OpTouch 0 30; OpTouch 1 3000000000; OpTouch 1 3000000001].

(** The caller of the third acquisition pins the buffer it was given,
    buffer 2, and unpins it. *)
Definition pin_and_unpin : list op := [OpPin 2 1 1; OpPin 2 0 1].

End Pool3.

(** ** The remaining functions of the file *)

(** [have_free_buffer]: the lockless look at the head of the free list. *)
Definition have_free_buffer : M bool :=
  first <- ctl firstFreeBuffer ;;
  if first >=? 0 then ret true else ret false.

(** [struct timespec], as [clock_gettime(CLOCK_MONOTONIC, &ts)] fills it. *)
Record timespec : Type := mkTimespec {
  tv_sec : Z;
  tv_nsec : Z
}.

(** Arithmetic on [long long], with its wrap-around. *)
Definition to_int64 (z : Z) : Z := (z + 2^63) mod 2^64 - 2^63.

(** [getCurrentTimeNanoseconds], [ts] being what the clock has stored:
    [(long long)ts.tv_sec * 1000000000 + ts.tv_nsec]. *)
Definition getCurrentTimeNanoseconds (ts : timespec) : Z :=
  to_int64 (to_int64 (tv_sec ts * 1000000000) + tv_nsec ts).

(** [GetAccessStrategyBufferCount] *)
Definition GetAccessStrategyBufferCount (strategy : option BufferAccessStrategyData) : Z :=
  match strategy with
  | None => 0
  | Some st => nbuffers st
  end.

(** [strategy->buffers[i] = v]; there is no such object outside the
    array. *)
Definition set_ring_slot (i v : Z) (st : BufferAccessStrategyData)
  : option BufferAccessStrategyData :=
  match ring_slot st i with
  | None => None
  | Some _ =>
    Some (mkStrategy (btype st) (nbuffers st) (current st) (<[Z.to_nat i:=v]> (buffers st)))
  end.

(** The values of [IOContext] that [IOContextForStrategy] returns. *)
Inductive IOContext : Type :=
| IOCONTEXT_NORMAL | IOCONTEXT_BULKREAD | IOCONTEXT_BULKWRITE | IOCONTEXT_VACUUM.

(** [IOContextForStrategy]; [None] when control reaches
    [pg_unreachable()].  The [elog] after the [switch] cannot be reached
    from a value of the enumeration. *)
Definition IOContextForStrategy (strategy : option BufferAccessStrategyData)
  : option IOContext :=
  match strategy with
  | None => Some IOCONTEXT_NORMAL
  | Some st =>
    match btype st with
    | BAS_NORMAL => None
    | BAS_BULKREAD => Some IOCONTEXT_BULKREAD
    | BAS_BULKWRITE => Some IOCONTEXT_BULKWRITE
    | BAS_VACUUM => Some IOCONTEXT_VACUUM
    end
  end.

Section Rings.

(** [BufferDescriptorGetBuffer], a macro of the buffer manager that the
    file uses and does not define: the [Buffer] number of a descriptor. *)
Variable BufferDescriptorGetBuffer : BufferDesc -> Z.

(** [AddBufferToRing]; [buf] is the index of the descriptor. *)
Definition AddBufferToRing (strategy : BufferAccessStrategyData) (buf : Z)
  : M BufferAccessStrategyData :=
  bufnum <- rd_desc buf BufferDescriptorGetBuffer ;;
  match set_ring_slot (current strategy) bufnum strategy with
  | None => fault
  | Some st => ret st
  end.

(** [StrategyRejectBuffer]: the function reads [strategy->btype] without a
    test for [NULL]; [||] does not evaluate its second operand when
    [from_ring] is false. *)
Definition StrategyRejectBuffer (strategy : option BufferAccessStrategyData)
    (buf : Z) (from_ring : bool) : M (bool * BufferAccessStrategyData) :=
  match strategy with
  | None => fault
  | Some st =>
    match btype st with
    | BAS_BULKREAD =>
      if negb from_ring then ret (false, st)
      else
        match ring_slot st (current st) with
        | None => fault
        | Some slot =>
          bufnum <- rd_desc buf BufferDescriptorGetBuffer ;;
          if negb (slot =? bufnum) then ret (false, st)
          else
            match set_ring_slot (current st) InvalidBuffer st with
            | None => fault
            | Some st' => ret (true, st')
            end
        end
    | _ => ret (false, st)
    end
  end.

End Rings.

(** ** What the further properties speak of *)

(** A ring as [GetAccessStrategyWithSize] lays it out and
    [GetBufferFromRing] keeps it: at least one slot, as many slots as
    [nbuffers] says, the cursor on one of them. *)
Definition ring_ok (st : BufferAccessStrategyData) : Prop :=
  0 < nbuffers st ∧ length (buffers st) = Z.to_nat (nbuffers st) ∧
  0 ≤ current st < nbuffers st.

(** No slot of the ring holds a buffer. *)
Definition ring_unfilled (st : BufferAccessStrategyData) : Prop :=
  Forall (fun b => b = InvalidBuffer) (buffers st).


(** The descriptor [d'] has the index, the free-list link and the two
    counters of [d]; the descriptors of [s'] have those of [s]. *)
Definition same_fields (d d' : BufferDesc) : Prop :=
  buf_id d' = buf_id d ∧ freeNext d' = freeNext d ∧
  refcount d' = refcount d ∧ usage_count d' = usage_count d.

Definition descriptors_keep_fields (s s' : State) : Prop :=
  Forall2 same_fields (BufferDescriptors s) (BufferDescriptors s').

(** Acquisitions without a ring, one after the other, at the given clock
    values; what each one gave its caller, in order. *)
Fixpoint acquisitions (NBuffers FREENEXT_NOT_IN_LIST : Z) (times : list Z)
  : M (list get_buffer_result) :=
  match times with
  | [] => ret []
  | t :: rest =>
    r <- StrategyGetBuffer NBuffers FREENEXT_NOT_IN_LIST None t ;;
    rs <- acquisitions NBuffers FREENEXT_NOT_IN_LIST rest ;;
    ret (fst r :: rs)
  end.

(** The descriptor of buffer [a] sits under its own index and is pinned,
    or not. *)
Definition pinned (s : State) (a : nat) : Prop :=
  ∃ d, BufferDescriptors s !! a = Some d ∧ buf_id d = Z.of_nat a ∧ refcount d ≠ 0.

Definition unpinned (s : State) (a : nat) : Prop :=
  ∃ d, BufferDescriptors s !! a = Some d ∧ buf_id d = Z.of_nat a ∧ refcount d = 0.

(** The parts of the state that are not the list: the descriptors, the
    latches, and the control block without the two ends of the list. *)
Definition off_list (s : State) :=
  (BufferDescriptors s, latches_set s,
   nextVictimBuffer (StrategyControl s), firstFreeBuffer (StrategyControl s),
   lastFreeBuffer (StrategyControl s), completePasses (StrategyControl s),
   numBufferAllocs (StrategyControl s), bgwprocno (StrategyControl s)).

(** The outcome [r] of a call of [StrategyGetBuffer], with [o] as the ring
    it leaves to its caller. *)
Definition with_ring {A B} (o : B) (r : result (A * B)) : result (A * B) :=
  match r with
  | Ret (a, _) s => Ret (a, o) s
  | Elog e s => Elog e s
  | Fault => Fault
  | Diverge => Diverge
  end.

(** A pool of [n] buffers of which the first [k] have been handed out and
    are in the list, the others being on the free list in order, unpinned,
    and their nodes outside the list. *)
Definition handed_out (n k : nat) (s : State) : Prop :=
  length (elruStack s) = n ∧ length (BufferDescriptors s) = n ∧
  (∃ l, stack_wf s l ∧ l ≡ₚ seq 0 k) ∧
  firstFreeBuffer (StrategyControl s) = (if (k =? n)%nat then -1 else Z.of_nat k) ∧
  (∀ j, (k ≤ j < n)%nat →
        BufferDescriptors s !! j =
          Some (mkBufferDesc (Z.of_nat j)
                             (if (S j =? n)%nat then -1 else Z.of_nat (S j)) 0 0)) ∧
  (∀ j, (k ≤ j < n)%nat →
        ∃ nj, elruStack s !! j = Some nj ∧ node_id nj = Z.of_nat j ∧
              prev nj = None ∧ next nj = None).

(** The free list as the descriptors link it: from [first], through
    [freeNext], the buffers of [c] in order, and then [after]. *)
Fixpoint free_chain (ds : list BufferDesc) (first : Z) (c : list nat) (after : Z) : Prop :=
  match c with
  | [] => first = after
  | f :: c' =>
    first = Z.of_nat f ∧ ∃ d, ds !! f = Some d ∧ free_chain ds (freeNext d) c' after
  end.

(** The test of [StrategyGetBuffer] on an entry of the free list:
    [local_buf_state] has a reference count and a usage count of zero. *)
Definition usable (d : BufferDesc) : bool := (refcount d =? 0) && (usage_count d =? 0).

(** * Proofs *)

(** ** Rules for [wp], [twp] and [preserves] *)

Lemma wp_bind {A B} (m : M A) (k : A -> M B) Q E s :
  wp (bind m k) Q E s ↔ wp m (fun a s' => wp (k a) Q E s') E s.
Proof. unfold wp, bind. destruct (m s); reflexivity. Qed.

Lemma wp_mono {A} (m : M A) (Q Q' : A -> State -> Prop) (E E' : error -> State -> Prop) s :
  wp m Q E s → (∀ a s', Q a s' → Q' a s') → (∀ e s', E e s' → E' e s') → wp m Q' E' s.
Proof. unfold wp. destruct (m s); auto. Qed.

Lemma wp_preserves {A} (I : State -> Prop) (m : M A) Q E s :
  preserves I m → I s → (∀ a s', I s' → Q a s') → (∀ e s', I s' → E e s') → wp m Q E s.
Proof. intros Hm Hs HQ HE. eapply wp_mono; [exact (Hm s Hs) | |]; simpl; auto. Qed.

Lemma twp_bind {A B} (m : M A) (k : A -> M B) Q s :
  twp (bind m k) Q s ↔ twp m (fun a s' => twp (k a) Q s') s.
Proof. unfold twp, bind. destruct (m s); reflexivity. Qed.

Lemma twp_mono {A} (m : M A) (Q Q' : A -> State -> Prop) s :
  twp m Q s → (∀ a s', Q a s' → Q' a s') → twp m Q' s.
Proof. unfold twp. destruct (m s); auto. Qed.

Lemma twp_Ret {A} (m : M A) Q s :
  twp m Q s ↔ ∃ a s', m s = Ret a s' ∧ Q a s'.
Proof.
  unfold twp. split.
  - destruct (m s) as [a s'| | |]; try tauto. eauto.
  - intros (a & s' & -> & HQ). exact HQ.
Qed.

Lemma twp_rd {A} i (f : BufferNode -> A) n Q s :
  elruStack s !! i = Some n → Q (f n) s → twp (rd (Some i) f) Q s.
Proof. intros Hn HQ. unfold twp, rd. rewrite Hn. exact HQ. Qed.

Lemma twp_wr i upd n (Q : unit -> State -> Prop) s :
  elruStack s !! i = Some n →
  Q tt (with_elruStack (fun l => <[i:=upd n]> l) s) →
  twp (wr (Some i) upd) Q s.
Proof. intros Hn HQ. unfold twp, wr. rewrite Hn. exact HQ. Qed.

Section Preservation.

Context {I : State -> Prop}.

Lemma preserves_ret {A} (a : A) : preserves I (ret a).
Proof. intros s Hs. exact Hs. Qed.

Lemma preserves_bind {A B} (m : M A) (k : A -> M B) :
  preserves I m → (∀ a, preserves I (k a)) → preserves I (bind m k).
Proof.
  intros Hm Hk s Hs. apply wp_bind.
  eapply wp_mono; [exact (Hm s Hs) | | auto].
  intros a s' Hs'. exact (Hk a s' Hs').
Qed.

Lemma preserves_gets {A} (f : State -> A) : preserves I (gets f).
Proof. intros s Hs. exact Hs. Qed.

Lemma preserves_ctl {A} (f : BufferStrategyControl -> A) : preserves I (ctl f).
Proof. intros s Hs. exact Hs. Qed.

Lemma preserves_rd {A} p (f : BufferNode -> A) : preserves I (rd p f).
Proof.
  intros s Hs. unfold wp, rd. destruct p as [i|]; [|exact Logic.I].
  destruct (elruStack s !! i); [exact Hs | exact Logic.I].
Qed.

Lemma preserves_rd_desc {A} id (f : BufferDesc -> A) : preserves I (rd_desc id f).
Proof.
  intros s Hs. unfold wp, rd_desc. destruct (desc_index id) as [i|]; [|exact Logic.I].
  destruct (BufferDescriptors s !! i); [exact Hs | exact Logic.I].
Qed.

Lemma preserves_elog {A} e : preserves I (@elog A e).
Proof. intros s Hs. exact Hs. Qed.

Lemma preserves_fault {A} : preserves I (@fault A).
Proof. intros s Hs. exact Logic.I. Qed.

Lemma preserves_diverge {A} : preserves I (@diverge A).
Proof. intros s Hs. exact Logic.I. Qed.

Lemma preserves_wr p upd :
  (∀ s i n, I s → elruStack s !! i = Some n →
            I (with_elruStack (fun l => <[i:=upd n]> l) s)) →
  preserves I (wr p upd).
Proof.
  intros H s Hs. unfold wp, wr. destruct p as [i|]; [|exact Logic.I].
  destruct (elruStack s !! i) eqn:Hn; [|exact Logic.I]. eauto.
Qed.

Lemma preserves_wr_desc id upd :
  (∀ s i d, I s → BufferDescriptors s !! i = Some d →
            I (with_descriptors (fun l => <[i:=upd d]> l) s)) →
  preserves I (wr_desc id upd).
Proof.
  intros H s Hs. unfold wp, wr_desc. destruct (desc_index id) as [i|]; [|exact Logic.I].
  destruct (BufferDescriptors s !! i) eqn:Hd; [|exact Logic.I]. eauto.
Qed.

Lemma preserves_modify f : (∀ s, I s → I (f s)) → preserves I (modify f).
Proof. intros H s Hs. unfold wp, modify. auto. Qed.

Lemma preserves_set_ctl upd :
  (∀ s, I s → I (with_control upd s)) → preserves I (set_ctl upd).
Proof. intros H. apply preserves_modify. exact H. Qed.

End Preservation.

(** One step of a proof that a piece of code keeps an invariant; [tac]
    closes the side conditions of the writes. *)
Ltac preserves_step tac :=
  lazymatch goal with
  | |- preserves _ (bind _ _) => apply preserves_bind; [| intros ?]
  | |- preserves _ (ret _) => apply preserves_ret
  | |- preserves _ (gets _) => apply preserves_gets
  | |- preserves _ (ctl _) => apply preserves_ctl
  | |- preserves _ (rd _ _) => apply preserves_rd
  | |- preserves _ (rd_desc _ _) => apply preserves_rd_desc
  | |- preserves _ (elog _) => apply preserves_elog
  | |- preserves _ fault => apply preserves_fault
  | |- preserves _ diverge => apply preserves_diverge
  | |- preserves _ (wr _ _) => apply preserves_wr; tac
  | |- preserves _ (wr_desc _ _) => apply preserves_wr_desc; tac
  | |- preserves _ (set_ctl _) => apply preserves_set_ctl; tac
  | |- preserves _ (modify _) => apply preserves_modify; tac
  | |- preserves _ (if ?b then _ else _) => destruct b
  | |- preserves _ (match ?x with _ => _ end) => destruct x
  end.

Ltac preserves_auto tac := repeat (preserves_step tac).

(** ** Which parts of the code write which parts of the state *)

Section Frames.

(** An invariant [I] is kept by a function as soon as it is kept by the
    kinds of writes the function makes; the hypotheses name them, and each
    lemma depends on the ones its function needs.  First the writes to the
    links and to the two ends of the list. *)
Context {I : State -> Prop}.
Hypothesis Hprev : ∀ v s i n, I s → elruStack s !! i = Some n →
  I (with_elruStack (fun l => <[i:=set_prev v n]> l) s).
Hypothesis Hnext : ∀ v s i n, I s → elruStack s !! i = Some n →
  I (with_elruStack (fun l => <[i:=set_next v n]> l) s).
Hypothesis Htop : ∀ v s, I s → I (with_control (set_stackTop v) s).
Hypothesis Hbottom : ∀ v s, I s → I (with_control (set_stackBottom v) s).

Local Ltac side := first [apply Hprev | apply Hnext | apply Htop | apply Hbottom].

Lemma preserves_compare_at a b : preserves I (compare_at a b).
Proof. unfold compare_at. preserves_auto side. Qed.

Lemma preserves_link_below node current : preserves I (link_below node current).
Proof. unfold link_below. preserves_auto side. Qed.

Lemma preserves_processStack_loop fuel node current :
  preserves I (processStack_loop fuel node current).
Proof.
  revert current. induction fuel as [|fuel IH]; intros current; simpl.
  - apply preserves_diverge.
  - preserves_auto side;
      first [apply IH | apply preserves_compare_at | apply preserves_link_below].
Qed.

Lemma preserves_processStackBottomToTop node :
  preserves I (processStackBottomToTop node).
Proof.
  unfold processStackBottomToTop.
  preserves_auto side. apply preserves_processStack_loop.
Qed.

Lemma preserves_walk_to_top fuel temp : preserves I (walk_to_top fuel temp).
Proof.
  revert temp. induction fuel as [|fuel IH]; intros temp; simpl.
  - apply preserves_diverge.
  - preserves_auto side. apply IH.
Qed.

Lemma preserves_top_is_not buf_id : preserves I (top_is_not buf_id).
Proof. unfold top_is_not. preserves_auto side. Qed.

Lemma preserves_unlink_resident buf_id curr :
  preserves I (unlink_resident buf_id curr).
Proof.
  unfold unlink_resident.
  preserves_auto side. apply preserves_walk_to_top.
Qed.

(** The two timestamps. *)
Hypothesis Hlast : ∀ v s i n, I s → elruStack s !! i = Some n →
  I (with_elruStack (fun l => <[i:=set_last_accessed v n]> l) s).
Hypothesis Hsecond : ∀ v s i n, I s → elruStack s !! i = Some n →
  I (with_elruStack (fun l => <[i:=set_second_last_accessed v n]> l) s).

Local Ltac side2 := first [side | apply Hlast | apply Hsecond].

Lemma preserves_StrategyAccessBuffer NBuffers buf_id delete now :
  preserves I (StrategyAccessBuffer NBuffers buf_id delete now).
Proof.
  unfold StrategyAccessBuffer. destruct (_ || _); [apply preserves_elog|].
  cbv beta iota zeta.
  preserves_auto side2;
    first [apply preserves_top_is_not | apply preserves_processStackBottomToTop
          | apply preserves_unlink_resident]; assumption.
Qed.

(** The free list, the wake-up of the background writer. *)
Hypothesis HfreeNext : ∀ v s i d, I s → BufferDescriptors s !! i = Some d →
  I (with_descriptors (fun l => <[i:=set_freeNext v d]> l) s).
Hypothesis HfirstFree : ∀ v s, I s → I (with_control (set_firstFreeBuffer v) s).
Hypothesis HlastFree : ∀ v s, I s → I (with_control (set_lastFreeBuffer v) s).
Hypothesis Hbgw : ∀ v s, I s → I (with_control (set_bgwprocno v) s).
Hypothesis Hlatch : ∀ p s, I s → I (with_latch p s).

Local Ltac side3 :=
  first [side2 | apply HfreeNext | apply HfirstFree | apply HlastFree
        | apply Hbgw | apply Hlatch].

Lemma preserves_GetBufferFromRing strategy : preserves I (GetBufferFromRing strategy).
Proof. unfold GetBufferFromRing. cbv zeta. preserves_auto side3. Qed.

Lemma preserves_freelist_loop NBuffers NOT_IN_LIST fuel now :
  preserves I (freelist_loop NBuffers NOT_IN_LIST fuel now).
Proof.
  induction fuel as [|fuel IH]; simpl.
  - apply preserves_diverge.
  - preserves_auto side3;
      first [apply IH | apply preserves_StrategyAccessBuffer].
Qed.

Lemma preserves_victim_loop NBuffers fuel now victim :
  preserves I (victim_loop NBuffers fuel now victim).
Proof.
  revert victim. induction fuel as [|fuel IH]; intros victim; simpl.
  - apply preserves_diverge.
  - preserves_auto side3;
      first [apply IH | apply preserves_StrategyAccessBuffer].
Qed.

Lemma preserves_StrategyFreeBuffer NBuffers NOT_IN_LIST buf now :
  preserves I (StrategyFreeBuffer NBuffers NOT_IN_LIST buf now).
Proof.
  unfold StrategyFreeBuffer.
  preserves_auto side3; apply preserves_StrategyAccessBuffer.
Qed.

(** What [StrategyGetBuffer] does once the ring has given nothing and the
    allocation has been counted. *)
Lemma preserves_after_count NBuffers NOT_IN_LIST now (st : option BufferAccessStrategyData) :
  preserves I
    (first <- ctl firstFreeBuffer ;;
     free <- (if first >=? 0
              then n <- gets (fun s => length (BufferDescriptors s)) ;;
                   freelist_loop NBuffers NOT_IN_LIST (S (S n)) now
              else ret None) ;;
     match free with
     | Some (buf, buf_state) => ret (Returned buf buf_state false, st)
     | None =>
       victim <- ctl stackBottom ;;
       n <- gets (fun s => length (elruStack s)) ;;
       r <- victim_loop NBuffers (S n) now victim ;;
       ret (r, st)
     end).
Proof.
  preserves_auto side3;
    first [apply preserves_freelist_loop | apply preserves_victim_loop].
Qed.

(** The allocation counter. *)
Hypothesis Hallocs : ∀ v s, I s → I (with_control (set_numBufferAllocs v) s).

Lemma preserves_StrategyGetBuffer NBuffers NOT_IN_LIST strategy now :
  preserves I (StrategyGetBuffer NBuffers NOT_IN_LIST strategy now).
Proof.
  unfold StrategyGetBuffer.
  preserves_auto ltac:(first [side3 | apply Hallocs]);
    first [apply preserves_GetBufferFromRing | apply preserves_StrategyAccessBuffer
          | apply preserves_freelist_loop | apply preserves_victim_loop].
Qed.

End Frames.

(** ** [wp] of the primitive operations *)

Lemma wp_ret {A} (a : A) Q E s : wp (ret a) Q E s ↔ Q a s.
Proof. reflexivity. Qed.

Lemma wp_elog {A} e (Q : A -> State -> Prop) E s : wp (elog e) Q E s ↔ E e s.
Proof. reflexivity. Qed.

Lemma wp_gets {A} (f : State -> A) Q E s : wp (gets f) Q E s ↔ Q (f s) s.
Proof. reflexivity. Qed.

Lemma wp_ctl {A} (f : BufferStrategyControl -> A) Q E s :
  wp (ctl f) Q E s ↔ Q (f (StrategyControl s)) s.
Proof. reflexivity. Qed.

Lemma wp_modify f Q E s : wp (modify f) Q E s ↔ Q tt (f s).
Proof. reflexivity. Qed.

Lemma wp_set_ctl upd Q E s : wp (set_ctl upd) Q E s ↔ Q tt (with_control upd s).
Proof. reflexivity. Qed.

Lemma wp_rd {A} p (f : BufferNode -> A) Q E s :
  wp (rd p f) Q E s ↔ ∀ i n, p = Some i → elruStack s !! i = Some n → Q (f n) s.
Proof.
  unfold wp, rd. destruct p as [i|].
  - destruct (elruStack s !! i) as [n|] eqn:Hn.
    + split; [intros HQ j m [= <-] Hm; by simplify_eq | eauto].
    + split; [intros _ j m [= <-] Hm; by simplify_eq | done].
  - split; [intros _ j m [=] | done].
Qed.

Lemma wp_wr p upd Q E s :
  wp (wr p upd) Q E s ↔
  ∀ i n, p = Some i → elruStack s !! i = Some n →
         Q tt (with_elruStack (fun l => <[i:=upd n]> l) s).
Proof.
  unfold wp, wr. destruct p as [i|].
  - destruct (elruStack s !! i) as [n|] eqn:Hn.
    + split; [intros HQ j m [= <-] Hm; by simplify_eq | eauto].
    + split; [intros _ j m [= <-] Hm; by simplify_eq | done].
  - split; [intros _ j m [=] | done].
Qed.

Lemma wp_rd_desc {A} id (f : BufferDesc -> A) Q E s :
  wp (rd_desc id f) Q E s ↔
  ∀ i d, desc_index id = Some i → BufferDescriptors s !! i = Some d → Q (f d) s.
Proof.
  unfold wp, rd_desc. destruct (desc_index id) as [i|].
  - destruct (BufferDescriptors s !! i) as [d|] eqn:Hd.
    + split; [intros HQ j m [= <-] Hm; by simplify_eq | eauto].
    + split; [intros _ j m [= <-] Hm; by simplify_eq | done].
  - split; [intros _ j m [=] | done].
Qed.

Lemma wp_wr_desc id upd Q E s :
  wp (wr_desc id upd) Q E s ↔
  ∀ i d, desc_index id = Some i → BufferDescriptors s !! i = Some d →
         Q tt (with_descriptors (fun l => <[i:=upd d]> l) s).
Proof.
  unfold wp, wr_desc. destruct (desc_index id) as [i|].
  - destruct (BufferDescriptors s !! i) as [d|] eqn:Hd.
    + split; [intros HQ j m [= <-] Hm; by simplify_eq | eauto].
    + split; [intros _ j m [= <-] Hm; by simplify_eq | done].
  - split; [intros _ j m [=] | done].
Qed.

Lemma wp_Ret {A} (m : M A) Q E s a s' : wp m Q E s → m s = Ret a s' → Q a s'.
Proof. unfold wp. intros H Hm. rewrite Hm in H. exact H. Qed.

Lemma preserves_state_after {A} I (m : M A) s s' :
  preserves I m → I s → state_after (m s) = Some s' → I s'.
Proof.
  intros Hm Hs. specialize (Hm s Hs). unfold wp in Hm.
  destruct (m s); simpl; intros [= <-]; exact Hm.
Qed.

(** One step through straight-line code under [wp]. *)
Ltac wp_step :=
  lazymatch goal with
  | |- wp (bind _ _) _ _ _ => apply wp_bind
  | |- wp (ret _) _ _ _ => apply wp_ret
  | |- wp (elog _) _ _ _ => apply wp_elog
  | |- wp (gets _) _ _ _ => apply wp_gets
  | |- wp (ctl _) _ _ _ => apply wp_ctl
  | |- wp (modify _) _ _ _ => apply wp_modify
  | |- wp (set_ctl _) _ _ _ => apply wp_set_ctl
  | |- wp (rd _ _) _ _ _ => apply wp_rd; intros ? ? ? ?
  | |- wp (wr _ _) _ _ _ => apply wp_wr; intros ? ? ? ?
  | |- wp (rd_desc _ _) _ _ _ => apply wp_rd_desc; intros ? ? ? ?
  | |- wp (wr_desc _ _) _ _ _ => apply wp_wr_desc; intros ? ? ? ?
  | |- wp fault _ _ _ => exact Logic.I
  | |- wp diverge _ _ _ => exact Logic.I
  end.

(** ** The invariants and the writes *)

Lemma same_stamps_set_prev L v s i n :
  same_stamps L s → elruStack s !! i = Some n →
  same_stamps L (with_elruStack (fun l => <[i:=set_prev v n]> l) s).
Proof.
  unfold same_stamps. simpl. intros <- Hn.
  rewrite list_fmap_insert. apply list_insert_id.
  rewrite list_lookup_fmap, Hn. reflexivity.
Qed.

Lemma same_stamps_set_next L v s i n :
  same_stamps L s → elruStack s !! i = Some n →
  same_stamps L (with_elruStack (fun l => <[i:=set_next v n]> l) s).
Proof.
  unfold same_stamps. simpl. intros <- Hn.
  rewrite list_fmap_insert. apply list_insert_id.
  rewrite list_lookup_fmap, Hn. reflexivity.
Qed.

Lemma same_stamps_lookup L s s' i n :
  same_stamps L s → same_stamps L s' → elruStack s !! i = Some n →
  ∃ n', elruStack s' !! i = Some n' ∧ stamps n' = stamps n.
Proof.
  unfold same_stamps. intros <- Heq Hn.
  assert (H : (stamps <$> elruStack s') !! i = Some (stamps n)).
  { rewrite Heq, list_lookup_fmap, Hn. reflexivity. }
  rewrite list_lookup_fmap in H.
  destruct (elruStack s' !! i) as [n'|]; [|discriminate].
  exists n'. split; [reflexivity|]. simpl in H. congruence.
Qed.

Lemma descriptors_indexed_set_freeNext v s i d :
  descriptors_indexed s → BufferDescriptors s !! i = Some d →
  descriptors_indexed (with_descriptors (fun l => <[i:=set_freeNext v d]> l) s).
Proof.
  unfold descriptors_indexed. simpl. intros Hs Hd j e He.
  destruct (decide (i = j)) as [->|Hne].
  - rewrite list_lookup_insert_eq in He by (eapply lookup_lt_Some; eassumption).
    injection He as <-. simpl. eauto.
  - rewrite list_lookup_insert_ne in He by assumption. eauto.
Qed.

Lemma same_clock_acquire NBuffers NOT_IN_LIST strategy now hand passes :
  preserves (same_clock hand passes) (StrategyGetBuffer NBuffers NOT_IN_LIST strategy now).
Proof. apply preserves_StrategyGetBuffer; intros; assumption. Qed.

Lemma sync_position_eq NBuffers s :
  sync_position NBuffers s =
  Some (nextVictimBuffer (StrategyControl s) mod NBuffers,
        Some (to_uint32 (completePasses (StrategyControl s)
                         + nextVictimBuffer (StrategyControl s) / NBuffers))).
Proof. reflexivity. Qed.

Lemma GetBufferFromRing_state st s :
  wp (GetBufferFromRing st) (fun _ s' => s' = s) (fun _ _ => False) s.
Proof.
  unfold GetBufferFromRing. cbv zeta.
  destruct (ring_slot _ _); [|exact Logic.I].
  destruct (_ =? _); [reflexivity|].
  wp_step. wp_step. destruct (_ && _); reflexivity.
Qed.





(** ** The clock hand (C5) *)

(** C5, as the specification states it, fails: the first allocation from a
    fresh pool of four buffers does not go through a ring, and the clock
    hand [nextVictimBuffer] is 0 before and after it, not 1; the position
    [StrategySyncStart] reports has not moved. *)
Lemma acquire_does_not_advance_clock_hand :
  match StrategyGetBuffer Pool4.N Pool4.NOT_IN_LIST None 10 Pool4.fresh with
  | Ret (Returned _ _ from_ring, _) s' =>
    from_ring = false ∧
    nextVictimBuffer (StrategyControl Pool4.fresh) = 0 ∧
    nextVictimBuffer (StrategyControl s') = 0 ∧
    sync_position Pool4.N s' = sync_position Pool4.N Pool4.fresh
  | _ => False
  end.
Proof. vm_compute. repeat split. Qed.

(** C5 (amended): no call of [StrategyGetBuffer], through a ring or not,
    changes the clock hand [nextVictimBuffer] or [completePasses]
    ([ClockSweepTick] is never called), so the start index
    [nextVictimBuffer mod NBuffers] and the pass count
    [completePasses + nextVictimBuffer / NBuffers] that [StrategySyncStart]
    reports are the same after the call as before it. *)
Theorem acquire_leaves_clock_hand NBuffers NOT_IN_LIST strategy now s :
  sync_position NBuffers s =
    Some (nextVictimBuffer (StrategyControl s) mod NBuffers,
          Some (to_uint32 (completePasses (StrategyControl s)
                           + nextVictimBuffer (StrategyControl s) / NBuffers))) ∧
  match state_after (StrategyGetBuffer NBuffers NOT_IN_LIST strategy now s) with
  | Some s' =>
    nextVictimBuffer (StrategyControl s') = nextVictimBuffer (StrategyControl s) ∧
    completePasses (StrategyControl s') = completePasses (StrategyControl s) ∧
    sync_position NBuffers s' = sync_position NBuffers s
  | None => True
  end.
Proof.
  split; [apply sync_position_eq|].
  destruct (state_after _) as [s'|] eqn:Hs'; [|exact Logic.I].
  assert (H : same_clock (nextVictimBuffer (StrategyControl s))
                         (completePasses (StrategyControl s)) s').
  { eapply preserves_state_after; [apply same_clock_acquire | | exact Hs'].
    split; reflexivity. }
  destruct H as [Hhand Hpasses].
  rewrite !sync_position_eq, Hhand, Hpasses. auto.
Qed.

(** ** The allocation counter (C7) *)






(** ** New rings (C8) *)

(** C8, as the specification states it, fails: with 128 buffers of 8 kB a
    bulk-read ring has 16 slots and its cursor is 0, not 15; the first
    [GetBufferFromRing] moves it to slot 1 and examines that one. *)
Lemma new_ring_cursor_is_not_last_slot :
  match GetAccessStrategy 128 8192 BAS_BULKREAD with
  | Some st =>
    nbuffers st = 16 ∧ current st = 0 ∧ current st ≠ nbuffers st - 1 ∧
    match GetBufferFromRing st Pool4.fresh with
    | Ret (None, st') _ => current st' = 1
    | _ => False
    end
  | None => False
  end.
Proof. vm_compute. repeat split; discriminate. Qed.

Lemma ring_size_positive NBuffers BLCKSZ kb :
  8 ≤ NBuffers → 1024 ≤ BLCKSZ ≤ 32768 → 256 ≤ kb →
  0 < Z.min (NBuffers ÷ 8) (kb ÷ (BLCKSZ ÷ 1024)) ∧ kb ÷ (BLCKSZ ÷ 1024) ≠ 0.
Proof.
  intros HN HB Hkb.
  rewrite (Z.quot_div_nonneg BLCKSZ 1024) by lia.
  assert (1 ≤ BLCKSZ / 1024) by (apply Z.div_le_lower_bound; lia).
  assert (BLCKSZ / 1024 ≤ 32) by (apply Z.div_le_upper_bound; lia).
  rewrite (Z.quot_div_nonneg kb) by lia.
  rewrite (Z.quot_div_nonneg NBuffers 8) by lia.
  assert (8 ≤ kb / (BLCKSZ / 1024)) by (apply Z.div_le_lower_bound; lia).
  assert (1 ≤ NBuffers / 8) by (apply Z.div_le_lower_bound; lia).
  lia.
Qed.

(** C8 (amended): for a pool of at least 8 buffers and a page size between
    1 kB and 32 kB, [GetAccessStrategy] on a kind other than NORMAL returns
    a ring of [k > 0] slots, all [InvalidBuffer], whose cursor is 0 (the
    object is zeroed and the cursor never assigned), so that the first
    [GetBufferFromRing] examines slot 1 (slot 0 when [k = 1]) and, the slot
    being empty, returns nothing; NORMAL yields no ring. *)
Theorem new_ring_starts_at_zero NBuffers BLCKSZ kind :
  8 ≤ NBuffers → 1024 ≤ BLCKSZ ≤ 32768 → kind ≠ BAS_NORMAL →
  GetAccessStrategy NBuffers BLCKSZ BAS_NORMAL = None ∧
  ∃ st, GetAccessStrategy NBuffers BLCKSZ kind = Some st ∧
        btype st = kind ∧
        0 < nbuffers st ∧
        length (buffers st) = Z.to_nat (nbuffers st) ∧
        Forall (fun b => b = InvalidBuffer) (buffers st) ∧
        current st = 0 ∧
        ∀ s, ∃ st', GetBufferFromRing st s = Ret (None, st') s ∧
                    current st' = (if nbuffers st =? 1 then 0 else 1).
Proof.
  intros HN HB Hkind. split; [reflexivity|].
  assert (Hsize : ∀ kb, 256 ≤ kb →
    ∃ st, GetAccessStrategyWithSize NBuffers BLCKSZ kind kb = Some st ∧
          btype st = kind ∧ 0 < nbuffers st ∧
          length (buffers st) = Z.to_nat (nbuffers st) ∧
          Forall (fun b => b = InvalidBuffer) (buffers st) ∧
          current st = 0 ∧
          ∀ s, ∃ st', GetBufferFromRing st s = Ret (None, st') s ∧
                      current st' = (if nbuffers st =? 1 then 0 else 1)).
  { intros kb Hkb.
    destruct (ring_size_positive NBuffers BLCKSZ kb HN HB Hkb) as [Hpos Hnz].
    unfold GetAccessStrategyWithSize.
    destruct (_ =? 0) eqn:Hz; [lia|].
    set (k := Z.min (NBuffers ÷ 8) (kb ÷ (BLCKSZ ÷ 1024))) in *.
    eexists. split; [reflexivity|]. simpl.
    repeat split.
    - exact Hpos.
    - apply length_replicate.
    - apply Forall_replicate. reflexivity.
    - intros s. unfold GetBufferFromRing, ring_advance, ring_slot. simpl.
      destruct (k =? 1) eqn:Hk1.
      + assert (k = 1) as -> by lia. simpl. eexists. split; reflexivity.
      + destruct (0 + 1 >=? k) eqn:Hge; [lia|]. simpl.
        rewrite lookup_replicate_2 by lia. simpl.
        eexists. split; reflexivity. }
  destruct kind; [congruence | | |]; simpl; apply Hsize; lia.
Qed.

Lemma new_ring_starts_at_zero_witness :
  GetAccessStrategy 128 8192 BAS_NORMAL = None ∧
  ∃ st, GetAccessStrategy 128 8192 BAS_VACUUM = Some st ∧
        btype st = BAS_VACUUM ∧
        0 < nbuffers st ∧
        length (buffers st) = Z.to_nat (nbuffers st) ∧
        Forall (fun b => b = InvalidBuffer) (buffers st) ∧
        current st = 0 ∧
        ∀ s, ∃ st', GetBufferFromRing st s = Ret (None, st') s ∧
                    current st' = (if nbuffers st =? 1 then 0 else 1).
Proof.
  apply (new_ring_starts_at_zero 128 8192 BAS_VACUUM); [lia | lia | discriminate].
Defined.

(** ** The comparator (C10) *)

(** C10 fails on the code.  Two resident nodes touched once, one second
    and four seconds after the clock's origin: the first has the smaller
    rank, and [compareELRU] is positive, because the difference
    -3000000000 does not fit the [int] the function returns.  Two nodes
    whose ranks differ by 2^32 compare as equal. *)
Theorem compareELRU_loses_the_sign :
  let a := mkBufferNode 0 None None 1000000000 TIMESTAMP_NIL in
  let b := mkBufferNode 1 None None 4000000000 TIMESTAMP_NIL in
  let c := mkBufferNode 2 None None (1000000000 + 2^32) TIMESTAMP_NIL in
  tier a = tier b ∧ rank a < rank b ∧ compareELRU a b = 1294967296 ∧
  tier a = tier c ∧ rank a ≠ rank c ∧ compareELRU a c = 0.
Proof. vm_compute. repeat split; discriminate. Qed.

(** The defect is confined to large gaps: within 2^31 nanoseconds of each
    other, the ranks of two resident nodes of the same tier are compared
    correctly. *)
Lemma to_int_small z : - 2^31 ≤ z < 2^31 → to_int z = z.
Proof. intros Hz. unfold to_int. rewrite Z.mod_small; lia. Qed.

Lemma compareELRU_small_gap a b :
  last_accessed a ≠ TIMESTAMP_NIL → last_accessed b ≠ TIMESTAMP_NIL →
  tier a = tier b → - 2^31 ≤ rank a - rank b < 2^31 →
  compareELRU a b = rank a - rank b.
Proof.
  unfold compareELRU, isRemovedNode, tier, rank, TIMESTAMP_NIL.
  intros Ha Hb Htier Hgap.
  destruct (last_accessed a =? -1) eqn:Hla; [lia|].
  destruct (last_accessed b =? -1) eqn:Hlb; [lia|]. simpl.
  destruct (second_last_accessed a =? -1) eqn:Hsa;
    destruct (second_last_accessed b =? -1) eqn:Hsb; try discriminate; simpl;
    apply to_int_small; exact Hgap.
Qed.

(** ** Release (C1) *)

(** C1 fails on the code.  Buffer 1 is in the list and not on the free
    list; [StrategyFreeBuffer] puts it on the free list and then calls
    [StrategyAccessBuffer(1, true)], whose removal branch is under
    [if (false)]: the call records an access at time 30 and moves the node
    to the top.  The node stays in the list with both timestamps set. *)
Theorem release_records_an_access :
  elru_list Pool4.two = [0; 1]%nat ∧
  (freeNext <$> BufferDescriptors Pool4.two !! 1%nat) = Some Pool4.NOT_IN_LIST ∧
  match StrategyFreeBuffer Pool4.N Pool4.NOT_IN_LIST 1 30 Pool4.two with
  | Ret _ s' =>
    firstFreeBuffer (StrategyControl s') = 1 ∧
    elruStack s' !! 1%nat = Some (mkBufferNode 1 None (Some 0%nat) 30 20) ∧
    elru_list s' = [0; 1]%nat ∧
    stackTop (StrategyControl s') = Some 1%nat
  | _ => False
  end.
Proof. vm_compute. repeat split. Qed.

(** ** Acquisition with an unpinned buffer in use (C2) *)

(** C2 fails on the code.  In a pool of three buffers, buffers 0 and 1 are
    handed out and pinned; buffer 0 is accessed again at 30 ns, buffer 1 at
    3 s and once more a nanosecond later.  On that last access
    [compareELRU] returns [(int) (3000000000 - 10)], a negative number, so
    node 1, the top of the list, is put back below node 0, in the branch of
    [processStackBottomToTop] that does not reset [node->next]: node 1 is
    the bottom of the list and still points to node 0.  The next
    acquisition takes buffer 2 from the free list and links its node below
    node 1, between node 1 and the node that node 1 points to, so that
    [stackBottom] stays on node 1.  The caller pins buffer 2 and unpins it.
    Now the free list is empty, buffers 0 and 1 are pinned and buffer 2,
    which is in use, is not: [StrategyGetBuffer] walks from node 1 to node
    0, the top, and raises "No unpinned buffer". *)
Theorem acquire_raises_with_an_unpinned_buffer :
  match run Pool3.N Pool3.NOT_IN_LIST Pool3.first_calls Pool3.fresh with
  | Some (s1, _, _) =>
    elruStack s1 =
      [mkBufferNode 0 None (Some 1%nat) 30 10;
       mkBufferNode 1 (Some 0%nat) (Some 0%nat) 3000000001 3000000000;
       mkBufferNode 2 None None TIMESTAMP_NIL TIMESTAMP_NIL] ∧
    stackBottom (StrategyControl s1) = Some 1%nat ∧
    firstFreeBuffer (StrategyControl s1) = 2 ∧
    match StrategyGetBuffer Pool3.N Pool3.NOT_IN_LIST None 3000000002 s1 with
    | Ret (Returned buf _ from_ring, _) s2 =>
      buf = 2 ∧ from_ring = false ∧
      match run Pool3.N Pool3.NOT_IN_LIST Pool3.pin_and_unpin s2 with
      | Some (s, _, _) =>
        firstFreeBuffer (StrategyControl s) = -1 ∧
        (refcount <$> BufferDescriptors s) = [1; 1; 0] ∧
        elruStack s =
          [mkBufferNode 0 (Some 2%nat) (Some 1%nat) 30 10;
           mkBufferNode 1 (Some 0%nat) (Some 2%nat) 3000000001 3000000000;
           mkBufferNode 2 (Some 1%nat) (Some 0%nat) 3000000002 TIMESTAMP_NIL] ∧
        stackBottom (StrategyControl s) = Some 1%nat ∧
        stackTop (StrategyControl s) = Some 0%nat ∧
        match StrategyGetBuffer Pool3.N Pool3.NOT_IN_LIST None 3000000003 s with
        | Elog e _ => e = NoUnpinnedBuffer
        | _ => False
        end
      | None => False
      end
    | _ => False
    end
  | None => False
  end.
Proof. vm_compute. repeat split. Qed.

(** ** Order of the list (C3) *)

(** C3 fails on the code.  Two allocations from a fresh pool, one second
    and four seconds after the clock's origin: the second buffer is
    inserted below the first although its key is larger, because
    [compareELRU] returns the difference of the timestamps converted to
    [int]. *)
Theorem list_order_broken_by_comparator :
  match run Pool4.N Pool4.NOT_IN_LIST
            [OpAcquire None 1000000000; OpAcquire None 4000000000] Pool4.fresh with
  | Some (s', _, _) =>
    elru_list s' = [1; 0]%nat ∧
    keys_of (elruStack s') (elru_list s') = [(0, 4000000000); (0, 1000000000)] ∧
    elru_sorted s' = false
  | None => False
  end.
Proof. vm_compute. repeat split. Qed.

(** ** Access to the only node of the list (C6) *)

(** C6 fails on the code.  After the first allocation buffer 0 is the only
    node of the list, top and bottom, both links [NULL].  An access to it
    takes the branch for the bottom node and executes
    [curr->prev->next = NULL] with [curr->prev == NULL]. *)
Theorem access_to_sole_node_follows_null :
  elru_list Pool4.one = [0]%nat ∧
  stackTop (StrategyControl Pool4.one) = Some 0%nat ∧
  stackBottom (StrategyControl Pool4.one) = Some 0%nat ∧
  elruStack Pool4.one !! 0%nat = Some (mkBufferNode 0 None None 10 TIMESTAMP_NIL) ∧
  StrategyAccessBuffer Pool4.N 0 false 20 Pool4.one = Fault.
Proof. vm_compute. repeat split. Qed.

(** ** What an access records (C4) *)

Lemma bind_Ret {A B} (m : M A) (k : A -> M B) s b s' :
  bind m k s = Ret b s' → ∃ a s1, m s = Ret a s1 ∧ k a s1 = Ret b s'.
Proof. unfold bind. destruct (m s) as [a s1| | |]; try discriminate. eauto. Qed.

Lemma desc_index_Some id i : desc_index id = Some i → id = Z.of_nat i.
Proof.
  unfold desc_index. destruct (id <? 0) eqn:Hid; [discriminate|].
  intros [= <-]. lia.
Qed.

(** Steps that name what they introduce. *)
Tactic Notation "wp_read" ident(n) ident(Hn) :=
  apply wp_bind, wp_rd;
  let i := fresh "i" in let Hp := fresh "Hp" in
  intros i n Hp Hn; try (injection Hp as <-).

Tactic Notation "wp_write" ident(n) ident(Hn) :=
  apply wp_bind, wp_wr;
  let i := fresh "i" in let Hp := fresh "Hp" in
  intros i n Hp Hn; try (injection Hp as <-).

Lemma StrategyAccessBuffer_records NBuffers id del now s :
  wp (StrategyAccessBuffer NBuffers id del now)
     (fun _ s' => 0 ≤ id ∧
        ∃ n n', elruStack s !! Z.to_nat id = Some n ∧
                elruStack s' !! Z.to_nat id = Some n' ∧
                last_accessed n' = now ∧
                second_last_accessed n' = last_accessed n)
     (fun _ _ => True) s.
Proof.
  unfold StrategyAccessBuffer.
  destruct (_ || _) eqn:Hrange; [exact Logic.I|].
  cbv beta iota zeta.
  wp_read n Hn. wp_write n1 Hn1. wp_write n2 Hn2.
  assert (n1 = n) as -> by congruence.
  simpl in Hn2.
  rewrite list_lookup_insert_eq in Hn2 by (eapply lookup_lt_Some; eassumption).
  injection Hn2 as <-.
  match goal with |- wp _ _ _ ?s2 => set (s2' := s2) end.
  assert (Hx : elruStack s2' !! Z.to_nat id =
               Some (set_second_last_accessed (last_accessed n) (set_last_accessed now n))).
  { subst s2'. simpl. apply list_lookup_insert_eq. rewrite length_insert.
    eapply lookup_lt_Some; eassumption. }
  clearbody s2'.
  eapply (wp_preserves (same_stamps (stamps <$> elruStack s2'))).
  - preserves_auto ltac:(first [apply same_stamps_set_prev | apply same_stamps_set_next]);
      first [apply preserves_top_is_not | apply preserves_processStackBottomToTop
            | apply preserves_unlink_resident];
      first [apply same_stamps_set_prev | apply same_stamps_set_next | (intros; assumption)].
  - reflexivity.
  - intros _ s' Hs'. split; [lia|].
    destruct (same_stamps_lookup _ s2' s' _ _ eq_refl Hs' Hx) as (n' & Hn' & Hst).
    exists n, n'. repeat split; [assumption | assumption | |];
      unfold stamps in Hst; simpl in Hst; congruence.
  - auto.
Qed.

Lemma access_then_return {A} NBuffers now (d : BufferDesc) buf (x : A) s :
  buf_id d = buf →
  wp (StrategyAccessBuffer NBuffers (buf_id d) false now ;; ret x)
     (fun r s' => r = x ∧ recorded now buf s') (fun _ _ => True) s.
Proof.
  intros <-. apply wp_bind.
  eapply wp_mono; [apply StrategyAccessBuffer_records | | auto].
  intros _ s' (Hid & n & n' & _ & Hn' & Hlast & _). apply wp_ret.
  split; [reflexivity|]. split; [exact Hid|]. eauto.
Qed.

Lemma freelist_loop_records NBuffers NOT_IN_LIST now fuel : ∀ s,
  descriptors_indexed s →
  wp (freelist_loop NBuffers NOT_IN_LIST fuel now)
     (fun r s' => ∀ buf bs, r = Some (buf, bs) → recorded now buf s')
     (fun _ _ => True) s.
Proof.
  induction fuel as [|fuel IH]; intros s Hs; simpl; [exact Logic.I|].
  apply wp_bind, wp_ctl.
  destruct (_ <? 0); [apply wp_ret; discriminate|].
  apply wp_bind, wp_rd_desc. intros i d Hi Hd.
  apply wp_bind, wp_set_ctl.
  apply wp_bind, wp_wr_desc. intros i1 d1 Hi1 Hd1.
  apply wp_bind, wp_rd_desc. intros i2 d2 Hi2 Hd2.
  assert (i1 = i) as -> by congruence. assert (i2 = i) as -> by congruence.
  simpl in Hd1. assert (d1 = d) as -> by congruence.
  simpl in Hd2.
  rewrite list_lookup_insert_eq in Hd2 by (eapply lookup_lt_Some; eassumption).
  injection Hd2 as <-.
  destruct (_ && _).
  - eapply wp_mono; [apply (access_then_return _ _ _ (firstFreeBuffer (StrategyControl s))) | | auto].
    + simpl. rewrite (Hs i d Hd). symmetry. apply desc_index_Some. exact Hi.
    + intros r s' [-> Hrec] buf bs [= <- <-]. exact Hrec.
  - apply IH. apply descriptors_indexed_set_freeNext; assumption.
Qed.

Lemma victim_loop_records NBuffers now fuel : ∀ victim s,
  descriptors_indexed s →
  wp (victim_loop NBuffers fuel now victim)
     (fun r s' => ∀ buf bs fr, r = Returned buf bs fr → recorded now buf s')
     (fun _ _ => True) s.
Proof.
  induction fuel as [|fuel IH]; intros victim s Hs; simpl; [exact Logic.I|].
  destruct victim as [v|]; [|apply wp_ret; discriminate].
  wp_read n Hn.
  apply wp_bind, wp_rd_desc. intros i d Hi Hd.
  destruct (_ =? 0).
  - wp_write n1 Hn1. wp_write n2 Hn2.
    eapply wp_mono; [apply (access_then_return _ _ _ (node_id n)) | | auto].
    + rewrite (Hs i d Hd). symmetry. apply desc_index_Some. exact Hi.
    + intros r s' [-> Hrec] buf bs fr [= <- <- <-]. exact Hrec.
  - apply wp_bind, wp_ctl. wp_read nt Hnt.
    destruct (_ =? _); [exact Logic.I|].
    wp_read nv Hnv. apply IH. exact Hs.
Qed.

Lemma wp_conj {A} (m : M A) Q1 Q2 E1 E2 s :
  wp m Q1 E1 s → wp m Q2 E2 s →
  wp m (fun a s' => Q1 a s' ∧ Q2 a s') (fun e s' => E1 e s' ∧ E2 e s') s.
Proof. unfold wp. destruct (m s); auto. Qed.

Lemma ring_part_state (strategy : option BufferAccessStrategyData) s :
  wp (match strategy with
      | Some st => r <- GetBufferFromRing st ;; ret (fst r, Some (snd r))
      | None => ret (None, None)
      end)
     (fun _ s1 => s1 = s) (fun _ _ => True) s.
Proof.
  destruct strategy as [st|]; [|reflexivity].
  apply wp_bind.
  eapply wp_mono; [apply GetBufferFromRing_state | | auto].
  intros r s1 ->. reflexivity.
Qed.

Lemma StrategyGetBuffer_records NBuffers NOT_IN_LIST strategy now s :
  descriptors_indexed s →
  wp (StrategyGetBuffer NBuffers NOT_IN_LIST strategy now)
     (fun r s' => ∀ buf bs fr, fst r = Returned buf bs fr → recorded now buf s')
     (fun _ _ => True) s.
Proof.
  intros Hs. unfold StrategyGetBuffer. apply wp_bind.
  eapply wp_mono; [apply ring_part_state | | auto].
  intros [[[buf0 bs0]|] st'] s1 ->; cbn [fst snd].
  - apply wp_bind, wp_rd_desc. intros i d Hi Hd.
    eapply wp_mono; [apply (access_then_return _ _ d buf0) | | auto].
    + rewrite (Hs i d Hd). symmetry. apply desc_index_Some. exact Hi.
    + intros r s' [-> Hrec] buf bs fr [= <- <- <-]. exact Hrec.
  - apply wp_bind, wp_ctl. apply wp_bind.
    eapply (wp_preserves descriptors_indexed); [| exact Hs | | auto].
    { preserves_auto ltac:(intros; assumption). }
    intros _ s1 Hs1.
    apply wp_bind, wp_ctl. apply wp_bind, wp_set_ctl. apply wp_bind, wp_ctl.
    apply wp_bind.
    eapply (wp_mono _ (fun r s' => (∀ buf bs, r = Some (buf, bs) → recorded now buf s')
                                   ∧ descriptors_indexed s')).
    + destruct (_ >=? 0).
      * apply wp_bind, wp_gets.
        apply wp_conj; [apply freelist_loop_records; exact Hs1|].
        apply (preserves_freelist_loop (I := descriptors_indexed));
          try (intros; assumption).
        apply descriptors_indexed_set_freeNext.
      * apply wp_ret. split; [discriminate | exact Hs1].
    + intros [[buf1 bs1]|] s2 [Hrec Hs2].
      * apply wp_ret. intros buf bs fr [= <- <- <-]. eapply Hrec. reflexivity.
      * apply wp_bind, wp_ctl. apply wp_bind, wp_gets. apply wp_bind.
        eapply wp_mono; [apply victim_loop_records; exact Hs2 | | auto].
        intros r s3 Hr. apply wp_ret. exact Hr.
    + simpl. auto.
Qed.

Lemma descriptors_indexed_release NBuffers NOT_IN_LIST buf now :
  preserves descriptors_indexed (StrategyFreeBuffer NBuffers NOT_IN_LIST buf now).
Proof.
  apply preserves_StrategyFreeBuffer; try (intros; assumption).
  apply descriptors_indexed_set_freeNext.
Qed.

Lemma indexed_from_lookup l : ∀ k i d,
  indexed_from k l = true → l !! i = Some d → buf_id d = Z.of_nat (k + i).
Proof.
  induction l as [|d0 l IH]; intros k i d Hl Hi; [discriminate|].
  simpl in Hl. apply andb_prop in Hl as [Hd Hrest].
  destruct i as [|i]; simpl in Hi.
  - injection Hi as <-. rewrite Nat.add_0_r. lia.
  - rewrite (IH (S k) i d Hrest Hi). f_equal. lia.
Qed.

Lemma indexed_from_descriptors s :
  indexed_from 0 (BufferDescriptors s) = true → descriptors_indexed s.
Proof. intros H i d Hd. exact (indexed_from_lookup _ 0%nat i d H Hd). Qed.

(** C4 fails on the code.  Buffer 0, allocated at time 10, is released at
    time 30 and comes back from the free list at time 40.  The release has
    recorded an access (the removal branch of [StrategyAccessBuffer] is
    under [if (false)]) and the free-list path of [StrategyGetBuffer] does
    not erase the timestamps as the victim path does (the lines that did
    are commented out): the node comes back with
    [second_last_accessed = 30], in tier 1, with two accesses behind it and
    not one.  When the caller then touches it at time 50, as a separate
    call, it is in tier 1 as well, with [second_last_accessed = 40]. *)
Theorem released_buffer_comes_back_in_tier_one :
  elruStack Pool4.two !! 0%nat = Some (mkBufferNode 0 (Some 1%nat) None 10 TIMESTAMP_NIL) ∧
  match (StrategyFreeBuffer Pool4.N Pool4.NOT_IN_LIST 0 30 ;;
         StrategyGetBuffer Pool4.N Pool4.NOT_IN_LIST None 40) Pool4.two with
  | Ret (Returned buf _ from_ring, _) s' =>
    buf = 0 ∧ from_ring = false ∧
    elruStack s' !! 0%nat = Some (mkBufferNode 0 None (Some 1%nat) 40 30) ∧
    (tier <$> elruStack s' !! 0%nat) = Some 1
  | _ => False
  end ∧
  match round_trip Pool4.N Pool4.NOT_IN_LIST 0 30 40 50 Pool4.two with
  | Ret (Returned buf _ from_ring) s' =>
    buf = 0 ∧ from_ring = false ∧
    elruStack s' !! 0%nat = Some (mkBufferNode 0 None (Some 1%nat) 50 40) ∧
    (tier <$> elruStack s' !! 0%nat) = Some 1
  | _ => False
  end.
Proof. vm_compute. repeat split. Qed.

(** ** Linked segments *)

Lemma seg_ext ns ns' lo l hi :
  (∀ a, a ∈ l → ns' !! a = ns !! a) → seg ns lo l hi → seg ns' lo l hi.
Proof.
  revert lo. induction l as [|a r IH]; intros lo Hext Hseg; [exact Logic.I|].
  destruct Hseg as [(n & Hn & Hlinks) Hr]. split.
  - exists n. split; [|exact Hlinks]. rewrite Hext; [exact Hn | left].
  - apply IH; [|exact Hr]. intros b Hb. apply Hext. right. exact Hb.
Qed.

Lemma last_or_cons {A} (a : A) l d : last_or (a :: l) d = last_or l (Some a).
Proof.
  unfold last_or. destruct l as [|b l]; [reflexivity|].
  rewrite last_cons_cons. destruct (last (b :: l)) eqn:H; [reflexivity|].
  apply last_None in H. discriminate.
Qed.

Lemma last_or_snoc {A} l (a : A) d : last_or (l ++ [a]) d = Some a.
Proof. unfold last_or. rewrite last_snoc. reflexivity. Qed.

Lemma seg_app ns lo la lb hi :
  seg ns lo (la ++ lb) hi ↔
  seg ns lo la (head_or lb hi) ∧ seg ns (last_or la lo) lb hi.
Proof.
  revert lo. induction la as [|a r IH]; intros lo.
  - simpl. unfold last_or. simpl. tauto.
  - rewrite last_or_cons. simpl. rewrite IH.
    assert (Hhead : head_or (r ++ lb) hi = head_or r (head_or lb hi)).
    { destruct r; reflexivity. }
    rewrite Hhead. tauto.
Qed.

Lemma seg_lookup ns lo l hi a :
  seg ns lo l hi → a ∈ l → ∃ n, ns !! a = Some n ∧ node_id n = Z.of_nat a.
Proof.
  revert lo. induction l as [|b r IH]; intros lo Hseg Ha.
  - inversion Ha.
  - destruct Hseg as [(n & Hn & Hid & _) Hr].
    apply elem_of_cons in Ha as [->|Ha]; [eauto | eauto].
Qed.

(** The walk from the bottom of a well-formed list visits it in order. *)
Lemma walk_up_seg ns lo l : ∀ fuel,
  seg ns lo l None → (length l ≤ fuel)%nat → walk_up fuel ns (head l) = l.
Proof.
  revert lo. induction l as [|a r IH]; intros lo fuel Hseg Hlen.
  - destruct fuel; reflexivity.
  - destruct fuel as [|fuel]; [simpl in Hlen; lia|].
    destruct Hseg as [(n & Hn & _ & _ & Hprev) Hr].
    simpl. rewrite Hn, Hprev. f_equal.
    replace (head_or r None) with (head r) by (destruct r; reflexivity).
    eapply IH; [exact Hr | simpl in Hlen; lia].
Qed.

Lemma NoDup_length_le ns lo (l : list nat) hi :
  seg ns lo l hi → NoDup l → (length l ≤ length ns)%nat.
Proof.
  intros Hseg Hnd.
  assert (Hsub : l ⊆ seq 0 (length ns)).
  { intros a Ha. destruct (seg_lookup _ _ _ _ _ Hseg Ha) as (n & Hn & _).
    apply elem_of_seq. apply lookup_lt_Some in Hn. lia. }
  rewrite <- (length_seq (length ns) 0%nat).
  apply submseteq_length, NoDup_submseteq; assumption.
Qed.

Lemma stack_from_elru_list s lo l : stack_from s lo l → elru_list s = l.
Proof.
  intros (Hseg & Hnd & Hbot & _). unfold elru_list. rewrite Hbot.
  eapply walk_up_seg; [exact Hseg|]. eapply NoDup_length_le; eassumption.
Qed.

(** ** The three ways a node enters the list *)

(** Above the top node [c]. *)
Lemma seg_push_top ns ns' la c x nx' nc :
  seg ns None (la ++ [c]) None → NoDup (la ++ [c]) → x ∉ la ++ [c] →
  ns !! c = Some nc →
  ns' !! x = Some nx' → node_id nx' = Z.of_nat x →
  next nx' = Some c → prev nx' = None →
  ns' !! c = Some (set_prev (Some x) nc) →
  (∀ a, a ≠ x → a ≠ c → ns' !! a = ns !! a) →
  seg ns' None (la ++ [c; x]) None.
Proof.
  intros Hseg Hnd Hx Hc Hx' Hid Hnext Hprev Hc' Hother.
  apply seg_app in Hseg as [Hla [(n & Hn & Hidc & Hnextc & _) _]].
  assert (n = nc) as -> by congruence.
  apply NoDup_app in Hnd as (_ & Hdisj & _).
  apply not_elem_of_app in Hx as [Hxla Hxc].
  apply seg_app. split.
  - eapply seg_ext; [|exact Hla]. intros a Ha. apply Hother.
    + intros ->. contradiction.
    + intros ->. apply (Hdisj c Ha). left.
  - simpl. repeat split.
    + exists (set_prev (Some x) nc). repeat split; assumption.
    + exists nx'. repeat split; assumption.
Qed.

(** Below the bottom node [c]; the link of [x] towards the bottom is
    whatever it is. *)
Lemma seg_push_bottom ns ns' c l2 x nx' nc lo :
  seg ns None (c :: l2) None → NoDup (c :: l2) → x ∉ c :: l2 →
  ns !! c = Some nc →
  ns' !! x = Some nx' → node_id nx' = Z.of_nat x →
  next nx' = lo → prev nx' = Some c →
  ns' !! c = Some (set_next (Some x) nc) →
  (∀ a, a ≠ x → a ≠ c → ns' !! a = ns !! a) →
  seg ns' lo (x :: c :: l2) None.
Proof.
  intros Hseg Hnd Hx Hc Hx' Hid Hnext Hprev Hc' Hother.
  destruct Hseg as [(n & Hn & Hidc & _ & Hprevc) Hl2].
  assert (n = nc) as -> by congruence.
  apply NoDup_cons in Hnd as [Hcl2 _].
  apply not_elem_of_cons in Hx as [Hxc Hxl2].
  simpl. repeat split.
  - exists nx'. repeat split; assumption.
  - exists (set_next (Some x) nc). repeat split; assumption.
  - eapply seg_ext; [|exact Hl2]. intros a Ha. apply Hother.
    + intros ->. contradiction.
    + intros ->. contradiction.
Qed.

(** Between [c] and the node [b] below it. *)
Lemma seg_push_middle ns ns' la b c l2 x nx' nb nc :
  seg ns None (la ++ b :: c :: l2) None → NoDup (la ++ b :: c :: l2) →
  x ∉ la ++ b :: c :: l2 →
  ns !! b = Some nb → ns !! c = Some nc →
  ns' !! x = Some nx' → node_id nx' = Z.of_nat x →
  next nx' = Some b → prev nx' = Some c →
  ns' !! b = Some (set_prev (Some x) nb) →
  ns' !! c = Some (set_next (Some x) nc) →
  (∀ a, a ≠ x → a ≠ b → a ≠ c → ns' !! a = ns !! a) →
  seg ns' None (la ++ b :: x :: c :: l2) None.
Proof.
  intros Hseg Hnd Hx Hb Hc Hx' Hid Hnext Hprev Hb' Hc' Hother.
  apply seg_app in Hseg as [Hla [(n1 & Hn1 & Hidb & Hnextb & _)
                                 [(n2 & Hn2 & Hidc & _ & Hprevc) Hl2]]].
  assert (n1 = nb) as -> by congruence. assert (n2 = nc) as -> by congruence.
  apply NoDup_app in Hnd as (_ & Hdisj & Hnd).
  apply NoDup_cons in Hnd as [Hbr Hnd]. apply NoDup_cons in Hnd as [Hcl2 _].
  apply not_elem_of_cons in Hbr as [Hbc Hbl2].
  apply not_elem_of_app in Hx as [Hxla Hx].
  apply not_elem_of_cons in Hx as [Hxb Hx]. apply not_elem_of_cons in Hx as [Hxc Hxl2].
  apply seg_app. split.
  - eapply seg_ext; [|exact Hla]. intros a Ha. apply Hother.
    + intros ->. contradiction.
    + intros ->. apply (Hdisj b Ha). left.
    + intros ->. apply (Hdisj c Ha). right. left.
  - simpl. repeat split.
    + exists (set_prev (Some x) nb). repeat split; assumption.
    + exists nx'. repeat split; assumption.
    + exists (set_next (Some x) nc). repeat split; assumption.
    + eapply seg_ext; [|exact Hl2]. intros a Ha. apply Hother.
      * intros ->. contradiction.
      * intros ->. contradiction.
      * intros ->. contradiction.
Qed.

(** ** [twp] of the primitive operations *)

Lemma twp_ret {A} (a : A) (Q : A -> State -> Prop) s : Q a s → twp (ret a) Q s.
Proof. exact (fun H => H). Qed.

Lemma twp_ctl {A} (f : BufferStrategyControl -> A) (Q : A -> State -> Prop) s :
  Q (f (StrategyControl s)) s → twp (ctl f) Q s.
Proof. exact (fun H => H). Qed.

Lemma twp_gets {A} (f : State -> A) (Q : A -> State -> Prop) s :
  Q (f s) s → twp (gets f) Q s.
Proof. exact (fun H => H). Qed.

Lemma twp_set_ctl upd (Q : unit -> State -> Prop) s :
  Q tt (with_control upd s) → twp (set_ctl upd) Q s.
Proof. exact (fun H => H). Qed.

Lemma twp_compare_at a b na nb (Q : Z -> State -> Prop) s :
  elruStack s !! a = Some na → elruStack s !! b = Some nb →
  Q (compareELRU na nb) s → twp (compare_at (Some a) (Some b)) Q s.
Proof.
  intros Ha Hb HQ. unfold compare_at.
  apply twp_bind. eapply twp_rd; [exact Ha|].
  apply twp_bind. eapply twp_rd; [exact Hb|].
  apply twp_ret. exact HQ.
Qed.

(** Lookups in an array after writes at known places. *)
Ltac lk :=
  cbn [elruStack with_elruStack with_control StrategyControl];
  repeat first
    [ rewrite list_lookup_insert_ne by congruence
    | rewrite list_lookup_insert_eq
        by (rewrite ?length_insert; eapply lookup_lt_Some; eassumption) ].

Ltac twp_rd_step :=
  apply twp_bind; eapply twp_rd; [lk; first [eassumption | reflexivity] |]; cbn beta.

Ltac twp_wr_step :=
  apply twp_bind; eapply twp_wr; [lk; first [eassumption | reflexivity] |]; cbn beta.

Lemma twp_link_below x b c nx nb nc (Q : unit -> State -> Prop) s :
  elruStack s !! x = Some nx → elruStack s !! b = Some nb →
  elruStack s !! c = Some nc → next nc = Some b →
  x ≠ b → x ≠ c → b ≠ c →
  Q tt (with_elruStack
          (fun l => <[x:=set_prev (Some c) (set_next (Some b) nx)]>
                      (<[c:=set_next (Some x) nc]>
                         (<[x:=set_next (Some b) nx]>
                            (<[b:=set_prev (Some x) nb]> l)))) s) →
  twp (link_below (Some x) (Some c)) Q s.
Proof.
  intros Hx Hb Hc Hnext Hxb Hxc Hbc HQ. unfold link_below.
  twp_rd_step. rewrite Hnext.
  twp_wr_step.
  twp_rd_step. rewrite Hnext.
  twp_wr_step.
  twp_wr_step.
  eapply twp_wr; [lk; reflexivity|].
  exact HQ.
Qed.

Lemma NoDup_insert_middle (l1 l2 : list nat) x :
  NoDup (l1 ++ l2) → x ∉ l1 ++ l2 → NoDup (l1 ++ x :: l2).
Proof.
  intros Hnd Hx. apply NoDup_app in Hnd as (H1 & Hdisj & H2).
  apply not_elem_of_app in Hx as [Hx1 Hx2].
  apply NoDup_app. repeat split; [exact H1 | | apply NoDup_cons; auto].
  intros a Ha Hin. apply elem_of_cons in Hin as [->|Hin]; [contradiction|].
  exact (Hdisj a Ha Hin).
Qed.

Lemma stamps_insert (ns : list BufferNode) (i : nat) n n' :
  ns !! i = Some n → stamps n' = stamps n → stamps <$> <[i:=n']> ns = stamps <$> ns.
Proof.
  intros Hn Hst. rewrite list_fmap_insert. apply list_insert_id.
  rewrite list_lookup_fmap, Hn. simpl. congruence.
Qed.

(** Writes that keep the stamps of the nodes they replace. *)
Ltac stamps_tac :=
  unfold same_stamps; cbn [elruStack with_elruStack with_control];
  repeat (erewrite stamps_insert;
          [| lk; first [eassumption | reflexivity] | reflexivity]);
  reflexivity.

Ltac others_tac :=
  try eassumption; try (lk; reflexivity);
  try (intros ? ? ?; lk; reflexivity); try (intros ? ? ? ?; lk; reflexivity).

Lemma last_app_cons_cons (l : list nat) x c r :
  last (l ++ x :: c :: r) = last (c :: r).
Proof.
  rewrite last_app. rewrite last_cons_cons.
  destruct (last (c :: r)) eqn:H; [reflexivity|].
  apply last_None in H. discriminate.
Qed.

Lemma head_app_cons (l r1 r2 : list nat) :
  l ≠ [] → head (l ++ r1) = head (l ++ r2).
Proof. destruct l; [congruence | reflexivity]. Qed.

(** Lookups outside the nodes that an insertion writes to. *)
Ltac outside_tac :=
  let a := fresh "a" in let Ha := fresh "Ha" in let Hax := fresh "Hax" in
  intros a Ha Hax;
  rewrite ?elem_of_app, ?elem_of_cons in Ha;
  cbn [elruStack with_elruStack with_control StrategyControl];
  rewrite ?list_lookup_insert_ne
    by first [congruence | (intros ->; apply Ha; auto 10)];
  reflexivity.

Lemma processStack_loop_places : ∀ l2 la c fuel s x nx,
  seg (elruStack s) None (la ++ c :: l2) None →
  NoDup (la ++ c :: l2) → x ∉ la ++ c :: l2 →
  stackBottom (StrategyControl s) = head (la ++ c :: l2) →
  stackTop (StrategyControl s) = last (c :: l2) →
  elruStack s !! x = Some nx → node_id nx = Z.of_nat x →
  (length l2 < fuel)%nat →
  twp (processStack_loop fuel (Some x) (Some c))
      (fun _ s' => ∃ lb lc lo, c :: l2 = lb ++ lc ∧
                    stack_from s' lo (la ++ lb ++ x :: lc) ∧
                    (lo = None ∨ lo = next nx ∧ la = [] ∧ l2 = [] ∧ lb = []) ∧
                    placed_above (elruStack s) x lb ∧
                    stops_below (elruStack s) x lc ∧
                    same_stamps (stamps <$> elruStack s) s' ∧
                    BufferDescriptors s' = BufferDescriptors s ∧
                    (∀ a, a ∉ la ++ c :: l2 → a ≠ x →
                          elruStack s' !! a = elruStack s !! a)) s.
Proof.
  induction l2 as [|d l2 IH]; intros la c fuel s x nx Hseg Hnd Hx Hbot Htop Hnx Hid Hfuel.
  - destruct fuel as [|fuel]; [lia|]. simpl.
    pose proof Hseg as Hseg0.
    apply seg_app in Hseg as [Hla [(nc & Hnc & Hidc & Hnextc & Hprevc) _]].
    assert (Hxc : x ≠ c).
    { intros ->. apply Hx. apply elem_of_app. right. left. }
    twp_rd_step. apply twp_bind, twp_ctl. rewrite Htop. simpl.
    twp_rd_step. rewrite Hidc, Z.eqb_refl.
    apply twp_bind. eapply twp_compare_at; [exact Hnx | exact Hnc |].
    destruct (compareELRU nx nc >? 0) eqn:Hcmp.
    + twp_wr_step. twp_wr_step. twp_wr_step. apply twp_set_ctl.
      exists [c], [], None. split; [reflexivity|]. split; [|split; [left; reflexivity|split; [|split; [|split]]]].
      * split; [|split; [|split]].
        -- cbn [elruStack with_elruStack with_control].
           eapply (seg_push_top _ _ la c x (set_prev None (set_next (Some c) nx)) nc);
             others_tac.
        -- rewrite app_assoc. apply NoDup_insert_middle; rewrite app_nil_r; assumption.
        -- cbn. rewrite Hbot. destruct la; reflexivity.
        -- cbn. rewrite last_app. reflexivity.
      * intros a na nx0 Ha Hna Hnx0. apply list_elem_of_singleton in Ha as ->.
        assert (na = nc) as -> by congruence. assert (nx0 = nx) as -> by congruence.
        lia.
      * intros d nd nx0 Hd. discriminate.
      * stamps_tac.
      * split; [reflexivity | outside_tac].
    + twp_rd_step. rewrite Hnextc.
      assert (Hle : compareELRU nx nc <= 0) by lia.
      destruct la as [|b la _] using rev_ind.
      * cbn [last_or last].
        twp_wr_step. twp_wr_step. apply twp_set_ctl.
        exists [], [c], (next nx). split; [reflexivity|]. split; [|split; [right; auto|split; [|split; [|split]]]].
        -- split; [|split; [|split]].
           ++ cbn [elruStack with_elruStack with_control].
              eapply (seg_push_bottom _ _ c [] x (set_prev (Some c) nx) nc); others_tac.
           ++ apply NoDup_cons. split; assumption.
           ++ reflexivity.
           ++ cbn. rewrite Htop. reflexivity.
        -- intros a na nx0 Ha. inversion Ha.
        -- intros d nd nx0 [= <-] Hnd0 Hnx0.
           assert (nd = nc) as -> by congruence. assert (nx0 = nx) as -> by congruence.
           exact Hle.
        -- stamps_tac.
        -- split; [reflexivity | outside_tac].
      * rewrite last_or_snoc.
        assert (Hb : ∃ nb, elruStack s !! b = Some nb).
        { destruct (seg_lookup _ _ _ _ b Hseg0) as (nb & Hnb & _); [|eauto].
          apply elem_of_app. left. apply elem_of_app. right. left. }
        destruct Hb as [nb Hnb].
        assert (Hxb : x ≠ b).
        { intros ->. apply Hx. apply elem_of_app. left. apply elem_of_app. right. left. }
        assert (Hbc : b ≠ c).
        { intros ->. apply NoDup_app in Hnd as (_ & Hdisj & _).
          apply (Hdisj c); [apply elem_of_app; right; left | left]. }
        eapply twp_link_below; try eassumption.
        { rewrite Hnextc. apply last_or_snoc. }
        exists [], [c], None. split; [reflexivity|]. split; [|split; [left; reflexivity|split; [|split; [|split]]]].
        -- split; [|split; [|split]].
           ++ cbn [elruStack with_elruStack with_control app].
              rewrite <- app_assoc. cbn [app].
              rewrite <- app_assoc in Hseg0, Hnd, Hx. cbn [app] in Hseg0, Hnd, Hx.
              eapply (seg_push_middle _ _ la b c [] x
                        (set_prev (Some c) (set_next (Some b) nx)) nb nc); others_tac.
           ++ cbn [app]. apply NoDup_insert_middle; assumption.
           ++ cbn. rewrite Hbot. apply head_app_cons. destruct la; discriminate.
           ++ cbn. rewrite Htop. symmetry. apply last_app_cons_cons.
        -- intros a na nx0 Ha. inversion Ha.
        -- intros d nd nx0 [= <-] Hnd0 Hnx0.
           assert (nd = nc) as -> by congruence. assert (nx0 = nx) as -> by congruence.
           exact Hle.
        -- stamps_tac.
        -- split; [reflexivity | outside_tac].
  - destruct fuel as [|fuel]; [simpl in Hfuel; lia|]. simpl.
    pose proof Hseg as Hseg0.
    apply seg_app in Hseg as [Hla [(nc & Hnc & Hidc & Hnextc & Hprevc) Hrest]].
    assert (Hxc : x ≠ c).
    { intros ->. apply Hx. apply elem_of_app. right. left. }
    destruct (last (d :: l2)) as [t|] eqn:Ht; [|apply last_None in Ht; discriminate].
    assert (Htin : t ∈ d :: l2) by (apply last_Some_elem_of; exact Ht).
    assert (Hct : c ≠ t).
    { intros ->. apply NoDup_app in Hnd as (_ & _ & Hnd).
      apply NoDup_cons in Hnd as [Hnot _]. contradiction. }
    destruct (seg_lookup _ _ _ _ t Hrest Htin) as (nt & Hnt & Hidt).
    twp_rd_step. apply twp_bind, twp_ctl. rewrite Htop, last_cons_cons, Ht.
    twp_rd_step. rewrite Hidc, Hidt.
    destruct (Z.of_nat c =? Z.of_nat t) eqn:Heq; [lia|].
    apply twp_bind. eapply twp_compare_at; [exact Hnx | exact Hnc |].
    destruct (compareELRU nx nc <=? 0) eqn:Hcmp.
    + twp_rd_step. rewrite Hnextc.
      assert (Hle : compareELRU nx nc <= 0) by lia.
      destruct la as [|b la _] using rev_ind.
      * cbn [last_or last].
        apply twp_bind, twp_set_ctl.
        twp_wr_step. twp_wr_step.
        eapply twp_wr; [lk; eassumption|].
        exists [], (c :: d :: l2), None. split; [reflexivity|]. split; [|split; [left; reflexivity|split; [|split; [|split]]]].
        -- split; [|split; [|split]].
           ++ cbn [elruStack with_elruStack with_control].
              eapply (seg_push_bottom _ _ c (d :: l2) x
                        (set_next None (set_prev (Some c) nx)) nc); others_tac.
           ++ apply NoDup_cons. split; assumption.
           ++ reflexivity.
           ++ cbn [StrategyControl with_elruStack with_control stackTop set_stackBottom app].
              rewrite Htop. symmetry. apply (last_cons_cons x c (d :: l2)).
        -- intros a na nx0 Ha. inversion Ha.
        -- intros e ne nx0 [= <-] Hne Hnx0.
           assert (ne = nc) as -> by congruence. assert (nx0 = nx) as -> by congruence.
           exact Hle.
        -- stamps_tac.
        -- split; [reflexivity | outside_tac].
      * rewrite last_or_snoc.
        assert (Hb : ∃ nb, elruStack s !! b = Some nb).
        { destruct (seg_lookup _ _ _ _ b Hseg0) as (nb & Hnb & _); [|eauto].
          apply elem_of_app. left. apply elem_of_app. right. left. }
        destruct Hb as [nb Hnb].
        assert (Hxb : x ≠ b).
        { intros ->. apply Hx. apply elem_of_app. left. apply elem_of_app. right. left. }
        assert (Hbc : b ≠ c).
        { intros ->. apply NoDup_app in Hnd as (_ & Hdisj & _).
          apply (Hdisj c); [apply elem_of_app; right; left | left]. }
        eapply twp_link_below; try eassumption.
        { rewrite Hnextc. apply last_or_snoc. }
        exists [], (c :: d :: l2), None. split; [reflexivity|]. split; [|split; [left; reflexivity|split; [|split; [|split]]]].
        -- split; [|split; [|split]].
           ++ cbn [elruStack with_elruStack with_control app].
              rewrite <- app_assoc. cbn [app].
              rewrite <- app_assoc in Hseg0, Hnd, Hx. cbn [app] in Hseg0, Hnd, Hx.
              eapply (seg_push_middle _ _ la b c (d :: l2) x
                        (set_prev (Some c) (set_next (Some b) nx)) nb nc); others_tac.
           ++ cbn [app]. apply NoDup_insert_middle; assumption.
           ++ cbn. rewrite Hbot. apply head_app_cons. destruct la; discriminate.
           ++ cbn [StrategyControl with_elruStack with_control stackTop app].
              rewrite Htop. symmetry. apply last_app_cons_cons.
        -- intros a na nx0 Ha. inversion Ha.
        -- intros e ne nx0 [= <-] Hne Hnx0.
           assert (ne = nc) as -> by congruence. assert (nx0 = nx) as -> by congruence.
           exact Hle.
        -- stamps_tac.
        -- split; [reflexivity | outside_tac].
    + twp_rd_step. rewrite Hprevc. cbn [head_or].
      assert (Hgt : compareELRU nx nc > 0) by lia.
      eapply twp_mono.
      * apply (IH (la ++ [c]) d fuel s x nx); try assumption.
        -- rewrite <- app_assoc. exact Hseg0.
        -- rewrite <- app_assoc. exact Hnd.
        -- rewrite <- app_assoc. exact Hx.
        -- rewrite <- app_assoc. exact Hbot.
        -- simpl in Hfuel. lia.
      * intros _ s' (lb & lc & lo & Hsplit & Hwf & Hlo & Habove & Hbelow & Hst & Hdesc & Hout).
        assert (lo = None) as ->.
        { destruct Hlo as [->|(_ & Hla' & _)]; [reflexivity|].
          destruct la; discriminate. }
        exists (c :: lb), lc, None. split; [simpl; congruence|].
        split; [|split; [left; reflexivity|split; [|split; [|split; [|split]]]]];
          try assumption.
        3: { intros a Ha Hax. apply Hout; [|exact Hax]. rewrite <- app_assoc. exact Ha. }
        -- rewrite <- app_assoc in Hwf. exact Hwf.
        -- intros a na nx0 Ha Hna Hnx0. apply elem_of_cons in Ha as [->|Ha].
           ++ assert (na = nc) as -> by congruence.
              assert (nx0 = nx) as -> by congruence. exact Hgt.
           ++ eapply Habove; eassumption.
Qed.

Lemma processStackBottomToTop_places s l x nx :
  stack_wf s l → x ∉ l →
  elruStack s !! x = Some nx → node_id nx = Z.of_nat x →
  twp (processStackBottomToTop (Some x))
      (fun _ s' => ∃ l1 l2 lo, l = l1 ++ l2 ∧
                    stack_from s' lo (l1 ++ x :: l2) ∧
                    (lo = None ∨ lo = next nx ∧ length l = 1%nat ∧ l1 = []) ∧
                    placed_above (elruStack s) x l1 ∧
                    stops_below (elruStack s) x l2 ∧
                    same_stamps (stamps <$> elruStack s) s' ∧
                    BufferDescriptors s' = BufferDescriptors s ∧
                    (∀ a, a ∉ l → a ≠ x → elruStack s' !! a = elruStack s !! a)) s.
Proof.
  intros (Hseg & Hnd & Hbot & Htop) Hx Hnx Hid.
  unfold processStackBottomToTop. apply twp_bind, twp_ctl. rewrite Hbot.
  destruct l as [|c l2]; cbn [head].
  - apply twp_bind, twp_set_ctl. apply twp_bind, twp_set_ctl.
    twp_wr_step. eapply twp_wr; [lk; reflexivity|].
    exists [], [], None. split; [reflexivity|]. split; [|split; [left; reflexivity|split; [|split; [|split]]]].
    + split; [|split; [|split]].
      * cbn. split; [|exact Logic.I].
        exists (set_prev None (set_next None nx)). split; [lk; reflexivity|].
        repeat split. exact Hid.
      * apply NoDup_singleton.
      * reflexivity.
      * reflexivity.
    + intros a na nx0 Ha. inversion Ha.
    + intros d nd nx0 Hd. discriminate.
    + stamps_tac.
    + split; [reflexivity|]. intros a _ Hax. lk. reflexivity.
  - apply twp_bind, twp_gets.
    eapply twp_mono.
    + apply (processStack_loop_places l2 [] c _ s x nx); try assumption.
      pose proof (NoDup_length_le _ _ _ _ Hseg Hnd) as Hlen. simpl in Hlen. lia.
    + intros _ s' (lb & lc & lo & Hsplit & Hwf & Hlo & Hrest).
      exists lb, lc, lo. split; [exact Hsplit|]. split; [exact Hwf|].
      split; [|exact Hrest].
      destruct Hlo as [->|(-> & _ & -> & ->)]; [left | right]; auto.
Qed.

Lemma compareELRU_stamps a a' b b' :
  stamps a = stamps a' → stamps b = stamps b' → compareELRU a b = compareELRU a' b'.
Proof.
  unfold stamps. intros [= _ Hl Hs] [= _ Hl' Hs'].
  unfold compareELRU, isRemovedNode. rewrite Hl, Hs, Hl', Hs'. reflexivity.
Qed.

Lemma elru_key_equal_compare a b :
  last_accessed a ≠ TIMESTAMP_NIL → elru_key a = elru_key b → compareELRU a b = 0.
Proof.
  unfold elru_key, tier, rank, compareELRU, isRemovedNode, TIMESTAMP_NIL.
  intros Ha [= Htier Hrank].
  destruct (last_accessed a =? -1) eqn:Hla; [lia|]. simpl.
  destruct (second_last_accessed a =? -1) eqn:Hsa;
    destruct (second_last_accessed b =? -1) eqn:Hsb; try discriminate; simpl.
  - destruct (last_accessed b =? -1) eqn:Hlb; [lia|].
    rewrite Hrank, Z.sub_diag. reflexivity.
  - rewrite Bool.andb_false_r. rewrite Hrank, Z.sub_diag. reflexivity.
Qed.

(** ** The three ways a node leaves the list *)

Lemma seg_same_links ns ns' lo l hi :
  (∀ a n, a ∈ l → ns !! a = Some n →
          ∃ n', ns' !! a = Some n' ∧ node_id n' = node_id n ∧
                next n' = next n ∧ prev n' = prev n) →
  seg ns lo l hi → seg ns' lo l hi.
Proof.
  revert lo. induction l as [|a r IH]; intros lo Hsame Hseg; [exact Logic.I|].
  destruct Hseg as [(n & Hn & Hid & Hnext & Hprev) Hr]. split.
  - destruct (Hsame a n) as (n' & Hn' & Hid' & Hnext' & Hprev'); [left | exact Hn |].
    exists n'. repeat split; congruence.
  - apply IH; [|exact Hr]. intros b nb Hb. apply Hsame. right. exact Hb.
Qed.

(** The bottom node [x] leaves. *)
Lemma seg_pop_bottom ns ns' lo x c r nc :
  seg ns lo (x :: c :: r) None → NoDup (x :: c :: r) →
  ns !! c = Some nc → ns' !! c = Some (set_next None nc) →
  (∀ a, a ≠ c → ns' !! a = ns !! a) →
  seg ns' None (c :: r) None.
Proof.
  intros [_ [(n & Hn & Hid & _ & Hprev) Hr]] Hnd Hc Hc' Hother.
  assert (n = nc) as -> by congruence.
  apply NoDup_cons in Hnd as [_ Hnd]. apply NoDup_cons in Hnd as [Hcr _].
  split.
  - exists (set_next None nc). repeat split; assumption.
  - eapply seg_ext; [|exact Hr]. intros a Ha. apply Hother. intros ->. contradiction.
Qed.

(** The top node [x] leaves. *)
Lemma seg_pop_top ns ns' la b x nb :
  seg ns None (la ++ [b; x]) None → NoDup (la ++ [b; x]) →
  ns !! b = Some nb → ns' !! b = Some (set_prev None nb) →
  (∀ a, a ≠ b → ns' !! a = ns !! a) →
  seg ns' None (la ++ [b]) None.
Proof.
  intros Hseg Hnd Hb Hb' Hother.
  apply seg_app in Hseg as [Hla [(n & Hn & Hid & Hnext & _) _]].
  assert (n = nb) as -> by congruence.
  apply NoDup_app in Hnd as (_ & Hdisj & _).
  apply seg_app. split.
  - eapply seg_ext; [|exact Hla]. intros a Ha. apply Hother.
    intros ->. apply (Hdisj b Ha). left.
  - split; [|exact Logic.I].
    exists (set_prev None nb). repeat split; assumption.
Qed.

(** A node [x] between [b] and [c] leaves. *)
Lemma seg_pop_middle ns ns' la b x c r nb nc :
  seg ns None (la ++ b :: x :: c :: r) None → NoDup (la ++ b :: x :: c :: r) →
  ns !! b = Some nb → ns !! c = Some nc →
  ns' !! b = Some (set_prev (Some c) nb) →
  ns' !! c = Some (set_next (Some b) nc) →
  (∀ a, a ≠ b → a ≠ c → ns' !! a = ns !! a) →
  seg ns' None (la ++ b :: c :: r) None.
Proof.
  intros Hseg Hnd Hb Hc Hb' Hc' Hother.
  apply seg_app in Hseg as [Hla [(n1 & Hn1 & Hidb & Hnextb & _)
                                 [_ [(n2 & Hn2 & Hidc & _ & Hprevc) Hr]]]].
  assert (n1 = nb) as -> by congruence. assert (n2 = nc) as -> by congruence.
  apply NoDup_app in Hnd as (_ & Hdisj & Hnd).
  apply NoDup_cons in Hnd as [Hb_rest Hnd]. apply NoDup_cons in Hnd as [_ Hnd].
  apply NoDup_cons in Hnd as [Hcr _].
  apply seg_app. split.
  - eapply seg_ext; [|exact Hla]. intros a Ha. apply Hother.
    + intros ->. apply (Hdisj b Ha). left.
    + intros ->. apply (Hdisj c Ha). right. right. left.
  - simpl. repeat split.
    + exists (set_prev (Some c) nb). repeat split; assumption.
    + exists (set_next (Some b) nc). repeat split; assumption.
    + eapply seg_ext; [|exact Hr]. intros a Ha. apply Hother.
      * intros ->. apply Hb_rest. right. right. exact Ha.
      * intros ->. contradiction.
Qed.

Lemma twp_walk_to_top ns : ∀ l lo fuel (Q : unit -> State -> Prop) s,
  elruStack s = ns → seg ns lo l None → (length l < fuel)%nat →
  Q tt s → twp (walk_to_top fuel (head l)) Q s.
Proof.
  induction l as [|a r IH]; intros lo fuel Q s Hs Hseg Hlen HQ.
  - destruct fuel; [simpl in Hlen; lia|]. exact HQ.
  - destruct fuel as [|fuel]; [simpl in Hlen; lia|].
    destruct Hseg as [(n & Hn & _ & _ & Hprev) Hr]. simpl.
    apply twp_bind. eapply twp_rd; [rewrite Hs; exact Hn|]. rewrite Hprev.
    replace (head_or r None) with (head r) by (destruct r; reflexivity).
    eapply IH; [exact Hs | exact Hr | simpl in Hlen; lia | exact HQ].
Qed.

Lemma head_app_nonempty (l r : list nat) : l ≠ [] → head (l ++ r) = head l.
Proof. destruct l; [congruence | reflexivity]. Qed.

Lemma unlink_resident_spec s lo la x lc nx :
  stack_from s lo (la ++ x :: lc) → lo = None ∨ la = [] → la ++ lc ≠ [] →
  elruStack s !! x = Some nx →
  twp (unlink_resident (Z.of_nat x) (Some x))
      (fun _ s' => stack_wf s' (la ++ lc) ∧
                   elruStack s' !! x = Some nx ∧
                   same_stamps (stamps <$> elruStack s) s' ∧
                   BufferDescriptors s' = BufferDescriptors s ∧
                   (∀ a, a ∉ la ++ x :: lc → a ≠ x →
                         elruStack s' !! a = elruStack s !! a)) s.
Proof.
  intros (Hseg & Hnd & Hbot & Htop) Hlo Hne Hnx.
  assert (Hlo' : la ≠ [] → lo = None).
  { intros Hla0. destruct Hlo as [->|Hla1]; [reflexivity | contradiction]. }
  clear Hlo.
  destruct la as [|b la _] using rev_ind;
    [|assert (lo = None) as -> by (apply Hlo'; destruct la; discriminate); clear Hlo'].
  all: pose proof Hseg as Hseg0;
    apply seg_app in Hseg as [Hla [(n & Hn & Hidx & Hnextx & Hprevx) Hlc]];
    assert (n = nx) as -> by congruence;
    pose proof (NoDup_length_le _ _ _ _ Hseg0 Hnd) as Hlen;
    unfold unlink_resident.
  - destruct lc as [|c r]; [exfalso; apply Hne; reflexivity|]. cbn [app] in *.
    destruct Hlc as [(nc & Hnc & Hidc & Hnextc & Hprevc) Hr].
    assert (Hxc : x ≠ c).
    { intros ->. apply NoDup_cons in Hnd as [Hnot _]. apply Hnot. left. }
    apply twp_bind, twp_ctl. rewrite Hbot. cbn [head].
    twp_rd_step. rewrite Hidx, Z.eqb_refl.
    twp_rd_step. rewrite Hprevx. cbn [head_or].
    apply twp_bind, twp_set_ctl.
    twp_rd_step. rewrite Hprevx. cbn [head_or].
    eapply twp_wr; [lk; eassumption|].
    split; [|split; [|split]].
    + split; [|split; [|split]].
      * cbn [elruStack with_elruStack with_control].
        eapply (seg_pop_bottom _ _ _ x c r nc); others_tac.
        intros a Hac. lk. reflexivity.
      * apply NoDup_cons in Hnd as [_ Hnd]. exact Hnd.
      * reflexivity.
      * cbn. rewrite Htop. apply last_cons_cons.
    + lk. exact Hnx.
    + stamps_tac.
    + split; [reflexivity | outside_tac].
  - clear Hne.
    assert (Hbin : b ∈ (la ++ [b]) ++ x :: lc).
    { apply elem_of_app. left. apply elem_of_app. right. left. }
    destruct (seg_lookup _ _ _ _ b Hseg0 Hbin) as (nb & Hnb & Hidb).
    assert (Hxb : x ≠ b).
    { intros ->. apply NoDup_app in Hnd as (_ & Hdisj & _).
      apply (Hdisj b); [apply elem_of_app; right; left | left]. }
    rewrite last_or_snoc in Hnextx.
    destruct (head ((la ++ [b]) ++ x :: lc)) as [a0|] eqn:Ha0;
      [|apply head_None in Ha0; destruct la; discriminate].
    assert (Ha0in : a0 ∈ la ++ [b]).
    { destruct la as [|a1 la]; simpl in Ha0; injection Ha0 as <-; [left | left]. }
    assert (Ha0x : a0 ≠ x).
    { intros ->. apply NoDup_app in Hnd as (_ & Hdisj & _).
      apply (Hdisj x Ha0in). left. }
    destruct (seg_lookup _ _ _ _ a0 Hseg0) as (na0 & Hna0 & Hida0).
    { apply elem_of_app. left. exact Ha0in. }
    apply twp_bind, twp_ctl. rewrite Hbot.
    twp_rd_step. rewrite Hida0.
    destruct (Z.of_nat a0 =? Z.of_nat x) eqn:Heq; [lia|]. clear Heq.
    apply twp_bind, twp_ctl. rewrite Htop.
    destruct lc as [|c r].
    + rewrite last_app. cbn [last].
      twp_rd_step. rewrite Hidx, Z.eqb_refl.
      twp_rd_step. rewrite Hnextx.
      apply twp_bind, twp_set_ctl.
      apply twp_bind, twp_ctl. cbn [StrategyControl with_control stackTop set_stackTop].
      eapply twp_wr; [lk; eassumption|].
      rewrite app_nil_r.
      split; [|split; [|split]].
      * split; [|split; [|split]].
        -- cbn [elruStack with_elruStack with_control].
           rewrite <- app_assoc in Hseg0, Hnd. cbn [app] in Hseg0, Hnd.
           eapply (seg_pop_top _ _ la b x nb); others_tac.
           intros a Hab. lk. reflexivity.
        -- apply NoDup_app in Hnd as (Hnd & _ & _). exact Hnd.
        -- cbn. rewrite Hbot, <- Ha0. apply head_app_nonempty.
           destruct la; discriminate.
        -- cbn. symmetry. apply last_snoc.
      * lk. exact Hnx.
      * stamps_tac.
      * split; [reflexivity | outside_tac].
    + destruct Hlc as [(nc & Hnc & Hidc & Hnextc & Hprevc) Hr].
      assert (Hxc : x ≠ c).
      { intros ->. apply NoDup_app in Hnd as (_ & _ & Hnd).
        apply NoDup_cons in Hnd as [Hnot _]. apply Hnot. left. }
      assert (Hbc : b ≠ c).
      { intros ->. apply NoDup_app in Hnd as (_ & Hdisj & _).
        apply (Hdisj c); [apply elem_of_app; right; left | right; left]. }
      rewrite last_app. rewrite (last_cons_cons x c r).
      destruct (last (c :: r)) as [t|] eqn:Ht; [|apply last_None in Ht; discriminate].
      assert (Htin : t ∈ c :: r) by (apply last_Some_elem_of; exact Ht).
      assert (Htx : t ≠ x).
      { intros ->. apply NoDup_app in Hnd as (_ & _ & Hnd).
        apply NoDup_cons in Hnd as [Hnot _]. contradiction. }
      destruct (seg_lookup _ _ _ _ t Hseg0) as (nt & Hnt & Hidt).
      { apply elem_of_app. right. right. exact Htin. }
      twp_rd_step. rewrite Hidt.
      destruct (Z.of_nat t =? Z.of_nat x) eqn:Heq; [lia|]. clear Heq.
      apply twp_bind, twp_gets. apply twp_bind.
      apply (twp_walk_to_top (elruStack s) (x :: c :: r) (Some b)); [reflexivity | | |].
      { split; [|split; [|exact Hr]].
        - exists nx. repeat split; assumption.
        - exists nc. repeat split; assumption. }
      { rewrite length_app in Hlen. simpl in Hlen. simpl. lia. }
      twp_rd_step. rewrite Hnextx.
      apply twp_bind. twp_rd_step. rewrite Hprevx. cbn [head_or].
      eapply twp_wr; [lk; eassumption|].
      twp_rd_step. rewrite Hprevx. cbn [head_or].
      twp_rd_step. rewrite Hnextx.
      eapply twp_wr; [lk; eassumption|].
      split; [|split; [|split]].
      * split; [|split; [|split]].
        -- cbn [elruStack with_elruStack with_control].
           rewrite <- app_assoc in Hseg0, Hnd |- *. cbn [app] in Hseg0, Hnd |- *.
           eapply (seg_pop_middle _ _ la b x c r nb nc); others_tac.
        -- rewrite <- app_assoc in Hnd |- *. cbn [app] in Hnd |- *.
           apply NoDup_app in Hnd as (Hla' & Hdisj & Hnd).
           apply NoDup_cons in Hnd as [Hb_rest Hnd]. apply NoDup_cons in Hnd as [_ Hnd].
           apply NoDup_app. repeat split; [exact Hla' | | ].
           ++ intros a Ha Hin. apply (Hdisj a Ha).
              apply elem_of_cons in Hin as [->|Hin]; [left | right; right; exact Hin].
           ++ apply NoDup_cons. split; [|exact Hnd].
              intros Hin. apply Hb_rest. right. exact Hin.
        -- cbn. rewrite Hbot, <- Ha0. apply head_app_cons. destruct la; discriminate.
        -- cbn [StrategyControl with_elruStack with_control stackTop].
           rewrite Htop, !last_app. rewrite (last_cons_cons x c r), Ht. reflexivity.
      * lk. exact Hnx.
      * stamps_tac.
      * split; [reflexivity | outside_tac].
Qed.

(** ** The place of an accessed node (C9) *)

Lemma twp_top_is_not s l lo x (Q : bool -> State -> Prop) :
  stack_from s lo l → x ∉ l → Q true s → twp (top_is_not (Z.of_nat x)) Q s.
Proof.
  intros (Hseg & _ & _ & Htop) Hx HQ. unfold top_is_not.
  apply twp_bind, twp_ctl. rewrite Htop.
  destruct (last l) as [t|] eqn:Ht; [|exact HQ].
  assert (Htin : t ∈ l) by (apply last_Some_elem_of; exact Ht).
  destruct (seg_lookup _ _ _ _ t Hseg Htin) as (nt & Hnt & Hidt).
  twp_rd_step. apply twp_ret. rewrite Hidt.
  destruct (Z.of_nat t =? Z.of_nat x) eqn:Heq; [|exact HQ].
  exfalso. apply Hx. assert (t = x) as <- by lia. exact Htin.
Qed.

Lemma same_stamps_at L s s' (a : nat) :
  same_stamps L s → same_stamps L s' →
  stamps <$> elruStack s' !! a = stamps <$> elruStack s !! a.
Proof.
  unfold same_stamps. intros <- Heq.
  rewrite <- !list_lookup_fmap, Heq. reflexivity.
Qed.

(** What the scan has established, read in the state it leaves. *)
Lemma placed_in_final_state ns s' x nx l1 l2 :
  same_stamps (stamps <$> ns) s' → ns !! x = Some nx →
  placed_above ns x l1 → stops_below ns x l2 →
  ∃ nx', elruStack s' !! x = Some nx' ∧ stamps nx' = stamps nx ∧
         placed_above (elruStack s') x l1 ∧ stops_below (elruStack s') x l2.
Proof.
  intros Hst Hnx Habove Hbelow.
  assert (Hat : ∀ a n', elruStack s' !! a = Some n' →
                        ∃ n, ns !! a = Some n ∧ stamps n' = stamps n).
  { intros a n' Hn'. unfold same_stamps in Hst.
    assert (H : (stamps <$> elruStack s') !! a = (stamps <$> ns) !! a)
      by (rewrite Hst; reflexivity).
    rewrite !list_lookup_fmap, Hn' in H. simpl in H.
    destruct (ns !! a) as [n|]; [|discriminate]. exists n. split; [reflexivity|].
    simpl in H. congruence. }
  assert (Hx' : ∃ nx', elruStack s' !! x = Some nx' ∧ stamps nx' = stamps nx).
  { unfold same_stamps in Hst.
    assert (H : (stamps <$> elruStack s') !! x = (stamps <$> ns) !! x)
      by (rewrite Hst; reflexivity).
    rewrite !list_lookup_fmap, Hnx in H. simpl in H.
    destruct (elruStack s' !! x) as [nx'|]; [|discriminate]. exists nx'.
    split; [reflexivity|]. simpl in H. congruence. }
  destruct Hx' as (nx' & Hnx' & Hsx). exists nx'. split; [exact Hnx'|]. split; [exact Hsx|].
  split.
  - intros a na' nx0 Ha Hna' Hnx0. assert (nx0 = nx') as -> by congruence.
    destruct (Hat a na' Hna') as (na & Hna & Hsa).
    rewrite (compareELRU_stamps nx' nx na' na Hsx Hsa). eapply Habove; eassumption.
  - intros d nd' nx0 Hd Hnd' Hnx0. assert (nx0 = nx') as -> by congruence.
    destruct (Hat d nd' Hnd') as (nd & Hnd & Hsd).
    rewrite (compareELRU_stamps nx' nx nd' nd Hsx Hsd). eapply Hbelow; eassumption.
Qed.

(** The state an access leaves, with its links: what [access_places_node]
    says below, and besides that the nodes outside the list are not written
    to, and that the new bottom node has nothing below it, except when it
    is the accessed node and has been put below the only other node: then
    it keeps the link [next] it had.  The list may begin with such a node,
    if that is the node accessed. *)
Lemma access_places_node_from NBuffers id del now s lo0 l rest :
  stack_from s lo0 l → lo0 = None ∨ head l = Some (Z.to_nat id) →
  0 ≤ id < NBuffers →
  access_case s (Z.to_nat id) l rest →
  twp (StrategyAccessBuffer NBuffers id del now)
      (fun _ s' => ∃ l1 l2 lo,
         rest = l1 ++ l2 ∧
         stack_from s' lo (l1 ++ Z.to_nat id :: l2) ∧
         placed_above (elruStack s') (Z.to_nat id) l1 ∧
         stops_below (elruStack s') (Z.to_nat id) l2 ∧
         (∃ nx nx', elruStack s !! Z.to_nat id = Some nx ∧
                    elruStack s' !! Z.to_nat id = Some nx' ∧
                    last_accessed nx' = now ∧
                    second_last_accessed nx' = last_accessed nx) ∧
         (∀ a, a ≠ Z.to_nat id →
               stamps <$> elruStack s' !! a = stamps <$> elruStack s !! a) ∧
         (lo = None ∨
          ∃ nx, elruStack s !! Z.to_nat id = Some nx ∧ lo = next nx ∧
                length rest = 1%nat ∧ l1 = []) ∧
         (∀ a, a ∉ l → a ≠ Z.to_nat id →
               elruStack s' !! a = elruStack s !! a)) s.
Proof.
  intros Hwf Hside Hid Hcase.
  set (x := Z.to_nat id) in *.
  assert (Hidx : id = Z.of_nat x) by (subst x; lia).
  assert (Hnx : ∃ nx, elruStack s !! x = Some nx ∧ node_id nx = Z.of_nat x).
  { destruct Hcase as [(_ & _ & nx & Hnx & Hnid & _)|(la & lc & -> & _ & _)]; [eauto|].
    destruct Hwf as (Hseg & _). eapply seg_lookup; [exact Hseg|].
    apply elem_of_app. right. left. }
  destruct Hnx as (nx & Hnx & Hnid).
  unfold StrategyAccessBuffer.
  destruct ((id <? 0) || (id >=? NBuffers)) eqn:Hrange; [lia|].
  cbv beta iota zeta. fold x.
  twp_rd_step. twp_wr_step. twp_wr_step.
  set (nx2 := set_second_last_accessed (last_accessed nx) (set_last_accessed now nx)).
  match goal with |- twp _ _ ?s2 => set (s2' := s2) end.
  assert (Hnx2 : elruStack s2' !! x = Some nx2) by (subst s2'; lk; reflexivity).
  assert (Hother2 : ∀ a, a ≠ x → elruStack s2' !! a = elruStack s !! a).
  { intros a Ha. subst s2'. lk. reflexivity. }
  assert (Hwf2 : stack_from s2' lo0 l).
  { destruct Hwf as (Hseg & Hnd & Hbot & Htop). split; [|split; [|split]]; try assumption.
    eapply seg_same_links; [|exact Hseg]. intros a n Ha Hn.
    destruct (decide (a = x)) as [->|Hax].
    - exists nx2. assert (n = nx) as -> by congruence. repeat split. exact Hnx2.
    - exists n. repeat split. rewrite Hother2; assumption. }
  clearbody s2'.
  assert (Hfinish : ∀ s3 s' l1 l2,
    same_stamps (stamps <$> elruStack s2') s3 → elruStack s3 !! x = Some nx2 →
    same_stamps (stamps <$> elruStack s3) s' →
    placed_above (elruStack s3) x l1 → stops_below (elruStack s3) x l2 →
    placed_above (elruStack s') x l1 ∧ stops_below (elruStack s') x l2 ∧
    (∃ nx0 nx', elruStack s !! x = Some nx0 ∧ elruStack s' !! x = Some nx' ∧
                last_accessed nx' = now ∧
                second_last_accessed nx' = last_accessed nx0) ∧
    (∀ a, a ≠ x → stamps <$> elruStack s' !! a = stamps <$> elruStack s !! a)).
  { intros s3 s' l1 l2 Hst3 Hnx3 Hst Habove Hbelow.
    destruct (placed_in_final_state _ s' x nx2 l1 l2 Hst Hnx3 Habove Hbelow)
      as (nx' & Hnx' & Hsx & Habove' & Hbelow').
    split; [exact Habove'|]. split; [exact Hbelow'|]. split.
    - exists nx, nx'. unfold stamps in Hsx. injection Hsx as _ Hl Hs.
      repeat split; [exact Hnx | exact Hnx' | exact Hl | exact Hs].
    - intros a Ha.
      rewrite (same_stamps_at _ s3 s' a eq_refl Hst).
      rewrite (same_stamps_at _ s2' s3 a eq_refl Hst3).
      rewrite Hother2 by exact Ha. reflexivity. }
  twp_rd_step. twp_rd_step.
  change (prev nx2) with (prev nx). change (next nx2) with (next nx).
  rewrite Hidx.
  destruct Hcase as [(Hxl & -> & nx0 & Hnx0 & _ & Hprev & Hnext)|
                     (la & lc & -> & -> & Hne)].
  - assert (nx0 = nx) as -> by congruence. rewrite Hprev, Hnext.
    assert (lo0 = None) as ->.
    { destruct Hside as [->|Hhead]; [reflexivity|].
      exfalso. apply Hxl. destruct l; [discriminate|]. injection Hhead as ->. left. }
    apply twp_bind. eapply twp_top_is_not; [exact Hwf2 | exact Hxl |].
    eapply twp_mono;
      [apply (processStackBottomToTop_places s2' l x nx2 Hwf2 Hxl Hnx2); exact Hnid|].
    intros _ s' (l1 & l2 & lo & -> & Hfrom & Hlo & Habove & Hbelow & Hst & _ & Hout).
    exists l1, l2, lo. split; [reflexivity|]. split; [exact Hfrom|].
    destruct (Hfinish s2' s' l1 l2) as (H1 & H2 & H3 & H4); try assumption; [reflexivity|].
    split; [exact H1|]. split; [exact H2|]. split; [exact H3|]. split; [exact H4|]. split.
    + destruct Hlo as [->|(-> & Hlen & ->)]; [left; reflexivity|].
      right. exists nx. auto.
    + intros a Ha Hax. rewrite Hout by assumption. apply Hother2. exact Hax.
  - pose proof Hwf2 as (Hseg2 & Hnd2 & _).
    apply seg_app in Hseg2 as [_ [(n & Hn & _ & Hnextx & Hprevx) _]].
    assert (n = nx2) as -> by congruence.
    change (prev nx2) with (prev nx) in Hprevx. change (next nx2) with (next nx) in Hnextx.
    assert (Hresident :
      (match prev nx with
       | Some _ => ret false
       | None => match next nx with
                 | Some _ => ret false
                 | None => top_is_not (Z.of_nat x)
                 end
       end) = ret false).
    { rewrite Hprevx, Hnextx. destruct lc as [|c r]; [|reflexivity]. cbn [head_or].
      destruct la as [|b la _] using rev_ind; [exfalso; apply Hne; reflexivity|].
      rewrite last_or_snoc. reflexivity. }
    rewrite Hresident. apply twp_bind, twp_ret. apply twp_bind.
    assert (Hside' : lo0 = None ∨ la = []).
    { destruct Hside as [->|Hhead]; [left; reflexivity|]. right.
      destruct la as [|a0 la]; [reflexivity|]. exfalso.
      injection Hhead as ->. apply NoDup_cons in Hnd2 as [Hnot _].
      apply Hnot. apply elem_of_app. right. left. }
    eapply twp_mono; [apply (unlink_resident_spec s2' lo0 la x lc nx2 Hwf2 Hside' Hne Hnx2)|].
    intros _ s3 (Hwf3 & Hnx3 & Hst3 & _ & Hout3).
    assert (Hxrest : x ∉ la ++ lc).
    { apply NoDup_app in Hnd2 as (_ & Hdisj & Hnd2).
      apply NoDup_cons in Hnd2 as [Hxlc _].
      intros Hin. apply elem_of_app in Hin as [Hin|Hin]; [|contradiction].
      apply (Hdisj x Hin). left. }
    eapply twp_mono;
      [apply (processStackBottomToTop_places s3 (la ++ lc) x nx2 Hwf3 Hxrest Hnx3); exact Hnid|].
    intros _ s' (l1 & l2 & lo & Hsplit & Hfrom & Hlo & Habove & Hbelow & Hst & _ & Hout).
    exists l1, l2, lo. split; [exact Hsplit|]. split; [exact Hfrom|].
    destruct (Hfinish s3 s' l1 l2) as (H1 & H2 & H3 & H4); try assumption.
    split; [exact H1|]. split; [exact H2|]. split; [exact H3|]. split; [exact H4|]. split.
    + destruct Hlo as [->|(-> & Hlen & ->)]; [left; reflexivity|].
      right. exists nx. auto.
    + intros a Ha Hax. rewrite Hout; [| |exact Hax].
      * rewrite Hout3 by assumption. apply Hother2. exact Hax.
      * intros Hin. apply Ha. apply elem_of_app in Hin as [Hin|Hin];
          apply elem_of_app; [left | right; right]; exact Hin.
Qed.



(** The same for a well-formed list: the exception is the list [b; x]
    whose top node [x] has moved below [b], and keeps its link to [b] in
    both directions. *)
Lemma access_places_node_links NBuffers id del now s l rest :
  stack_wf s l → 0 ≤ id < NBuffers →
  access_case s (Z.to_nat id) l rest →
  twp (StrategyAccessBuffer NBuffers id del now)
      (fun _ s' => ∃ l1 l2 lo,
         rest = l1 ++ l2 ∧
         stack_from s' lo (l1 ++ Z.to_nat id :: l2) ∧
         placed_above (elruStack s') (Z.to_nat id) l1 ∧
         stops_below (elruStack s') (Z.to_nat id) l2 ∧
         (∃ nx nx', elruStack s !! Z.to_nat id = Some nx ∧
                    elruStack s' !! Z.to_nat id = Some nx' ∧
                    last_accessed nx' = now ∧
                    second_last_accessed nx' = last_accessed nx) ∧
         (∀ a, a ≠ Z.to_nat id →
               stamps <$> elruStack s' !! a = stamps <$> elruStack s !! a) ∧
         (lo = None ∨
          ∃ b, l = [b; Z.to_nat id] ∧ l1 = [] ∧ l2 = [b] ∧ lo = Some b) ∧
         (∀ a, a ∉ l → a ≠ Z.to_nat id →
               elruStack s' !! a = elruStack s !! a)) s.
Proof.
  intros Hwf Hid Hcase.
  eapply twp_mono;
    [apply (access_places_node_from NBuffers id del now s None l rest Hwf);
     [left; reflexivity | exact Hid | exact Hcase]|].
  intros _ s' (l1 & l2 & lo & Hsplit & Hfrom & Habove & Hbelow & Hst & Hothers & Hlo & Hout).
  exists l1, l2, lo. repeat (split; [assumption|]). split; [|exact Hout].
  destruct Hlo as [->|(nx & Hnx & -> & Hlen & ->)]; [left; reflexivity|].
  destruct Hcase as [(_ & _ & nx0 & Hnx0 & _ & _ & Hnext)|(la & lc & -> & -> & _)].
  - left. assert (nx0 = nx) as -> by congruence. exact Hnext.
  - destruct Hwf as (Hseg & _).
    apply seg_app in Hseg as [_ [(n & Hn & _ & Hnextx & _) _]].
    assert (n = nx) as -> by congruence. rewrite Hnextx.
    destruct la as [|b la _] using rev_ind; [left; reflexivity|].
    right. rewrite last_or_snoc. exists b.
    rewrite !length_app in Hlen. simpl in Hlen.
    destruct la; [|simpl in Hlen; lia]. destruct lc; [|simpl in Hlen; lia].
    simpl in Hsplit. auto.
Qed.

(** The state an access leaves: the other nodes [rest] in their order with
    [x] between [l1] and [l2], every node of [l1] comparing below [x] and
    the first node of [l2] not; [x] stamped with the time of the access and
    its previous one; the stamps of the other nodes as they were. *)
Lemma access_places_node NBuffers id del now s l rest :
  stack_wf s l → 0 ≤ id < NBuffers →
  access_case s (Z.to_nat id) l rest →
  twp (StrategyAccessBuffer NBuffers id del now)
      (fun _ s' => ∃ l1 l2 lo,
         rest = l1 ++ l2 ∧
         stack_from s' lo (l1 ++ Z.to_nat id :: l2) ∧
         placed_above (elruStack s') (Z.to_nat id) l1 ∧
         stops_below (elruStack s') (Z.to_nat id) l2 ∧
         (∃ nx nx', elruStack s !! Z.to_nat id = Some nx ∧
                    elruStack s' !! Z.to_nat id = Some nx' ∧
                    last_accessed nx' = now ∧
                    second_last_accessed nx' = last_accessed nx) ∧
         (∀ a, a ≠ Z.to_nat id →
               stamps <$> elruStack s' !! a = stamps <$> elruStack s !! a)) s.
Proof.
  intros Hwf Hid Hcase.
  eapply twp_mono; [apply (access_places_node_links NBuffers id del now s l rest); assumption|].
  intros _ s' (l1 & l2 & lo & H1 & H2 & H3 & H4 & H5 & H6 & _).
  exists l1, l2, lo. repeat (split; [assumption|]). assumption.
Qed.

(** C9, as the specification states it, fails: buffer 0 is in the list
    with key (0, 10); the first access to buffer 1, also at time 10, gives
    it the same key and puts it below buffer 0, not above.  The same
    happens when the access is the one a second allocation makes. *)
Lemma equal_key_goes_below :
  elru_list Pool4.one = [0]%nat ∧
  match StrategyAccessBuffer Pool4.N 1 false 10 Pool4.one with
  | Ret _ s' =>
    keys_of (elruStack s') [0; 1]%nat = [(0, 10); (0, 10)] ∧
    elru_list s' = [1; 0]%nat
  | _ => False
  end ∧
  match StrategyGetBuffer Pool4.N Pool4.NOT_IN_LIST None 10 Pool4.one with
  | Ret (Returned buf _ _, _) s' =>
    buf = 1 ∧
    keys_of (elruStack s') [0; 1]%nat = [(0, 10); (0, 10)] ∧
    elru_list s' = [1; 0]%nat
  | _ => False
  end.
Proof. vm_compute. repeat split. Qed.

(** C9 (amended): an access to a node that is not in the list (both links
    [NULL]), or that is in the list with at least one other node, made on a
    well-formed list with a clock value other than [TIMESTAMP_NIL], returns
    and leaves the other nodes in their order with the accessed node
    inserted among them, below every node whose key equals its new key:
    on equal keys the newly inserted node sorts below the existing ones. *)
Theorem access_places_node_below_equal_keys NBuffers id del now s l rest :
  stack_wf s l → 0 ≤ id < NBuffers → now ≠ TIMESTAMP_NIL →
  access_case s (Z.to_nat id) l rest →
  ∃ s' l1 l2,
    StrategyAccessBuffer NBuffers id del now s = Ret tt s' ∧
    rest = l1 ++ l2 ∧
    elru_list s' = l1 ++ Z.to_nat id :: l2 ∧
    ∀ y ny nx', y ∈ rest →
      elruStack s' !! y = Some ny → elruStack s' !! Z.to_nat id = Some nx' →
      elru_key ny = elru_key nx' → y ∈ l2.
Proof.
  intros Hwf Hid Hnow Hcase.
  pose proof (access_places_node NBuffers id del now s l rest Hwf Hid Hcase) as H.
  apply twp_Ret in H as ([] & s' & Hret & l1 & l2 & lo & Hsplit & Hfrom & Habove & _
                         & (nx & nx' & _ & Hnx' & Hlast & _) & _).
  exists s', l1, l2. split; [exact Hret|]. split; [exact Hsplit|].
  split; [eapply stack_from_elru_list; exact Hfrom|].
  intros y ny nx0 Hy Hny Hnx0 Hkey. assert (nx0 = nx') as -> by congruence.
  rewrite Hsplit in Hy. apply elem_of_app in Hy as [Hy|Hy]; [|exact Hy]. exfalso.
  pose proof (Habove y ny nx' Hy Hny Hnx') as Hgt.
  rewrite elru_key_equal_compare in Hgt; [lia | congruence | congruence].
Qed.

(** The theorem at work on a tie: buffer 0 is in the list with key
    (0, 10), and the first access to buffer 1 is made at time 10 as well. *)
Lemma access_places_node_below_equal_keys_witness :
  keys_of (elruStack (Pool4.state_of (StrategyAccessBuffer Pool4.N 1 false 10 Pool4.one)
                                     Pool4.one))
          [0; 1]%nat = [(0, 10); (0, 10)] ∧
  ∃ s' l1 l2,
    StrategyAccessBuffer Pool4.N 1 false 10 Pool4.one = Ret tt s' ∧
    [0]%nat = l1 ++ l2 ∧
    elru_list s' = l1 ++ Z.to_nat 1 :: l2 ∧
    ∀ y ny nx', y ∈ [0]%nat →
      elruStack s' !! y = Some ny → elruStack s' !! Z.to_nat 1 = Some nx' →
      elru_key ny = elru_key nx' → y ∈ l2.
Proof.
  split; [vm_compute; reflexivity|].
  apply (access_places_node_below_equal_keys Pool4.N 1 false 10 Pool4.one
           [0]%nat [0]%nat).
  - split; [|split; [|split]].
    + vm_compute. repeat (first [reflexivity | split | eexists]).
    + apply (bool_decide_unpack _). vm_compute. exact Logic.I.
    + vm_compute. reflexivity.
    + vm_compute. reflexivity.
  - unfold Pool4.N. lia.
  - discriminate.
  - left. split; [|split].
    + apply (bool_decide_unpack _). vm_compute. exact Logic.I.
    + reflexivity.
    + vm_compute. repeat (first [reflexivity | split | eexists]).
Defined.

(** ** Order of the list while the timestamps stay close (C3) *)

Lemma key_le_iff k1 k2 :
  key_le k1 k2 ↔ fst k1 < fst k2 ∨ (fst k1 = fst k2 ∧ snd k1 ≤ snd k2).
Proof.
  unfold key_le, key_leb.
  rewrite Bool.orb_true_iff, Bool.andb_true_iff, Z.ltb_lt, Z.eqb_eq, Z.leb_le.
  reflexivity.
Qed.

Lemma key_le_transitive : Transitive key_le.
Proof. intros k1 k2 k3. rewrite !key_le_iff. lia. Qed.
#[local] Existing Instance key_le_transitive.

Lemma sorted_keys_Sorted ks : sorted_keys ks = true ↔ Sorted key_le ks.
Proof.
  induction ks as [|k1 ks IH]; [split; [constructor | reflexivity]|].
  destruct ks as [|k2 ks].
  - split; [repeat constructor | reflexivity].
  - change (sorted_keys (k1 :: k2 :: ks))
      with (key_leb k1 k2 && sorted_keys (k2 :: ks)).
    rewrite Bool.andb_true_iff, IH. split.
    + intros [H12 Hs]. constructor; [exact Hs | constructor; exact H12].
    + intros Hs. inversion Hs as [|? ? Hs' Hhd]; subst.
      inversion Hhd; subst. split; assumption.
Qed.

Lemma compareELRU_faithful T a b :
  0 ≤ T → in_window T a → in_window T b →
  (compareELRU a b > 0 → key_le (elru_key b) (elru_key a)) ∧
  (compareELRU a b <= 0 → key_le (elru_key a) (elru_key b)).
Proof.
  intros HT [Hla Hsa] [Hlb Hsb]. rewrite !key_le_iff.
  unfold compareELRU, isRemovedNode, elru_key, tier, rank, TIMESTAMP_NIL in *. simpl.
  destruct (last_accessed a =? -1) eqn:Ea; [lia|].
  destruct (last_accessed b =? -1) eqn:Eb; [lia|]. simpl.
  destruct (second_last_accessed a =? -1) eqn:Esa;
    destruct (second_last_accessed b =? -1) eqn:Esb; simpl;
    try (rewrite to_int_small by lia); lia.
Qed.

Lemma in_window_stamps T a b : stamps a = stamps b → in_window T a → in_window T b.
Proof. unfold stamps, in_window. intros [= _ -> ->]. exact (fun H => H). Qed.

Lemma keys_of_ext ns ns' l :
  (∀ a, a ∈ l → stamps <$> ns' !! a = stamps <$> ns !! a) →
  keys_of ns' l = keys_of ns l.
Proof.
  intros Hext. unfold keys_of. apply list_omap_ext.
  induction l as [|a l IH]; constructor.
  - specialize (Hext a (list_elem_of_here a l)).
    destruct (ns' !! a) as [n'|], (ns !! a) as [n|]; try discriminate; [|reflexivity].
    cbn [fmap option_fmap option_map] in *. injection Hext as _ Hl Hs.
    unfold elru_key, tier, rank. rewrite Hl, Hs. reflexivity.
  - apply IH. intros b Hb. apply Hext. right. exact Hb.
Qed.

(** X21.  An access keeps the list in key order as long as the comparator
    sees the true order: when every timestamp in the list and the clock
    value lie within one window of 2^31 nanoseconds.  (The list is well
    formed and in key order, and the node is outside it or not alone in
    it.) *)
Lemma access_keeps_order_within_window NBuffers id del now s l rest T :
  stack_wf s l → 0 ≤ id < NBuffers → access_case s (Z.to_nat id) l rest →
  elru_sorted s = true →
  0 ≤ T → T ≤ now < T + 2^31 →
  (∀ a n, a ∈ l → elruStack s !! a = Some n → in_window T n) →
  (∀ n, elruStack s !! Z.to_nat id = Some n →
        last_accessed n = TIMESTAMP_NIL ∨ T ≤ last_accessed n < T + 2^31) →
  ∃ s', StrategyAccessBuffer NBuffers id del now s = Ret tt s' ∧
        elru_sorted s' = true.
Proof.
  intros Hwf Hid Hcase Hsorted HT Hnow Hwin Hx.
  set (x := Z.to_nat id) in *.
  pose proof (access_places_node NBuffers id del now s l rest Hwf Hid Hcase) as H.
  apply twp_Ret in H as ([] & s' & Hret & l1 & l2 & lo & Hsplit & Hfrom & Habove & Hbelow
                         & (nx & nx' & Hnx & Hnx' & Hlast & Hsecond) & Hother).
  fold x in Hfrom, Habove, Hbelow, Hnx, Hnx', Hother.
  exists s'. split; [exact Hret|].
  unfold elru_sorted in *.
  rewrite (stack_from_elru_list _ _ _ Hfrom).
  rewrite (stack_from_elru_list _ _ _ Hwf) in Hsorted.
  apply sorted_keys_Sorted. apply StronglySorted_Sorted.
  apply sorted_keys_Sorted, Sorted_StronglySorted in Hsorted; [|apply key_le_transitive].
  (* the other nodes: where they are, their windows, their order *)
  assert (Hrest_in : ∀ a, a ∈ rest → a ∈ l ∧ a ≠ x).
  { destruct Hwf as (_ & Hnd & _).
    destruct Hcase as [(Hxl & -> & _)|(la & lc & -> & -> & _)].
    - intros a Ha. split; [exact Ha|]. intros ->. contradiction.
    - intros a Ha. apply NoDup_app in Hnd as (_ & Hdisj & Hnd).
      apply NoDup_cons in Hnd as [Hxlc _].
      apply elem_of_app in Ha as [Ha|Ha].
      + split; [apply elem_of_app; left; exact Ha|].
        intros ->. apply (Hdisj x Ha). left.
      + split; [apply elem_of_app; right; right; exact Ha|].
        intros ->. contradiction. }
  assert (Hrest_sorted : StronglySorted key_le (keys_of (elruStack s) rest)).
  { destruct Hcase as [(_ & -> & _)|(la & lc & -> & -> & _)]; [exact Hsorted|].
    unfold keys_of in *. rewrite omap_app in Hsorted |- *.
    apply StronglySorted_app in Hsorted as (Hcross & Hsa & Hsc).
    apply StronglySorted_app. split; [|split; [exact Hsa|]].
    - intros k1 k2 Hk1 Hk2. apply Hcross; [exact Hk1|].
      apply list_elem_of_omap in Hk2 as (a & Ha & Hk2).
      apply list_elem_of_omap. exists a. split; [right; exact Ha | exact Hk2].
    - apply (StronglySorted_app_1_r _ (omap (fun i => elru_key <$> elruStack s !! i) [x])).
      rewrite <- omap_app. exact Hsc. }
  assert (Hkeys_rest : keys_of (elruStack s') rest = keys_of (elruStack s) rest).
  { apply keys_of_ext. intros a Ha. apply Hother. apply Hrest_in. exact Ha. }
  assert (Hwin' : ∀ a n', a ∈ rest → elruStack s' !! a = Some n' → in_window T n').
  { intros a n' Ha Hn'. destruct (Hrest_in a Ha) as [Hal Hax].
    specialize (Hother a Hax). rewrite Hn' in Hother.
    destruct (elruStack s !! a) as [n|] eqn:Hn; [|discriminate].
    assert (Hst : stamps n' = stamps n) by (simpl in Hother; congruence).
    eapply in_window_stamps; [symmetry; exact Hst|].
    eapply Hwin; eassumption. }
  assert (Hwinx : in_window T nx').
  { split; [rewrite Hlast; exact Hnow|]. rewrite Hsecond.
    destruct (Hx nx Hnx) as [->|Hr]; [left; reflexivity | right; exact Hr]. }
  (* the new list *)
  rewrite Hsplit in Hkeys_rest, Hrest_sorted, Hwin'.
  unfold keys_of in *.
  rewrite !omap_app in Hkeys_rest. rewrite !omap_app in Hrest_sorted. rewrite !omap_app.
  rewrite <- Hkeys_rest in Hrest_sorted.
  apply StronglySorted_app in Hrest_sorted as (Hcross & Hs1 & Hs2).
  cbn [omap list_omap]. rewrite Hnx'. cbn [fmap option_fmap option_map].
  apply StronglySorted_app. split; [|split; [exact Hs1|]].
  - intros k1 k2 Hk1 Hk2.
    assert (Hk1x : key_le k1 (elru_key nx')).
    { apply list_elem_of_omap in Hk1 as (a & Ha & Hk1).
      destruct (elruStack s' !! a) as [na'|] eqn:Hna'; [|discriminate].
      injection Hk1 as <-.
      apply (compareELRU_faithful T nx' na' HT Hwinx).
      - apply (Hwin' a); [apply elem_of_app; left; exact Ha | exact Hna'].
      - eapply Habove; eassumption. }
    apply elem_of_cons in Hk2 as [->|Hk2]; [exact Hk1x|].
    apply Hcross; assumption.
  - apply StronglySorted_cons. split; [|exact Hs2].
    apply Forall_forall. intros k Hk.
    destruct l2 as [|d r]; [inversion Hk|].
    destruct Hfrom as (Hseg & _).
    destruct (seg_lookup _ _ _ _ d Hseg) as (nd' & Hnd' & _).
    { apply elem_of_app. right. right. left. }
    assert (Hxd : key_le (elru_key nx') (elru_key nd')).
    { apply (compareELRU_faithful T nx' nd' HT Hwinx).
      - apply (Hwin' d); [apply elem_of_app; right; left | exact Hnd'].
      - eapply Hbelow; [reflexivity | exact Hnd' | exact Hnx']. }
    cbn [omap list_omap] in Hk, Hs2. rewrite Hnd' in Hk, Hs2.
    cbn [fmap option_fmap option_map] in Hk, Hs2.
    apply elem_of_cons in Hk as [->|Hk]; [exact Hxd|].
    apply StronglySorted_cons in Hs2 as [Hall _].
    rewrite Forall_forall in Hall. etransitivity; [exact Hxd | apply Hall; exact Hk].
Qed.

(** The lemma at work: in the pool with buffers 0 and 1 allocated at times
    10 and 20, an access to buffer 0 at time 30. *)
Lemma access_keeps_order_within_window_witness :
  ∃ s', StrategyAccessBuffer Pool4.N 0 false 30 Pool4.two = Ret tt s' ∧
        elru_sorted s' = true.
Proof.
  apply (access_keeps_order_within_window Pool4.N 0 false 30 Pool4.two
           [0; 1]%nat [1]%nat 0).
  - split; [|split; [|split]].
    + vm_compute. repeat (first [reflexivity | split | eexists]).
    + apply (bool_decide_unpack _). vm_compute. exact Logic.I.
    + vm_compute. reflexivity.
    + vm_compute. reflexivity.
  - unfold Pool4.N. lia.
  - right. exists [], [1%nat]. repeat split. discriminate.
  - vm_compute. reflexivity.
  - lia.
  - lia.
  - intros a n Ha Hn.
    apply elem_of_cons in Ha as [->|Ha]; [|apply list_elem_of_singleton in Ha as ->];
      vm_compute in Hn; injection Hn as <-; unfold in_window, TIMESTAMP_NIL; simpl; lia.
  - intros n Hn. vm_compute in Hn. injection Hn as <-. right. simpl. lia.
Defined.

(** ** Two of the defects in general *)

(** C1 in general: a release that puts the buffer on the free list records
    an access on its node instead of clearing it. *)
Lemma release_records_access_in_general NBuffers NOT_IN_LIST buf now s i d :
  desc_index buf = Some i → BufferDescriptors s !! i = Some d →
  freeNext d = NOT_IN_LIST →
  wp (StrategyFreeBuffer NBuffers NOT_IN_LIST buf now)
     (fun _ s' => recorded now (buf_id d) s') (fun _ _ => True) s.
Proof.
  intros Hi Hd Hfree. unfold StrategyFreeBuffer.
  apply wp_bind, wp_rd_desc. intros i0 d0 Hi0 Hd0.
  assert (i0 = i) as -> by congruence. assert (d0 = d) as -> by congruence.
  rewrite Hfree, Z.eqb_refl.
  apply wp_bind, wp_ctl. apply wp_bind, wp_wr_desc. intros i1 d1 Hi1 Hd1.
  assert (i1 = i) as -> by congruence. assert (d1 = d) as -> by congruence.
  apply wp_bind, wp_rd_desc. intros i2 d2 Hi2 Hd2.
  assert (i2 = i) as -> by congruence.
  simpl in Hd2.
  rewrite list_lookup_insert_eq in Hd2 by (eapply lookup_lt_Some; eassumption).
  injection Hd2 as <-. cbn [buf_id set_freeNext].
  apply wp_bind.
  eapply (wp_mono _ (fun _ _ => True) _ (fun _ _ => True)); [| |auto].
  { destruct (_ <? 0); [apply wp_set_ctl | apply wp_ret]; exact Logic.I. }
  intros _ s1 _. apply wp_bind, wp_set_ctl.
  eapply wp_mono; [apply StrategyAccessBuffer_records | | auto].
  intros _ s' (Hid & n & n' & _ & Hn' & Hlast & _). split; [exact Hid|]. eauto.
Qed.

(** The primitive steps as equations, for running a call by rewriting. *)
Lemma bind_rd {A B} i (f : BufferNode → A) (k : A → M B) s n :
  elruStack s !! i = Some n → bind (rd (Some i) f) k s = k (f n) s.
Proof. intros Hn. unfold bind, rd. rewrite Hn. reflexivity. Qed.

Lemma bind_wr {B} i u (k : unit → M B) s n :
  elruStack s !! i = Some n →
  bind (wr (Some i) u) k s = k tt (with_elruStack (fun l => <[i:=u n]> l) s).
Proof. intros Hn. unfold bind, wr. rewrite Hn. reflexivity. Qed.

Lemma bind_ctl {A B} (f : BufferStrategyControl → A) (k : A → M B) s :
  bind (ctl f) k s = k (f (StrategyControl s)) s.
Proof. reflexivity. Qed.

Lemma bind_set_ctl {B} upd (k : unit → M B) s :
  bind (set_ctl upd) k s = k tt (with_control upd s).
Proof. reflexivity. Qed.

Lemma bind_bind {A B C} (m : M A) (f : A → M B) (g : B → M C) s :
  bind (bind m f) g s = bind m (fun a => bind (f a) g) s.
Proof. unfold bind. destruct (m s); reflexivity. Qed.

Lemma bind_ret {A B} (a : A) (k : A → M B) s : bind (ret a) k s = k a s.
Proof. reflexivity. Qed.

(** C6 in general: an access to the only node of a well-formed list follows
    a [NULL] pointer. *)
Lemma access_to_sole_node_faults NBuffers x del now s :
  stack_wf s [x] → Z.of_nat x < NBuffers →
  StrategyAccessBuffer NBuffers (Z.of_nat x) del now s = Fault.
Proof.
  intros ([(n & Hn & Hid & Hnext & Hprev) _] & _ & Hbot & Htop) Hx.
  simpl in Hprev, Hbot, Htop.
  assert (Hlen : (x < length (elruStack s))%nat) by (eapply lookup_lt_Some; eassumption).
  unfold StrategyAccessBuffer.
  destruct ((Z.of_nat x <? 0) || (Z.of_nat x >=? NBuffers)) eqn:Hrange; [lia|].
  cbv beta iota zeta. rewrite Nat2Z.id.
  erewrite bind_rd by eassumption.
  erewrite bind_wr by eassumption.
  erewrite bind_wr by (simpl; apply list_lookup_insert_eq; assumption).
  set (n' := set_second_last_accessed _ _).
  set (s' := with_elruStack _ _).
  assert (Hn' : elruStack s' !! x = Some n').
  { subst s'. simpl. apply list_lookup_insert_eq. rewrite length_insert. assumption. }
  erewrite bind_rd by eassumption.
  erewrite bind_rd by eassumption.
  subst n'. cbn [prev next set_second_last_accessed set_last_accessed].
  rewrite Hprev, Hnext.
  unfold top_is_not. rewrite !bind_bind, bind_ctl.
  replace (stackTop (StrategyControl s')) with (Some x) by (symmetry; exact Htop).
  rewrite bind_bind. erewrite bind_rd by eassumption.
  cbn [node_id set_second_last_accessed set_last_accessed].
  rewrite bind_ret, Hid, Z.eqb_refl. cbn [negb].
  unfold unlink_resident. rewrite !bind_bind, bind_ctl.
  replace (stackBottom (StrategyControl s')) with (Some x) by (symmetry; exact Hbot).
  rewrite !bind_bind. erewrite bind_rd by eassumption.
  cbn [node_id set_second_last_accessed set_last_accessed].
  rewrite Hid, Z.eqb_refl.
  rewrite !bind_bind. erewrite bind_rd by eassumption.
  rewrite !bind_bind, bind_set_ctl.
  rewrite !bind_bind. erewrite bind_rd by (simpl; eassumption).
  cbn [prev set_second_last_accessed set_last_accessed]. rewrite Hprev.
  reflexivity.
Qed.

(** * Further properties of the code *)

(** The further properties that say what a call leaves alone in the
    descriptors speak of the index, the free-list link and the two
    counters: the header spinlock, which [GetBufferFromRing] and
    [StrategyGetBuffer] hold on the buffer they return, is outside the
    model. *)
Lemma descriptors_keep_fields_eq s s' :
  BufferDescriptors s' = BufferDescriptors s → descriptors_keep_fields s s'.
Proof.
  unfold descriptors_keep_fields. intros ->.
  induction (BufferDescriptors s) as [|d ds IH]; constructor;
    [repeat split | exact IH].
Qed.

(** ** The position of the background writer: [StrategySyncStart] and
       [ClockSweepTick] *)

(** X1.  With a positive [NBuffers], [StrategySyncStart] returns the
    clock hand modulo [NBuffers] as the start index, which lies inside the
    pool, [completePasses] plus the whole passes the hand still holds
    ([nextVictimBuffer / NBuffers]) as the pass count, in 32 bits, and the
    allocation count as it stands, which it resets to zero.  While the pass
    count does not overflow, start index and pass count together stand for
    [completePasses * NBuffers + nextVictimBuffer] buffers.  A second call
    right after the first reports the same position and zero allocations
    and changes nothing any more; a call that passes [NULL] for the count
    changes nothing at all. *)
Theorem sync_start_reads_and_resets NBuffers want s :
  0 < NBuffers →
  StrategySyncStart NBuffers want true s =
    Ret (nextVictimBuffer (StrategyControl s) mod NBuffers,
         (if want
          then Some (to_uint32 (completePasses (StrategyControl s) +
                                nextVictimBuffer (StrategyControl s) / NBuffers))
          else None),
         Some (numBufferAllocs (StrategyControl s)))
        (with_control (set_numBufferAllocs 0) s) ∧
  0 ≤ nextVictimBuffer (StrategyControl s) mod NBuffers < NBuffers ∧
  (0 ≤ completePasses (StrategyControl s) → 0 ≤ nextVictimBuffer (StrategyControl s) →
   completePasses (StrategyControl s) + nextVictimBuffer (StrategyControl s) / NBuffers
     < 2^32 →
   to_uint32 (completePasses (StrategyControl s) +
              nextVictimBuffer (StrategyControl s) / NBuffers) * NBuffers +
   nextVictimBuffer (StrategyControl s) mod NBuffers =
     completePasses (StrategyControl s) * NBuffers + nextVictimBuffer (StrategyControl s)) ∧
  StrategySyncStart NBuffers want true (with_control (set_numBufferAllocs 0) s) =
    Ret (nextVictimBuffer (StrategyControl s) mod NBuffers,
         (if want
          then Some (to_uint32 (completePasses (StrategyControl s) +
                                nextVictimBuffer (StrategyControl s) / NBuffers))
          else None),
         Some 0)
        (with_control (set_numBufferAllocs 0) s) ∧
  StrategySyncStart NBuffers want false s =
    Ret (nextVictimBuffer (StrategyControl s) mod NBuffers,
         (if want
          then Some (to_uint32 (completePasses (StrategyControl s) +
                                nextVictimBuffer (StrategyControl s) / NBuffers))
          else None),
         None) s.
Proof.
  intros HN.
  split; [destruct want; reflexivity|].
  split; [apply Z.mod_pos_bound; exact HN|].
  split.
  { intros Hcp Hnv Hsmall.
    assert (0 ≤ nextVictimBuffer (StrategyControl s) / NBuffers)
      by (apply Z.div_pos; lia).
    unfold to_uint32. rewrite Z.mod_small by lia.
    rewrite (Z.div_mod (nextVictimBuffer (StrategyControl s)) NBuffers) at 3 by lia.
    ring. }
  destruct s as [c ns ds ls]. split; destruct want; reflexivity.
Qed.

Lemma sync_start_reads_and_resets_witness :
  StrategySyncStart Pool4.N true true Pool4.two =
    Ret (nextVictimBuffer (StrategyControl Pool4.two) mod Pool4.N,
         (if true
          then Some (to_uint32 (completePasses (StrategyControl Pool4.two) +
                                nextVictimBuffer (StrategyControl Pool4.two) / Pool4.N))
          else None),
         Some (numBufferAllocs (StrategyControl Pool4.two)))
        (with_control (set_numBufferAllocs 0) Pool4.two) ∧
  0 ≤ nextVictimBuffer (StrategyControl Pool4.two) mod Pool4.N < Pool4.N ∧
  (0 ≤ completePasses (StrategyControl Pool4.two) →
   0 ≤ nextVictimBuffer (StrategyControl Pool4.two) →
   completePasses (StrategyControl Pool4.two) +
   nextVictimBuffer (StrategyControl Pool4.two) / Pool4.N < 2^32 →
   to_uint32 (completePasses (StrategyControl Pool4.two) +
              nextVictimBuffer (StrategyControl Pool4.two) / Pool4.N) * Pool4.N +
   nextVictimBuffer (StrategyControl Pool4.two) mod Pool4.N =
     completePasses (StrategyControl Pool4.two) * Pool4.N +
     nextVictimBuffer (StrategyControl Pool4.two)) ∧
  StrategySyncStart Pool4.N true true (with_control (set_numBufferAllocs 0) Pool4.two) =
    Ret (nextVictimBuffer (StrategyControl Pool4.two) mod Pool4.N,
         (if true
          then Some (to_uint32 (completePasses (StrategyControl Pool4.two) +
                                nextVictimBuffer (StrategyControl Pool4.two) / Pool4.N))
          else None),
         Some 0)
        (with_control (set_numBufferAllocs 0) Pool4.two) ∧
  StrategySyncStart Pool4.N true false Pool4.two =
    Ret (nextVictimBuffer (StrategyControl Pool4.two) mod Pool4.N,
         (if true
          then Some (to_uint32 (completePasses (StrategyControl Pool4.two) +
                                nextVictimBuffer (StrategyControl Pool4.two) / Pool4.N))
          else None),
         None) Pool4.two.
Proof.
  apply (sync_start_reads_and_resets Pool4.N true Pool4.two). unfold Pool4.N. lia.
Defined.

(** X2.  In a pool of at least two buffers whose clock hand is at most
    [NBuffers] (where [StrategyInitialize] puts it and every tick leaves
    it), [ClockSweepTick] returns the buffer under the hand,
    [nextVictimBuffer mod NBuffers], and moves the position that
    [StrategySyncStart] reports forward by exactly one buffer: when the
    hand wraps, the pass that [completePasses] gains makes up for it. *)
Theorem clock_sweep_tick_advances_one_buffer NBuffers s :
  1 < NBuffers → NBuffers + 1 < 2^32 →
  0 ≤ nextVictimBuffer (StrategyControl s) ≤ NBuffers →
  0 ≤ completePasses (StrategyControl s) < 2^32 - 1 →
  ∃ s' start passes start' passes',
    ClockSweepTick NBuffers s =
      Ret (nextVictimBuffer (StrategyControl s) mod NBuffers) s' ∧
    0 ≤ nextVictimBuffer (StrategyControl s') ≤ NBuffers ∧
    sync_position NBuffers s = Some (start, Some passes) ∧
    sync_position NBuffers s' = Some (start', Some passes') ∧
    passes' * NBuffers + start' = passes * NBuffers + start + 1.
Proof.
  intros HN Hmax Hhand Hpasses.
  set (h := nextVictimBuffer (StrategyControl s)) in *.
  set (p := completePasses (StrategyControl s)) in *.
  assert (Hu : ∀ z, 0 ≤ z < 2^32 → to_uint32 z = z).
  { intros z Hz. unfold to_uint32. apply Z.mod_small. exact Hz. }
  assert (Hdiv : 0 ≤ h / NBuffers ≤ 1).
  { split; [apply Z.div_pos; lia|].
    apply Z.div_le_upper_bound; lia. }
  assert (Hdm : h = NBuffers * (h / NBuffers) + h mod NBuffers)
    by (apply Z.div_mod; lia).
  unfold ClockSweepTick, bind, ctl, gets, set_ctl, modify, ret. simpl. fold h.
  rewrite (Hu (h + 1)) by lia.
  destruct (h >=? NBuffers) eqn:Hge.
  - assert (h = NBuffers) as Hh by lia.
    rewrite Hh, Z_mod_same_full, Z.eqb_refl. simpl.
    unfold bind, ctl, gets, set_ctl, modify, ret. simpl.
    rewrite Z.eqb_refl. simpl. fold p.
    assert (Hw : (NBuffers + 1) mod NBuffers = 1).
    { rewrite <- Zplus_mod_idemp_l, Z_mod_same_full. simpl. apply Z.mod_small. lia. }
    rewrite Hw, (Hu (p + 1)) by lia.
    eexists _, _, _, _, _. split; [reflexivity|]. simpl.
    split; [lia|].
    rewrite !sync_position_eq. simpl. fold h p.
    split; [reflexivity|]. split; [reflexivity|].
    rewrite Hh, Z_mod_same_full, Z_div_same_full by lia.
    rewrite (Z.div_small 1), (Z.mod_small 1) by lia.
    rewrite !Hu by lia. lia.
  - assert (Hlt : h < NBuffers) by lia.
    rewrite (Z.mod_small h) by lia.
    eexists _, _, _, _, _. split; [reflexivity|]. simpl.
    split; [lia|].
    rewrite !sync_position_eq. simpl. fold h p.
    split; [reflexivity|]. split; [reflexivity|].
    rewrite (Z.div_small h), (Z.mod_small h) by lia.
    assert (Hdiv' : 0 ≤ (h + 1) / NBuffers ≤ 1).
    { split; [apply Z.div_pos; lia|]. apply Z.div_le_upper_bound; lia. }
    pose proof (Z.div_mod (h + 1) NBuffers ltac:(lia)) as Hdm'.
    rewrite !Hu by lia. lia.
Qed.

Lemma clock_sweep_tick_advances_one_buffer_witness :
  ∃ s' start passes start' passes',
    ClockSweepTick Pool4.N (with_control (set_nextVictimBuffer 4) Pool4.two) =
      Ret (nextVictimBuffer
             (StrategyControl (with_control (set_nextVictimBuffer 4) Pool4.two))
           mod Pool4.N) s' ∧
    0 ≤ nextVictimBuffer (StrategyControl s') ≤ Pool4.N ∧
    sync_position Pool4.N (with_control (set_nextVictimBuffer 4) Pool4.two) =
      Some (start, Some passes) ∧
    sync_position Pool4.N s' = Some (start', Some passes') ∧
    passes' * Pool4.N + start' = passes * Pool4.N + start + 1.
Proof.
  apply (clock_sweep_tick_advances_one_buffer Pool4.N
           (with_control (set_nextVictimBuffer 4) Pool4.two));
    unfold Pool4.N; simpl; lia.
Defined.

(** ** Rings *)

(** X3.  In a pool of at least 8 buffers, the ring that
    [GetAccessStrategyWithSize] creates for a size of [kb] kilobytes has
    as many slots as [kb] holds whole pages, capped to an eighth of the
    pool; [GetAccessStrategyBufferCount] reports 0 exactly when no ring was
    created, which is when [kb] holds no whole page. *)
Theorem ring_size_is_capped NBuffers BLCKSZ kind kb :
  8 ≤ NBuffers → 1024 ≤ BLCKSZ → 0 ≤ kb →
  ∃ count,
    GetAccessStrategyBufferCount (GetAccessStrategyWithSize NBuffers BLCKSZ kind kb) = count ∧
    0 ≤ count ≤ NBuffers / 8 ∧
    count ≤ kb / (BLCKSZ / 1024) ∧
    (count < NBuffers / 8 → count = kb / (BLCKSZ / 1024)) ∧
    (count = 0 ↔ GetAccessStrategyWithSize NBuffers BLCKSZ kind kb = None) ∧
    (count = 0 ↔ kb < BLCKSZ / 1024).
Proof.
  intros HN HB Hkb.
  assert (Hq : 1 ≤ BLCKSZ / 1024) by (apply Z.div_le_lower_bound; lia).
  assert (H8 : 1 ≤ NBuffers / 8) by (apply Z.div_le_lower_bound; lia).
  assert (Hk : 0 ≤ kb / (BLCKSZ / 1024)) by (apply Z.div_pos; lia).
  assert (Hzero : kb / (BLCKSZ / 1024) = 0 ↔ kb < BLCKSZ / 1024).
  { rewrite Z.div_small_iff by lia. lia. }
  unfold GetAccessStrategyWithSize.
  rewrite (Z.quot_div_nonneg BLCKSZ 1024), (Z.quot_div_nonneg kb),
    (Z.quot_div_nonneg NBuffers 8) by lia.
  destruct (kb / (BLCKSZ / 1024) =? 0) eqn:Hz.
  - exists 0. simpl. repeat split; try lia; try reflexivity;
      intros; try (apply Hzero); lia.
  - eexists. split; [reflexivity|]. simpl. repeat split; try lia; try discriminate.
Qed.

Lemma ring_size_is_capped_witness :
  ∃ count,
    GetAccessStrategyBufferCount (GetAccessStrategyWithSize 128 8192 BAS_BULKWRITE 16384)
      = count ∧
    0 ≤ count ≤ 128 / 8 ∧
    count ≤ 16384 / (8192 / 1024) ∧
    (count < 128 / 8 → count = 16384 / (8192 / 1024)) ∧
    (count = 0 ↔ GetAccessStrategyWithSize 128 8192 BAS_BULKWRITE 16384 = None) ∧
    (count = 0 ↔ 16384 < 8192 / 1024).
Proof.
  apply (ring_size_is_capped 128 8192 BAS_BULKWRITE 16384); lia.
Defined.

(** X4.  [IOContextForStrategy] never reaches [pg_unreachable()] on what
    [GetAccessStrategy] returns: no ring gives the normal context, and a
    ring gives the context of the kind it was asked for.  A ring of kind
    NORMAL, which [GetAccessStrategyWithSize] does create when asked,
    takes [IOContextForStrategy] to [pg_unreachable()]. *)
Theorem io_context_of_created_strategy NBuffers BLCKSZ kind :
  ∃ ctx,
    IOContextForStrategy (GetAccessStrategy NBuffers BLCKSZ kind) = Some ctx ∧
    ctx = match GetAccessStrategy NBuffers BLCKSZ kind, kind with
          | None, _ => IOCONTEXT_NORMAL
          | Some _, BAS_BULKREAD => IOCONTEXT_BULKREAD
          | Some _, BAS_BULKWRITE => IOCONTEXT_BULKWRITE
          | Some _, _ => IOCONTEXT_VACUUM
          end ∧
    ∀ kb st, GetAccessStrategyWithSize NBuffers BLCKSZ BAS_NORMAL kb = Some st →
             IOContextForStrategy (Some st) = None.
Proof.
  assert (Hkind : ∀ k kb st,
    GetAccessStrategyWithSize NBuffers BLCKSZ k kb = Some st → btype st = k).
  { intros k kb st. unfold GetAccessStrategyWithSize.
    destruct (_ =? 0); [discriminate|]. intros [= <-]. reflexivity. }
  destruct kind; simpl.
  - exists IOCONTEXT_NORMAL. split; [reflexivity|]. split; [reflexivity|].
    intros kb st Hst. unfold IOContextForStrategy. rewrite (Hkind _ _ _ Hst). reflexivity.
  - destruct (GetAccessStrategyWithSize _ _ _ _) as [st|] eqn:Hst; simpl.
    + rewrite (Hkind _ _ _ Hst). eexists. split; [reflexivity|]. split; [reflexivity|].
      intros kb st' Hst'. unfold IOContextForStrategy. rewrite (Hkind _ _ _ Hst'). reflexivity.
    + eexists. split; [reflexivity|]. split; [reflexivity|].
      intros kb st' Hst'. unfold IOContextForStrategy. rewrite (Hkind _ _ _ Hst'). reflexivity.
  - destruct (GetAccessStrategyWithSize _ _ _ _) as [st|] eqn:Hst; simpl.
    + rewrite (Hkind _ _ _ Hst). eexists. split; [reflexivity|]. split; [reflexivity|].
      intros kb st' Hst'. unfold IOContextForStrategy. rewrite (Hkind _ _ _ Hst'). reflexivity.
    + eexists. split; [reflexivity|]. split; [reflexivity|].
      intros kb st' Hst'. unfold IOContextForStrategy. rewrite (Hkind _ _ _ Hst'). reflexivity.
  - destruct (GetAccessStrategyWithSize _ _ _ _) as [st|] eqn:Hst; simpl.
    + rewrite (Hkind _ _ _ Hst). eexists. split; [reflexivity|]. split; [reflexivity|].
      intros kb st' Hst'. unfold IOContextForStrategy. rewrite (Hkind _ _ _ Hst'). reflexivity.
    + eexists. split; [reflexivity|]. split; [reflexivity|].
      intros kb st' Hst'. unfold IOContextForStrategy. rewrite (Hkind _ _ _ Hst'). reflexivity.
Qed.

Lemma ring_slot_Some st i :
  ring_ok st → 0 ≤ i < nbuffers st → ∃ b, ring_slot st i = Some b ∧ b ∈ buffers st.
Proof.
  intros (Hn & Hlen & _) Hi. unfold ring_slot.
  destruct (i <? 0) eqn:Hneg; [lia|].
  destruct (buffers st !! Z.to_nat i) as [b|] eqn:Hb.
  - exists b. split; [reflexivity|]. eapply list_elem_of_lookup_2. exact Hb.
  - apply lookup_ge_None in Hb. lia.
Qed.

(** X5.  [GetBufferFromRing] on a ring whose slots hold buffer numbers of
    the pool, or none, returns and moves the cursor to the next slot, the
    first one after the last; it changes no slot of the ring, nothing in
    the control block, the list or the latches, and no index, free-list
    link, reference count or usage count of a descriptor.  When it gives a
    buffer, that is the one of the slot the cursor is now on, its
    reference count is zero and its usage count at most one, and these are
    the counters in the state word handed back. *)
Theorem ring_moves_to_the_next_slot st s :
  ring_ok st →
  (∀ b, b ∈ buffers st → 0 ≤ b ≤ Z.of_nat (length (BufferDescriptors s))) →
  ∃ r st' s',
    GetBufferFromRing st s = Ret (r, st') s' ∧
    StrategyControl s' = StrategyControl s ∧ elruStack s' = elruStack s ∧
    latches_set s' = latches_set s ∧ descriptors_keep_fields s s' ∧
    ring_ok st' ∧ buffers st' = buffers st ∧ nbuffers st' = nbuffers st ∧
    current st' = (current st + 1) mod nbuffers st ∧
    ∀ buf bs, r = Some (buf, bs) →
      ring_slot st' (current st') = Some (buf + 1) ∧
      ∃ d, BufferDescriptors s !! Z.to_nat buf = Some d ∧
           bs = (refcount d, usage_count d) ∧
           refcount d = 0 ∧ usage_count d ≤ 1.
Proof.
  intros Hok Hslots.
  cut (∃ r st',
    GetBufferFromRing st s = Ret (r, st') s ∧
    ring_ok st' ∧ buffers st' = buffers st ∧ nbuffers st' = nbuffers st ∧
    current st' = (current st + 1) mod nbuffers st ∧
    ∀ buf bs, r = Some (buf, bs) →
      ring_slot st' (current st') = Some (buf + 1) ∧
      ∃ d, BufferDescriptors s !! Z.to_nat buf = Some d ∧ bs = buf_state_of d ∧
           refcount d = 0 ∧ usage_count d ≤ 1).
  { intros (r & st' & Hret & Hrest). exists r, st', s. split; [exact Hret|].
    repeat (split; [reflexivity|]).
    split; [apply descriptors_keep_fields_eq; reflexivity | exact Hrest]. }
  pose proof Hok as (Hn & Hlen & Hcur).
  assert (Hadv : ring_advance st = (current st + 1) mod nbuffers st).
  { unfold ring_advance. destruct (current st + 1 >=? nbuffers st) eqn:Hge.
    - assert (current st + 1 = nbuffers st) as -> by lia.
      symmetry. apply Z_mod_same_full.
    - symmetry. apply Z.mod_small. lia. }
  assert (Hin : 0 ≤ ring_advance st < nbuffers st).
  { rewrite Hadv. apply Z.mod_pos_bound. exact Hn. }
  set (st' := set_current (ring_advance st) st).
  assert (Hok' : ring_ok st') by (split; [|split]; assumption).
  destruct (ring_slot_Some st' (current st') Hok' Hin) as (b & Hb & Hbin).
  unfold GetBufferFromRing. cbv zeta. fold st'. rewrite Hb.
  assert (Hrest : ∀ (P : Prop), P →
    ring_ok st' ∧ buffers st' = buffers st ∧ nbuffers st' = nbuffers st ∧
    current st' = (current st + 1) mod nbuffers st ∧ P).
  { intros P HP. split; [exact Hok'|]. split; [reflexivity|]. split; [reflexivity|].
    split; [exact Hadv | exact HP]. }
  destruct (b =? InvalidBuffer) eqn:Hz.
  - exists None, st'. split; [reflexivity|]. apply Hrest. intros buf bs [=].
  - pose proof (Hslots b Hbin) as Hrange. unfold InvalidBuffer in Hz.
    assert (Hidx : desc_index (b - 1) = Some (Z.to_nat (b - 1))).
    { unfold desc_index. destruct (b - 1 <? 0) eqn:Hneg; [lia | reflexivity]. }
    destruct (BufferDescriptors s !! Z.to_nat (b - 1)) as [d|] eqn:Hd;
      [|apply lookup_ge_None in Hd; lia].
    unfold bind, rd_desc, ret. rewrite Hidx, Hd.
    destruct ((refcount d =? 0) && (usage_count d <=? 1)) eqn:Huse.
    + exists (Some (b - 1, buf_state_of d)), st'. split; [reflexivity|].
      apply Hrest. intros buf bs [= <- <-]. split.
      * change (ring_slot st' (ring_advance st)) with (ring_slot st' (current st')).
        rewrite Hb. f_equal. lia.
      * exists d. apply andb_prop in Huse as [H1 H2].
        split; [exact Hd|]. split; [reflexivity|]. lia.
    + exists None, st'. split; [reflexivity|]. apply Hrest. intros buf bs [=].
Qed.

Lemma ring_moves_to_the_next_slot_witness :
  ∃ r st' s',
    GetBufferFromRing Pool4.ring Pool4.two = Ret (r, st') s' ∧
    StrategyControl s' = StrategyControl Pool4.two ∧ elruStack s' = elruStack Pool4.two ∧
    latches_set s' = latches_set Pool4.two ∧ descriptors_keep_fields Pool4.two s' ∧
    ring_ok st' ∧ buffers st' = buffers Pool4.ring ∧ nbuffers st' = nbuffers Pool4.ring ∧
    current st' = (current Pool4.ring + 1) mod nbuffers Pool4.ring ∧
    ∀ buf bs, r = Some (buf, bs) →
      ring_slot st' (current st') = Some (buf + 1) ∧
      ∃ d, BufferDescriptors Pool4.two !! Z.to_nat buf = Some d ∧
           bs = (refcount d, usage_count d) ∧
           refcount d = 0 ∧ usage_count d ≤ 1.
Proof.
  apply (ring_moves_to_the_next_slot Pool4.ring Pool4.two).
  - unfold ring_ok. simpl. lia.
  - intros b Hb. simpl in Hb.
    apply elem_of_cons in Hb as [->|Hb]; [simpl; lia|].
    apply list_elem_of_singleton in Hb as ->. simpl. lia.
Defined.

(** X6.  [AddBufferToRing] stores the buffer number of the descriptor in
    the slot under the cursor.  [StrategyRejectBuffer] then refuses the
    buffer only for a bulk-read ring and a buffer that came from the ring:
    it empties the slot and returns true, and asked again about the same
    buffer it returns false, the slot being empty; in every other case it
    returns false and leaves the ring as it is.  Neither function writes to
    the shared state. *)
Theorem reject_empties_the_current_slot
    (BufferDescriptorGetBuffer : BufferDesc → Z) st buf i d s :
  ring_ok st → desc_index buf = Some i → BufferDescriptors s !! i = Some d →
  ∃ st1 st2,
    AddBufferToRing BufferDescriptorGetBuffer st buf s = Ret st1 s ∧
    ring_slot st1 (current st1) = Some (BufferDescriptorGetBuffer d) ∧
    StrategyRejectBuffer BufferDescriptorGetBuffer (Some st1) buf false s =
      Ret (false, st1) s ∧
    StrategyRejectBuffer BufferDescriptorGetBuffer (Some st1) buf true s =
      match btype st with
      | BAS_BULKREAD => Ret (true, st2) s
      | _ => Ret (false, st1) s
      end ∧
    ring_slot st2 (current st2) = Some InvalidBuffer ∧
    btype st2 = btype st ∧
    (BufferDescriptorGetBuffer d ≠ InvalidBuffer →
     StrategyRejectBuffer BufferDescriptorGetBuffer (Some st2) buf true s =
       Ret (false, st2) s).
Proof.
  intros Hok Hi Hd. pose proof Hok as (Hn & Hlen & Hcur).
  set (G := BufferDescriptorGetBuffer).
  destruct (ring_slot_Some st (current st) Hok Hcur) as (b0 & Hb0 & _).
  assert (Hlt : (Z.to_nat (current st) < length (buffers st))%nat) by lia.
  assert (Hneg : (current st <? 0) = false) by lia.
  set (st1 := mkStrategy (btype st) (nbuffers st) (current st)
                (<[Z.to_nat (current st):=G d]> (buffers st))).
  set (st2 := mkStrategy (btype st) (nbuffers st) (current st)
                (<[Z.to_nat (current st):=InvalidBuffer]> (buffers st1))).
  assert (Hs1 : ring_slot st1 (current st1) = Some (G d)).
  { unfold ring_slot. simpl. rewrite Hneg. apply list_lookup_insert_eq. exact Hlt. }
  assert (Hs2 : ring_slot st2 (current st2) = Some InvalidBuffer).
  { unfold ring_slot. simpl. rewrite Hneg. apply list_lookup_insert_eq.
    rewrite length_insert. exact Hlt. }
  assert (Hclear : set_ring_slot (current st1) InvalidBuffer st1 = Some st2).
  { unfold set_ring_slot. rewrite Hs1. reflexivity. }
  exists st1, st2. split; [|split; [exact Hs1|split; [|split; [|split; [exact Hs2|split]]]]].
  - unfold AddBufferToRing, bind, rd_desc. rewrite Hi, Hd.
    unfold set_ring_slot. rewrite Hb0. reflexivity.
  - unfold StrategyRejectBuffer. simpl. destruct (btype st); reflexivity.
  - unfold StrategyRejectBuffer.
    change (btype st1) with (btype st). destruct (btype st); try reflexivity.
    cbn [negb]. rewrite Hs1. unfold bind, rd_desc. rewrite Hi, Hd.
    fold G. rewrite Z.eqb_refl. cbn [negb]. rewrite Hclear. reflexivity.
  - reflexivity.
  - intros Hvalid. unfold StrategyRejectBuffer.
    change (btype st2) with (btype st). destruct (btype st); try reflexivity.
    cbn [negb]. rewrite Hs2. unfold bind, rd_desc. rewrite Hi, Hd. fold G.
    destruct (InvalidBuffer =? G d) eqn:Heq; [lia | reflexivity].
Qed.

Lemma reject_empties_the_current_slot_witness :
  ∃ st1 st2,
    AddBufferToRing (fun d => buf_id d + 1) Pool4.ring 1 Pool4.two = Ret st1 Pool4.two ∧
    ring_slot st1 (current st1) = Some 2 ∧
    StrategyRejectBuffer (fun d => buf_id d + 1) (Some st1) 1 false Pool4.two =
      Ret (false, st1) Pool4.two ∧
    StrategyRejectBuffer (fun d => buf_id d + 1) (Some st1) 1 true Pool4.two =
      match btype Pool4.ring with
      | BAS_BULKREAD => Ret (true, st2) Pool4.two
      | _ => Ret (false, st1) Pool4.two
      end ∧
    ring_slot st2 (current st2) = Some InvalidBuffer ∧
    btype st2 = btype Pool4.ring ∧
    (2 ≠ InvalidBuffer →
     StrategyRejectBuffer (fun d => buf_id d + 1) (Some st2) 1 true Pool4.two =
       Ret (false, st2) Pool4.two).
Proof.
  apply (reject_empties_the_current_slot (fun d => buf_id d + 1) Pool4.ring 1 1%nat
           (mkBufferDesc 1 Pool4.NOT_IN_LIST 0 0) Pool4.two).
  - unfold ring_ok. simpl. lia.
  - reflexivity.
  - vm_compute. reflexivity.
Defined.

Lemma victim_loop_not_from_ring NBuffers now fuel : ∀ victim s,
  wp (victim_loop NBuffers fuel now victim)
     (fun r _ => ∀ buf bs fr, r = Returned buf bs fr → fr = false)
     (fun _ _ => True) s.
Proof.
  induction fuel as [|fuel IH]; intros victim s; simpl; [exact Logic.I|].
  destruct victim as [v|]; [|apply wp_ret; discriminate].
  wp_read n Hn.
  apply wp_bind, wp_rd_desc. intros i d Hi Hd.
  destruct (_ =? 0).
  - wp_write n1 Hn1. wp_write n2 Hn2. apply wp_bind.
    eapply wp_mono; [apply (wp_preserves (fun _ => True)) | | auto].
    + intros s0 _. unfold wp. destruct (StrategyAccessBuffer _ _ _ _ _); exact Logic.I.
    + exact Logic.I.
    + intros a s' _. exact Logic.I.
    + intros e s' _. exact Logic.I.
    + intros _ s' _. apply wp_ret. intros buf bs fr [= _ _ <-]. reflexivity.
  - apply wp_bind, wp_ctl. wp_read nt Hnt.
    destruct (_ =? _); [exact Logic.I|].
    wp_read nv Hnv. apply IH.
Qed.

Lemma with_ring_bind {A B C} (o : C) (m : M A) (k : A → M (B * C)) s :
  with_ring o (bind m k s) = bind m (fun a s' => with_ring o (k a s')) s.
Proof. unfold bind. destruct (m s); reflexivity. Qed.

Lemma bind_ext {A B} (m : M A) (k k' : A → M B) s :
  (∀ a s', k a s' = k' a s') → bind m k s = bind m k' s.
Proof. intros H. unfold bind. destruct (m s); auto. Qed.

(** What [StrategyGetBuffer] does once the ring has given nothing does not
    depend on the ring. *)
Lemma StrategyGetBuffer_without_ring NBuffers NOT_IN_LIST now st s :
  (ring <- ret (@None (Z * (Z * Z)), Some st) ;;
   match fst ring with
   | Some (buf, buf_state) =>
     id <- rd_desc buf buf_id ;;
     StrategyAccessBuffer NBuffers id false now ;;
     ret (Returned buf buf_state true, snd ring)
   | None =>
     bgw <- ctl bgwprocno ;;
     (if negb (bgw =? -1)
      then set_ctl (set_bgwprocno (-1)) ;; modify (with_latch bgw)
      else ret tt) ;;
     allocs <- ctl numBufferAllocs ;;
     set_ctl (set_numBufferAllocs (to_uint32 (allocs + 1))) ;;
     first <- ctl firstFreeBuffer ;;
     free <- (if first >=? 0
              then n <- gets (fun s => length (BufferDescriptors s)) ;;
                   freelist_loop NBuffers NOT_IN_LIST (S (S n)) now
              else ret None) ;;
     match free with
     | Some (buf, buf_state) => ret (Returned buf buf_state false, snd ring)
     | None =>
       victim <- ctl stackBottom ;;
       n <- gets (fun s => length (elruStack s)) ;;
       r <- victim_loop NBuffers (S n) now victim ;;
       ret (r, snd ring)
     end
   end) s =
  with_ring (Some st) (StrategyGetBuffer NBuffers NOT_IN_LIST None now s).
Proof.
  unfold StrategyGetBuffer.
  change (bind (ret ?x) ?k s) with (k x s). cbn [fst snd].
  do 6 (rewrite with_ring_bind; apply bind_ext; intros ? ?).
  destruct a4 as [[buf bs]|]; [reflexivity|].
  do 3 (rewrite with_ring_bind; apply bind_ext; intros ? ?).
  reflexivity.
Qed.

(** X7.  Nothing in the file fills a ring: [AddBufferToRing] is never
    called.  So a ring whose slots are all empty, as
    [GetAccessStrategy] creates it, stays so through [StrategyGetBuffer]
    and [StrategyRejectBuffer], and makes no difference to
    [StrategyGetBuffer]: the call ends as it does without a ring, in the
    same state and with the same result, which never says that the buffer
    came from the ring. *)
Theorem unfilled_ring_gives_nothing
    (BufferDescriptorGetBuffer : BufferDesc → Z) NBuffers NOT_IN_LIST st now s :
  ring_ok st → ring_unfilled st →
  ∃ st',
    ring_ok st' ∧ ring_unfilled st' ∧
    StrategyGetBuffer NBuffers NOT_IN_LIST (Some st) now s =
      with_ring (Some st') (StrategyGetBuffer NBuffers NOT_IN_LIST None now s) ∧
    (∀ buf bs fr o s',
       StrategyGetBuffer NBuffers NOT_IN_LIST (Some st) now s =
         Ret (Returned buf bs fr, o) s' → fr = false) ∧
    (∀ buf fr r s',
       StrategyRejectBuffer BufferDescriptorGetBuffer (Some st) buf fr s = Ret r s' →
       ring_ok (snd r) ∧ ring_unfilled (snd r) ∧ s' = s).
Proof.
  intros Hok Hempty. pose proof Hok as (Hn & Hlen & Hcur).
  assert (Hin : 0 ≤ ring_advance st < nbuffers st).
  { unfold ring_advance. destruct (_ >=? _) eqn:Hge; lia. }
  set (st' := set_current (ring_advance st) st).
  assert (Hok' : ring_ok st') by (split; [|split]; assumption).
  assert (Hslot : ∀ st0 i b, ring_unfilled st0 → ring_slot st0 i = Some b → b = InvalidBuffer).
  { intros st0 i b H0 Hb. unfold ring_slot in Hb. destruct (i <? 0); [discriminate|].
    unfold ring_unfilled in H0. rewrite Forall_forall in H0. apply H0.
    eapply list_elem_of_lookup_2. exact Hb. }
  destruct (ring_slot_Some st' (current st') Hok' Hin) as (b & Hb & _).
  assert (b = InvalidBuffer) as -> by (eapply (Hslot st'); [exact Hempty | exact Hb]).
  assert (Hring : GetBufferFromRing st s = Ret (None, st') s).
  { unfold GetBufferFromRing. cbv zeta. fold st'. rewrite Hb. reflexivity. }
  assert (Heq : StrategyGetBuffer NBuffers NOT_IN_LIST (Some st) now s =
                with_ring (Some st')
                  (StrategyGetBuffer NBuffers NOT_IN_LIST None now s)).
  { rewrite <- StrategyGetBuffer_without_ring.
    unfold StrategyGetBuffer. unfold bind at 1. unfold bind at 1. rewrite Hring.
    reflexivity. }
  exists st'. split; [exact Hok'|]. split; [exact Hempty|]. split; [exact Heq|]. split.
  - intros buf bs fr o s' Hret. rewrite Heq in Hret.
    destruct (StrategyGetBuffer NBuffers NOT_IN_LIST None now s) as [[r o'] s1| | |] eqn:Hnone;
      try discriminate.
    injection Hret as -> _ _.
    revert Hnone. unfold StrategyGetBuffer.
    intros Hnone. apply bind_Ret in Hnone as (ring & s0 & [= <- <-] & Hnone).
    cbn [fst snd] in Hnone.
    apply bind_Ret in Hnone as (bgw & s2 & _ & Hnone).
    apply bind_Ret in Hnone as (u & s3 & _ & Hnone).
    apply bind_Ret in Hnone as (allocs & s4 & _ & Hnone).
    apply bind_Ret in Hnone as (u' & s5 & _ & Hnone).
    apply bind_Ret in Hnone as (first & s6 & _ & Hnone).
    apply bind_Ret in Hnone as (free & s7 & _ & Hnone).
    destruct free as [[buf1 bs1]|].
    + unfold ret in Hnone. congruence.
    + apply bind_Ret in Hnone as (victim & s8 & _ & Hnone).
      apply bind_Ret in Hnone as (n & s9 & _ & Hnone).
      apply bind_Ret in Hnone as (r & s10 & Hloop & Hnone).
      unfold ret in Hnone. assert (r = Returned buf bs fr) as -> by congruence.
      eapply (wp_Ret _ _ _ _ _ _ (victim_loop_not_from_ring _ _ _ _ _) Hloop). reflexivity.
  - intros buf fr r s' Hret. unfold StrategyRejectBuffer in Hret.
    assert (Hsame : ∀ b0, Ret (b0, st) s = Ret r s' →
                          ring_ok (snd r) ∧ ring_unfilled (snd r) ∧ s' = s).
    { intros b0 [= <- <-]. auto. }
    destruct (btype st); try (eapply Hsame; exact Hret).
    destruct (negb fr); [eapply Hsame; exact Hret|].
    destruct (ring_slot st (current st)) as [slot|] eqn:Hs; [|discriminate].
    apply bind_Ret in Hret as (bufnum & s1 & Hrd & Hret).
    assert (s1 = s) as ->.
    { unfold rd_desc in Hrd. destruct (desc_index buf); [|discriminate].
      destruct (BufferDescriptors s !! n); [|discriminate]. injection Hrd as _ <-. reflexivity. }
    destruct (negb (slot =? bufnum)); [eapply Hsame; exact Hret|].
    unfold set_ring_slot in Hret. rewrite Hs in Hret.
    injection Hret as <- <-. simpl. split; [|split; [|reflexivity]].
    + split; [exact Hn|]. split; [|exact Hcur]. simpl. rewrite length_insert. exact Hlen.
    + unfold ring_unfilled. simpl.
      rewrite (list_insert_id (buffers st)); [exact Hempty|].
      assert (slot = InvalidBuffer) as <- by (eapply (Hslot st); eassumption).
      unfold ring_slot in Hs. destruct (current st <? 0); [discriminate | exact Hs].
Qed.

Lemma unfilled_ring_gives_nothing_witness :
  ∃ st',
    ring_ok st' ∧ ring_unfilled st' ∧
    StrategyGetBuffer Pool4.N Pool4.NOT_IN_LIST
      (Some (mkStrategy BAS_BULKREAD 2 0 [0; 0])) 30 Pool4.two =
      with_ring (Some st')
        (StrategyGetBuffer Pool4.N Pool4.NOT_IN_LIST None 30 Pool4.two) ∧
    (∀ buf bs fr o s',
       StrategyGetBuffer Pool4.N Pool4.NOT_IN_LIST
         (Some (mkStrategy BAS_BULKREAD 2 0 [0; 0])) 30 Pool4.two =
         Ret (Returned buf bs fr, o) s' → fr = false) ∧
    (∀ buf fr r s',
       StrategyRejectBuffer (fun d => buf_id d + 1)
         (Some (mkStrategy BAS_BULKREAD 2 0 [0; 0])) buf fr Pool4.two = Ret r s' →
       ring_ok (snd r) ∧ ring_unfilled (snd r) ∧ s' = Pool4.two).
Proof.
  apply (unfilled_ring_gives_nothing (fun d => buf_id d + 1) Pool4.N Pool4.NOT_IN_LIST
           (mkStrategy BAS_BULKREAD 2 0 [0; 0]) 30 Pool4.two).
  - unfold ring_ok. simpl. lia.
  - unfold ring_unfilled. simpl. repeat constructor.
Defined.

(** ** The clock *)

(** X8.  For a clock that has run for less than 2^33 seconds,
    [getCurrentTimeNanoseconds] is the number of nanoseconds the
    [timespec] stands for; it is never negative, so a node stamped with it
    is never taken for a removed one, and two readings compare as the
    clock values do. *)
Theorem clock_reading_is_never_nil ts ts' (n : BufferNode) :
  0 ≤ tv_sec ts < 2^33 → 0 ≤ tv_nsec ts < 1000000000 →
  0 ≤ tv_sec ts' < 2^33 → 0 ≤ tv_nsec ts' < 1000000000 →
  getCurrentTimeNanoseconds ts = tv_sec ts * 1000000000 + tv_nsec ts ∧
  0 ≤ getCurrentTimeNanoseconds ts ∧
  isRemovedNode (set_last_accessed (getCurrentTimeNanoseconds ts) n) = false ∧
  (getCurrentTimeNanoseconds ts < getCurrentTimeNanoseconds ts' ↔
   tv_sec ts < tv_sec ts' ∨ (tv_sec ts = tv_sec ts' ∧ tv_nsec ts < tv_nsec ts')).
Proof.
  intros Hs Hn Hs' Hn'.
  assert (H64 : ∀ z, - 2^63 ≤ z < 2^63 → to_int64 z = z).
  { intros z Hz. unfold to_int64. rewrite Z.mod_small; lia. }
  assert (Heq : ∀ t, 0 ≤ tv_sec t < 2^33 → 0 ≤ tv_nsec t < 1000000000 →
                     getCurrentTimeNanoseconds t = tv_sec t * 1000000000 + tv_nsec t).
  { intros t Ht1 Ht2. unfold getCurrentTimeNanoseconds.
    rewrite (H64 (tv_sec t * 1000000000)) by lia. apply H64. lia. }
  rewrite (Heq ts Hs Hn), (Heq ts' Hs' Hn').
  split; [reflexivity|]. split; [lia|]. split; [|lia].
  unfold isRemovedNode, TIMESTAMP_NIL. simpl.
  destruct (_ =? -1) eqn:Hnil; [lia | reflexivity].
Qed.

Lemma clock_reading_is_never_nil_witness :
  getCurrentTimeNanoseconds (mkTimespec 4 5) = 4 * 1000000000 + 5 ∧
  0 ≤ getCurrentTimeNanoseconds (mkTimespec 4 5) ∧
  isRemovedNode (set_last_accessed (getCurrentTimeNanoseconds (mkTimespec 4 5))
                   (mkBufferNode 0 None None TIMESTAMP_NIL TIMESTAMP_NIL)) = false ∧
  (getCurrentTimeNanoseconds (mkTimespec 4 5) < getCurrentTimeNanoseconds (mkTimespec 4 6) ↔
   4 < 4 ∨ (4 = 4 ∧ 5 < 6)).
Proof.
  apply (clock_reading_is_never_nil (mkTimespec 4 5) (mkTimespec 4 6)
           (mkBufferNode 0 None None TIMESTAMP_NIL TIMESTAMP_NIL)); simpl; lia.
Defined.

(** ** The wake-up of the background writer *)

Lemma acquire_sets_latch NBuffers NOT_IN_LIST now s :
  let expected := if bgwprocno (StrategyControl s) =? -1 then latches_set s
                  else bgwprocno (StrategyControl s) :: latches_set s in
  wp (StrategyGetBuffer NBuffers NOT_IN_LIST None now)
     (fun _ s' => latches_set s' = expected ∧ bgwprocno (StrategyControl s') = -1)
     (fun _ s' => latches_set s' = expected ∧ bgwprocno (StrategyControl s') = -1) s.
Proof.
  intros expected. unfold StrategyGetBuffer.
  wp_step. wp_step. cbn [fst snd]. wp_step. wp_step. wp_step.
  assert (Hpre : ∀ (Q : unit -> State -> Prop) E,
             (∀ s1, latches_set s1 = expected ∧ bgwprocno (StrategyControl s1) = -1 →
                    Q tt s1) →
             wp (if negb (bgwprocno (StrategyControl s) =? -1)
                 then set_ctl (set_bgwprocno (-1)) ;;
                      modify (with_latch (bgwprocno (StrategyControl s)))
                 else ret tt) Q E s).
  { intros Q E HQ. subst expected.
    destruct (bgwprocno (StrategyControl s) =? -1) eqn:Hp; cbn [negb].
    - wp_step. apply HQ. split; [reflexivity | lia].
    - wp_step. wp_step. wp_step. apply HQ. split; reflexivity. }
  apply Hpre. intros s1 Hs1.
  wp_step. wp_step. wp_step. wp_step.
  eapply wp_preserves.
  - apply (preserves_after_count
             (I := fun s' => latches_set s' = expected ∧ bgwprocno (StrategyControl s') = -1));
      intros; assumption.
  - exact Hs1.
  - auto.
  - auto.
Qed.

(** X9.  A notification is delivered once.  After
    [StrategyNotifyBgWriter(p)], the next [StrategyGetBuffer] without a
    ring sets the latch of process [p] and clears the request, whether it
    returns or ends in an error, and the acquisition after it sets no
    latch; [StrategyNotifyBgWriter(-1)] withdraws the request, and no latch
    is set at all. *)
Theorem bgwriter_is_woken_once NBuffers NOT_IN_LIST p t1 t2 s s1 s2 :
  state_after ((StrategyNotifyBgWriter p ;;
                StrategyGetBuffer NBuffers NOT_IN_LIST None t1) s) = Some s1 →
  state_after (StrategyGetBuffer NBuffers NOT_IN_LIST None t2 s1) = Some s2 →
  latches_set s1 = (if p =? -1 then latches_set s else p :: latches_set s) ∧
  bgwprocno (StrategyControl s1) = -1 ∧
  latches_set s2 = latches_set s1 ∧
  bgwprocno (StrategyControl s2) = -1.
Proof.
  intros H1 H2.
  assert (Hafter : ∀ now s0 s', 
    state_after (StrategyGetBuffer NBuffers NOT_IN_LIST None now s0) = Some s' →
    latches_set s' = (if bgwprocno (StrategyControl s0) =? -1 then latches_set s0
                      else bgwprocno (StrategyControl s0) :: latches_set s0) ∧
    bgwprocno (StrategyControl s') = -1).
  { intros now s0 s' Hs'.
    pose proof (acquire_sets_latch NBuffers NOT_IN_LIST now s0) as Hwp.
    cbv zeta in Hwp. unfold wp in Hwp. revert Hs' Hwp.
    destruct (StrategyGetBuffer NBuffers NOT_IN_LIST None now s0); simpl; intros Hs' Hwp;
      try discriminate; injection Hs' as <-; exact Hwp. }
  change ((StrategyNotifyBgWriter p ;; StrategyGetBuffer NBuffers NOT_IN_LIST None t1) s)
    with (StrategyGetBuffer NBuffers NOT_IN_LIST None t1 (with_control (set_bgwprocno p) s))
    in H1.
  destruct (Hafter _ _ _ H1) as [Hl1 Hb1]. simpl in Hl1.
  destruct (Hafter _ _ _ H2) as [Hl2 Hb2]. rewrite Hb1 in Hl2. simpl in Hl2.
  auto.
Qed.

Lemma bgwriter_is_woken_once_witness :
  latches_set (Pool4.after [OpNotify 7; OpAcquire None 30] Pool4.two) =
    (if 7 =? -1 then latches_set Pool4.two else 7 :: latches_set Pool4.two) ∧
  bgwprocno (StrategyControl (Pool4.after [OpNotify 7; OpAcquire None 30] Pool4.two)) = -1 ∧
  latches_set (Pool4.after [OpNotify 7; OpAcquire None 30; OpAcquire None 40] Pool4.two) =
    latches_set (Pool4.after [OpNotify 7; OpAcquire None 30] Pool4.two) ∧
  bgwprocno (StrategyControl
               (Pool4.after [OpNotify 7; OpAcquire None 30; OpAcquire None 40] Pool4.two)) = -1.
Proof.
  apply (bgwriter_is_woken_once Pool4.N Pool4.NOT_IN_LIST 7 30 40 Pool4.two
           (Pool4.after [OpNotify 7; OpAcquire None 30] Pool4.two)
           (Pool4.after [OpNotify 7; OpAcquire None 30; OpAcquire None 40] Pool4.two));
    vm_compute; reflexivity.
Defined.

(** ** What an access does to the state *)

(** Code that raises no error. *)
Lemma quiet_bind {A B} (m : M A) (k : A → M B) s :
  wp m (fun _ _ => True) (fun _ _ => False) s →
  (∀ a s', wp (k a) (fun _ _ => True) (fun _ _ => False) s') →
  wp (bind m k) (fun _ _ => True) (fun _ _ => False) s.
Proof.
  intros Hm Hk. apply wp_bind. eapply wp_mono; [exact Hm | | auto].
  intros a s' _. apply Hk.
Qed.

Ltac quiet_step :=
  lazymatch goal with
  | |- wp (bind _ _) _ _ _ => apply quiet_bind; [| intros ? ?]
  | |- wp (ret _) _ _ _ => exact Logic.I
  | |- wp (gets _) _ _ _ => exact Logic.I
  | |- wp (ctl _) _ _ _ => exact Logic.I
  | |- wp (set_ctl _) _ _ _ => exact Logic.I
  | |- wp (modify _) _ _ _ => exact Logic.I
  | |- wp (rd _ _) _ _ _ => apply wp_rd; intros; exact Logic.I
  | |- wp (wr _ _) _ _ _ => apply wp_wr; intros; exact Logic.I
  | |- wp fault _ _ _ => exact Logic.I
  | |- wp diverge _ _ _ => exact Logic.I
  | |- wp (if ?b then _ else _) _ _ _ => destruct b
  | |- wp (match ?x with _ => _ end) _ _ _ => destruct x
  end.

Lemma quiet_processStack_loop fuel : ∀ node current s,
  wp (processStack_loop fuel node current) (fun _ _ => True) (fun _ _ => False) s.
Proof.
  induction fuel as [|fuel IH]; intros node current s; simpl; [exact Logic.I|].
  unfold compare_at, link_below. repeat quiet_step. apply IH.
Qed.

Lemma quiet_walk_to_top fuel : ∀ temp s,
  wp (walk_to_top fuel temp) (fun _ _ => True) (fun _ _ => False) s.
Proof.
  induction fuel as [|fuel IH]; intros temp s; simpl; [exact Logic.I|].
  repeat quiet_step. apply IH.
Qed.

Lemma quiet_processStackBottomToTop node s :
  wp (processStackBottomToTop node) (fun _ _ => True) (fun _ _ => False) s.
Proof.
  unfold processStackBottomToTop. repeat quiet_step. apply quiet_processStack_loop.
Qed.

(** X10.  [StrategyAccessBuffer] ends in an error exactly when the index
    is outside the pool; the error is "Invalid buffer index" and is raised
    before anything is written. *)
Theorem access_checks_the_index NBuffers id del now s :
  ((id < 0 ∨ NBuffers ≤ id) →
   StrategyAccessBuffer NBuffers id del now s = Elog InvalidBufferIndex s) ∧
  (∀ e s', StrategyAccessBuffer NBuffers id del now s = Elog e s' →
           id < 0 ∨ NBuffers ≤ id).
Proof.
  unfold StrategyAccessBuffer.
  destruct ((id <? 0) || (id >=? NBuffers)) eqn:Hrange.
  - split; [reflexivity|]. intros _ _ _. lia.
  - split; [lia|]. cbv beta iota zeta. intros e s' Hraise. exfalso.
    assert (Hquiet : wp
      (prev_last_accessed <- rd (Some (Z.to_nat id)) last_accessed ;;
       wr (Some (Z.to_nat id)) (set_last_accessed now) ;;
       wr (Some (Z.to_nat id)) (set_second_last_accessed prev_last_accessed) ;;
       cp <- rd (Some (Z.to_nat id)) prev ;;
       cn <- rd (Some (Z.to_nat id)) next ;;
       absent <- match cp, cn with
                 | None, None => top_is_not id
                 | _, _ => ret false
                 end ;;
       if absent then processStackBottomToTop (Some (Z.to_nat id))
       else
         unlink_resident id (Some (Z.to_nat id)) ;;
         processStackBottomToTop (Some (Z.to_nat id)))
      (fun _ _ => True) (fun _ _ => False) s).
    { unfold top_is_not, unlink_resident.
      repeat quiet_step;
        first [apply quiet_processStackBottomToTop | apply quiet_walk_to_top]. }
    unfold wp in Hquiet. rewrite Hraise in Hquiet. exact Hquiet.
Qed.

Lemma node_ids_insert (ns : list BufferNode) (i : nat) n n' :
  ns !! i = Some n → node_id n' = node_id n →
  node_id <$> <[i:=n']> ns = node_id <$> ns.
Proof.
  intros Hn Hid. rewrite list_fmap_insert. apply list_insert_id.
  rewrite list_lookup_fmap, Hn. simpl. congruence.
Qed.

(** X11.  However an access ends, it has written to the list only: the
    descriptors, the free list, the clock hand, the counters, the pending
    notification and the latches are as before, and every node keeps its
    [node_id]. *)
Theorem access_writes_only_the_list NBuffers id del now s s' :
  state_after (StrategyAccessBuffer NBuffers id del now s) = Some s' →
  off_list s' = off_list s ∧
  node_id <$> elruStack s' = node_id <$> elruStack s.
Proof.
  intros Hs'.
  eapply (preserves_state_after
            (fun s0 => off_list s0 = off_list s ∧
                       node_id <$> elruStack s0 = node_id <$> elruStack s));
    [| split; reflexivity | exact Hs'].
  apply preserves_StrategyAccessBuffer;
    try (intros v s0 i n [Hoff Hids] Hn; split; [exact Hoff|]; simpl;
         rewrite <- Hids; eapply node_ids_insert; [exact Hn | reflexivity]);
    intros v s0 [Hoff Hids]; split; assumption.
Qed.

Lemma access_writes_only_the_list_witness :
  off_list (Pool4.after [OpTouch 0 30] Pool4.two) = off_list Pool4.two ∧
  node_id <$> elruStack (Pool4.after [OpTouch 0 30] Pool4.two) =
    node_id <$> elruStack Pool4.two.
Proof.
  apply (access_writes_only_the_list Pool4.N 0 false 30 Pool4.two
           (Pool4.after [OpTouch 0 30] Pool4.two)).
  vm_compute. reflexivity.
Defined.

(** X12.  An access that returns has moved the history of its node one
    step: the time of the call is the last access, the last access before is
    the second last.  The timestamps of the other nodes are as before. *)
Theorem access_shifts_the_timestamps NBuffers id del now s s' :
  StrategyAccessBuffer NBuffers id del now s = Ret tt s' →
  0 ≤ id < NBuffers ∧
  ∃ n n', elruStack s !! Z.to_nat id = Some n ∧
          elruStack s' !! Z.to_nat id = Some n' ∧
          last_accessed n' = now ∧
          second_last_accessed n' = last_accessed n ∧
          ∀ a, a ≠ Z.to_nat id →
               stamps <$> elruStack s' !! a = stamps <$> elruStack s !! a.
Proof.
  intros Hret.
  assert (Hwp : wp (StrategyAccessBuffer NBuffers id del now)
    (fun _ s' => 0 ≤ id < NBuffers ∧
       ∃ n n', elruStack s !! Z.to_nat id = Some n ∧
               elruStack s' !! Z.to_nat id = Some n' ∧
               last_accessed n' = now ∧
               second_last_accessed n' = last_accessed n ∧
               ∀ a, a ≠ Z.to_nat id →
                    stamps <$> elruStack s' !! a = stamps <$> elruStack s !! a)
    (fun _ _ => True) s).
  { unfold StrategyAccessBuffer.
    destruct (_ || _) eqn:Hrange; [exact Logic.I|].
    cbv beta iota zeta.
    wp_read n Hn. wp_write n1 Hn1. wp_write n2 Hn2.
    assert (n1 = n) as -> by congruence.
    simpl in Hn2.
    rewrite list_lookup_insert_eq in Hn2 by (eapply lookup_lt_Some; eassumption).
    injection Hn2 as <-.
    match goal with |- wp _ _ _ ?s2 => set (s2' := s2) end.
    assert (Hx : elruStack s2' !! Z.to_nat id =
                 Some (set_second_last_accessed (last_accessed n) (set_last_accessed now n))).
    { subst s2'. simpl. apply list_lookup_insert_eq. rewrite length_insert.
      eapply lookup_lt_Some; eassumption. }
    assert (Hother : ∀ a, a ≠ Z.to_nat id → elruStack s2' !! a = elruStack s !! a).
    { intros a Ha. subst s2'. simpl. rewrite !list_lookup_insert_ne by congruence.
      reflexivity. }
    clearbody s2'.
    eapply (wp_preserves (same_stamps (stamps <$> elruStack s2'))).
    - preserves_auto ltac:(first [apply same_stamps_set_prev | apply same_stamps_set_next]);
        first [apply preserves_top_is_not | apply preserves_processStackBottomToTop
              | apply preserves_unlink_resident];
        first [apply same_stamps_set_prev | apply same_stamps_set_next | (intros; assumption)].
    - reflexivity.
    - intros _ s3 Hs3. split; [lia|].
      destruct (same_stamps_lookup _ s2' s3 _ _ eq_refl Hs3 Hx) as (n' & Hn' & Hst).
      exists n, n'. split; [exact Hn|]. split; [exact Hn'|].
      unfold stamps in Hst. simpl in Hst.
      split; [congruence|]. split; [congruence|].
      intros a Ha. rewrite (same_stamps_at _ s2' s3 a eq_refl Hs3).
      rewrite Hother by exact Ha. reflexivity.
    - auto. }
  exact (wp_Ret _ _ _ _ _ _ Hwp Hret).
Qed.

Lemma access_shifts_the_timestamps_witness :
  0 ≤ 0 < Pool4.N ∧
  ∃ n n', elruStack Pool4.two !! Z.to_nat 0 = Some n ∧
          elruStack (Pool4.after [OpTouch 0 30] Pool4.two) !! Z.to_nat 0 = Some n' ∧
          last_accessed n' = 30 ∧
          second_last_accessed n' = last_accessed n ∧
          ∀ a, a ≠ Z.to_nat 0 →
               stamps <$> elruStack (Pool4.after [OpTouch 0 30] Pool4.two) !! a =
               stamps <$> elruStack Pool4.two !! a.
Proof.
  apply (access_shifts_the_timestamps Pool4.N 0 false 30 Pool4.two
           (Pool4.after [OpTouch 0 30] Pool4.two)).
  vm_compute. reflexivity.
Defined.

(** ** The list after an access *)

(** X13.  An access to a node that is outside a well-formed list, or in
    it together with at least one other node, returns and leaves the other
    nodes in their order with the accessed node among them.  The list is
    well formed again: the two ends are what the control block says and
    the links of both directions agree with it.  There is one exception:
    when the list was [b; x] and the top node [x] moves below [b], the code
    does not reset [x->next], and the new bottom node keeps its link to
    [b].  Nodes outside the list are not written to. *)
Theorem access_keeps_the_list_linked NBuffers id del now s l rest :
  stack_wf s l → 0 ≤ id < NBuffers →
  access_case s (Z.to_nat id) l rest →
  ∃ s' l1 l2 lo,
    StrategyAccessBuffer NBuffers id del now s = Ret tt s' ∧
    rest = l1 ++ l2 ∧
    stack_from s' lo (l1 ++ Z.to_nat id :: l2) ∧
    (lo = None ∨ ∃ b, l = [b; Z.to_nat id] ∧ l1 = [] ∧ l2 = [b] ∧ lo = Some b) ∧
    (∀ a, a ∉ l → a ≠ Z.to_nat id → elruStack s' !! a = elruStack s !! a).
Proof.
  intros Hwf Hid Hcase.
  pose proof (access_places_node_links NBuffers id del now s l rest Hwf Hid Hcase) as H.
  apply twp_Ret in H as ([] & s' & Hret & l1 & l2 & lo & Hsplit & Hfrom & _ & _ & _ & _
                         & Hlo & Hout).
  exists s', l1, l2, lo. auto.
Qed.

(** The theorem at work, in its exceptional case: buffers 0 and 1 are
    allocated at times 10 and 20, buffer 0 is touched at 30 and buffer 1
    three seconds later; the next access to buffer 1, the top node,
    compares it with a timestamp more than 2^31 ns older and puts it below
    buffer 0. *)
Lemma access_keeps_the_list_linked_witness :
  ∃ s' l1 l2 lo,
    StrategyAccessBuffer Pool4.N 1 false 3000000001
      (Pool4.after [OpTouch 0 30; OpTouch 1 3000000000] Pool4.two) = Ret tt s' ∧
    [0%nat] = l1 ++ l2 ∧
    stack_from s' lo (l1 ++ Z.to_nat 1 :: l2) ∧
    (lo = None ∨ ∃ b, [0; 1]%nat = [b; Z.to_nat 1] ∧ l1 = [] ∧ l2 = [b] ∧ lo = Some b) ∧
    (∀ a, a ∉ [0; 1]%nat → a ≠ Z.to_nat 1 →
          elruStack s' !! a =
          elruStack (Pool4.after [OpTouch 0 30; OpTouch 1 3000000000] Pool4.two) !! a).
Proof.
  apply (access_keeps_the_list_linked Pool4.N 1 false 3000000001
           (Pool4.after [OpTouch 0 30; OpTouch 1 3000000000] Pool4.two)
           [0; 1]%nat [0%nat]).
  - split; [|split; [|split]].
    + vm_compute. repeat (first [reflexivity | split | eexists]).
    + apply (bool_decide_unpack _). vm_compute. exact Logic.I.
    + vm_compute. reflexivity.
    + vm_compute. reflexivity.
  - unfold Pool4.N. lia.
  - right. exists [0%nat], []. repeat split. discriminate.
Defined.

(** ** The first acquisitions *)

Lemma twp_rd_desc {A} id i (f : BufferDesc → A) d (Q : A → State → Prop) s :
  desc_index id = Some i → BufferDescriptors s !! i = Some d →
  Q (f d) s → twp (rd_desc id f) Q s.
Proof. intros Hi Hd HQ. unfold twp, rd_desc. rewrite Hi, Hd. exact HQ. Qed.

Lemma twp_wr_desc id i upd d (Q : unit → State → Prop) s :
  desc_index id = Some i → BufferDescriptors s !! i = Some d →
  Q tt (with_descriptors (fun l => <[i:=upd d]> l) s) → twp (wr_desc id upd) Q s.
Proof. intros Hi Hd HQ. unfold twp, wr_desc. rewrite Hi, Hd. exact HQ. Qed.

Lemma twp_modify f (Q : unit → State → Prop) s : Q tt (f s) → twp (modify f) Q s.
Proof. exact (fun H => H). Qed.

Lemma twp_preserves {A} (I : State → Prop) (m : M A) Q s :
  twp m Q s → preserves I m → I s → twp m (fun a s' => Q a s' ∧ I s') s.
Proof.
  unfold twp, preserves, wp. intros HQ Hm Hs. specialize (Hm s Hs).
  destruct (m s); [split; assumption | exact HQ | exact HQ | exact HQ].
Qed.

Lemma desc_index_of_nat (i : nat) : desc_index (Z.of_nat i) = Some i.
Proof.
  unfold desc_index. destruct (Z.of_nat i <? 0) eqn:H; [apply Z.ltb_lt in H; lia|].
  rewrite Nat2Z.id. reflexivity.
Qed.

(** The wake-up of the background writer and the count of the allocation,
    with which [StrategyGetBuffer] begins when the ring gives nothing. *)
Lemma twp_wake_and_count {B} (k : unit → M B) (Q : B → State → Prop) s :
  (∀ s1, elruStack s1 = elruStack s → BufferDescriptors s1 = BufferDescriptors s →
         stackTop (StrategyControl s1) = stackTop (StrategyControl s) →
         stackBottom (StrategyControl s1) = stackBottom (StrategyControl s) →
         firstFreeBuffer (StrategyControl s1) = firstFreeBuffer (StrategyControl s) →
         numBufferAllocs (StrategyControl s1) =
           to_uint32 (numBufferAllocs (StrategyControl s) + 1) →
         twp (k tt) Q s1) →
  twp (bgw <- ctl bgwprocno ;;
       (if negb (bgw =? -1)
        then set_ctl (set_bgwprocno (-1)) ;; modify (with_latch bgw)
        else ret tt) ;;
       allocs <- ctl numBufferAllocs ;;
       u <- set_ctl (set_numBufferAllocs (to_uint32 (allocs + 1))) ;;
       k u) Q s.
Proof.
  intros HQ. apply twp_bind, twp_ctl. apply twp_bind.
  destruct (negb (bgwprocno (StrategyControl s) =? -1)).
  - apply twp_bind, twp_set_ctl. apply twp_modify.
    apply twp_bind, twp_ctl. apply twp_bind, twp_set_ctl. apply HQ; reflexivity.
  - apply twp_ret. apply twp_bind, twp_ctl. apply twp_bind, twp_set_ctl.
    apply HQ; reflexivity.
Qed.

Lemma stack_from_ext s s' lo l :
  elruStack s' = elruStack s →
  stackTop (StrategyControl s') = stackTop (StrategyControl s) →
  stackBottom (StrategyControl s') = stackBottom (StrategyControl s) →
  stack_from s lo l → stack_from s' lo l.
Proof.
  unfold stack_from. intros -> -> ->. exact (fun H => H).
Qed.

Lemma off_list_access NBuffers id del now (X : State) :
  preserves (fun s0 => off_list s0 = off_list X ∧
                       length (elruStack s0) = length (elruStack X))
            (StrategyAccessBuffer NBuffers id del now).
Proof.
  apply preserves_StrategyAccessBuffer;
    try (intros v s0 i n [Hoff Hlen] Hn; split; [exact Hoff|]; simpl;
         rewrite length_insert; exact Hlen);
    intros v s0 [Hoff Hlen]; split; assumption.
Qed.

(** An acquisition without a ring that finds a usable buffer at the head
    of the free list. *)
Lemma acquire_pops_free_list NBuffers NOT_IN_LIST t s (f : nat) d lo0 l rest :
  firstFreeBuffer (StrategyControl s) = Z.of_nat f →
  BufferDescriptors s !! f = Some d → buf_id d = Z.of_nat f →
  refcount d = 0 → usage_count d = 0 →
  Z.of_nat f < NBuffers →
  stack_from s lo0 l → lo0 = None ∨ head l = Some f → access_case s f l rest →
  twp (StrategyGetBuffer NBuffers NOT_IN_LIST None t)
      (fun r s' =>
         r = (Returned (Z.of_nat f) (0, 0) false, None) ∧
         (∃ l1 l2 lo,
            rest = l1 ++ l2 ∧ stack_from s' lo (l1 ++ f :: l2) ∧
            (lo = None ∨
             ∃ nf, elruStack s !! f = Some nf ∧ lo = next nf ∧
                   length rest = 1%nat ∧ l1 = [])) ∧
         (∃ nf nf', elruStack s !! f = Some nf ∧ elruStack s' !! f = Some nf' ∧
                    last_accessed nf' = t ∧
                    second_last_accessed nf' = last_accessed nf) ∧
         (∀ a, a ∉ l → a ≠ f → elruStack s' !! a = elruStack s !! a) ∧
         length (elruStack s') = length (elruStack s) ∧
         BufferDescriptors s' = <[f:=set_freeNext NOT_IN_LIST d]> (BufferDescriptors s) ∧
         firstFreeBuffer (StrategyControl s') = freeNext d ∧
         numBufferAllocs (StrategyControl s') =
           to_uint32 (numBufferAllocs (StrategyControl s) + 1)) s.
Proof.
  intros Hfirst Hd Hid Hrc Huc Hf Hwf Hside Hcase.
  unfold StrategyGetBuffer.
  apply twp_bind, twp_ret. cbn [fst snd].
  apply twp_wake_and_count. intros s1 Hns1 Hds1 Htop1 Hbot1 Hfirst1 Hallocs1.
  apply twp_bind, twp_ctl. rewrite Hfirst1, Hfirst.
  destruct (Z.of_nat f >=? 0) eqn:Hge; [|lia].
  apply twp_bind. apply twp_bind, twp_gets.
  cbn [freelist_loop].
  apply twp_bind, twp_ctl. rewrite Hfirst1, Hfirst.
  destruct (Z.of_nat f <? 0) eqn:Hlt; [lia|].
  apply twp_bind.
  eapply twp_rd_desc; [apply desc_index_of_nat | rewrite Hds1; exact Hd |].
  apply twp_bind, twp_set_ctl. apply twp_bind.
  eapply twp_wr_desc; [apply desc_index_of_nat | cbn; rewrite Hds1; exact Hd |].
  apply twp_bind.
  eapply twp_rd_desc; [apply desc_index_of_nat | |].
  { cbn. rewrite Hds1. apply list_lookup_insert_eq. eapply lookup_lt_Some. exact Hd. }
  cbn [refcount usage_count set_freeNext buf_id]. rewrite Hrc, Huc, Hid. cbn [Z.eqb andb].
  match goal with |- twp _ _ ?s2 => set (s2' := s2) end.
  assert (Hns2 : elruStack s2' = elruStack s) by exact Hns1.
  assert (Hwf2 : stack_from s2' lo0 l).
  { eapply (stack_from_ext s); [exact Hns2 | exact Htop1 | exact Hbot1 | exact Hwf]. }
  assert (Hcase2 : access_case s2' (Z.to_nat (Z.of_nat f)) l rest).
  { rewrite Nat2Z.id. unfold access_case. rewrite Hns2. exact Hcase. }
  apply twp_bind.
  eapply twp_mono.
  { apply (twp_preserves
             (fun s0 => off_list s0 = off_list s2' ∧
                        length (elruStack s0) = length (elruStack s2'))).
    - apply (access_places_node_from NBuffers (Z.of_nat f) false t s2' lo0 l rest Hwf2);
        [rewrite Nat2Z.id; exact Hside | lia | exact Hcase2].
    - apply off_list_access.
    - split; reflexivity. }
  intros _ s' [(l1 & l2 & lo & Hsplit & Hfrom & _ & _ & Hstamps & _ & Hlo & Hout) [Hoff Hlen]].
  rewrite Nat2Z.id in *.
  apply twp_ret. apply twp_ret.
  split; [unfold buf_state_of; cbn; rewrite Hrc, Huc; reflexivity|].
  split; [exists l1, l2, lo; rewrite <- Hns2; auto|].
  split; [rewrite <- Hns2; exact Hstamps|].
  split; [rewrite <- Hns2; exact Hout|].
  split; [rewrite Hlen, Hns2; reflexivity|].
  unfold off_list in Hoff. injection Hoff as Hdesc _ _ Hff _ _ Hal _.
  split; [rewrite Hdesc; cbn; rewrite Hds1; reflexivity|].
  split; [rewrite Hff; reflexivity|].
  rewrite Hal. cbn. exact Hallocs1.
Qed.

(** X14.  When the free list is not empty and its first buffer is
    unpinned with a usage count of zero, an acquisition without a ring
    returns that buffer, not from the ring; it takes the buffer off the
    free list, counts the allocation, and records an access at the time of
    the call on the buffer's node, which is in the list afterwards.  (The
    list is well formed, and the node is outside it or not alone in it.) *)
Theorem acquire_takes_the_head_of_the_free_list NBuffers NOT_IN_LIST t s (f : nat) d l rest :
  firstFreeBuffer (StrategyControl s) = Z.of_nat f →
  BufferDescriptors s !! f = Some d → buf_id d = Z.of_nat f →
  refcount d = 0 → usage_count d = 0 →
  Z.of_nat f < NBuffers →
  stack_wf s l → access_case s f l rest →
  ∃ s' nf',
    StrategyGetBuffer NBuffers NOT_IN_LIST None t s =
      Ret (Returned (Z.of_nat f) (0, 0) false, None) s' ∧
    firstFreeBuffer (StrategyControl s') = freeNext d ∧
    BufferDescriptors s' = <[f:=set_freeNext NOT_IN_LIST d]> (BufferDescriptors s) ∧
    numBufferAllocs (StrategyControl s') =
      to_uint32 (numBufferAllocs (StrategyControl s) + 1) ∧
    f ∈ elru_list s' ∧
    elruStack s' !! f = Some nf' ∧ last_accessed nf' = t.
Proof.
  intros Hfirst Hd Hid Hrc Huc Hf Hwf Hcase.
  pose proof (acquire_pops_free_list NBuffers NOT_IN_LIST t s f d None l rest
                Hfirst Hd Hid Hrc Huc Hf Hwf (or_introl eq_refl) Hcase) as H.
  apply twp_Ret in H as (r & s' & Hret & -> & (l1 & l2 & lo & _ & Hfrom & _)
                         & (nf & nf' & _ & Hnf' & Hlast & _) & _ & _ & Hdescs & Hff & Hal).
  exists s', nf'. split; [exact Hret|]. split; [exact Hff|]. split; [exact Hdescs|].
  split; [exact Hal|]. split; [|split; assumption].
  rewrite (stack_from_elru_list _ _ _ Hfrom). apply elem_of_app. right. left.
Qed.

Lemma acquire_takes_the_head_of_the_free_list_witness :
  ∃ s' nf',
    StrategyGetBuffer Pool4.N Pool4.NOT_IN_LIST None 30 Pool4.two =
      Ret (Returned (Z.of_nat 2) (0, 0) false, None) s' ∧
    firstFreeBuffer (StrategyControl s') = freeNext (mkBufferDesc 2 3 0 0) ∧
    BufferDescriptors s' =
      <[2%nat:=set_freeNext Pool4.NOT_IN_LIST (mkBufferDesc 2 3 0 0)]>
        (BufferDescriptors Pool4.two) ∧
    numBufferAllocs (StrategyControl s') =
      to_uint32 (numBufferAllocs (StrategyControl Pool4.two) + 1) ∧
    2%nat ∈ elru_list s' ∧
    elruStack s' !! 2%nat = Some nf' ∧ last_accessed nf' = 30.
Proof.
  apply (acquire_takes_the_head_of_the_free_list Pool4.N Pool4.NOT_IN_LIST 30 Pool4.two
           2%nat (mkBufferDesc 2 3 0 0) [0; 1]%nat [0; 1]%nat).
  - vm_compute. reflexivity.
  - vm_compute. reflexivity.
  - reflexivity.
  - reflexivity.
  - reflexivity.
  - unfold Pool4.N. simpl. lia.
  - split; [|split; [|split]].
    + vm_compute. repeat (first [reflexivity | split | eexists]).
    + apply (bool_decide_unpack _). vm_compute. exact Logic.I.
    + vm_compute. reflexivity.
    + vm_compute. reflexivity.
  - left. split; [|split].
    + apply (bool_decide_unpack _). vm_compute. exact Logic.I.
    + reflexivity.
    + vm_compute. repeat (first [reflexivity | split | eexists]).
Defined.

Lemma handed_out_step n NOT_IN_LIST k t s :
  handed_out n k s → (k < n)%nat →
  twp (StrategyGetBuffer (Z.of_nat n) NOT_IN_LIST None t)
      (fun r s' => r = (Returned (Z.of_nat k) (0, 0) false, None) ∧
                   handed_out n (S k) s') s.
Proof.
  intros (Hnodes & Hdescs & (l & Hwf & Hperm) & Hfirst & Hfree & Habsent) Hk.
  assert (Hkn : (k =? n)%nat = false) by (apply Nat.eqb_neq; lia).
  rewrite Hkn in Hfirst.
  assert (Hin : ∀ a, a ∈ l → (a < k)%nat).
  { intros a Ha. rewrite Hperm in Ha. apply elem_of_seq in Ha. lia. }
  assert (Hkl : k ∉ l) by (intros Hc; apply Hin in Hc; lia).
  destruct (Habsent k ltac:(lia)) as (nk & Hnk & Hidk & Hprevk & Hnextk).
  eapply twp_mono.
  { apply (acquire_pops_free_list (Z.of_nat n) NOT_IN_LIST t s k
             (mkBufferDesc (Z.of_nat k) (if (S k =? n)%nat then -1 else Z.of_nat (S k)) 0 0)
             None l l);
      [exact Hfirst | apply Hfree; lia | reflexivity | reflexivity | reflexivity | lia
      | exact Hwf | left; reflexivity |].
    left. split; [exact Hkl|]. split; [reflexivity|]. exists nk. auto. }
  intros r s' (-> & (l1 & l2 & lo & Hsplit & Hfrom & Hlo) & _ & Hout & Hlen & Hds & Hff & _).
  split; [reflexivity|].
  assert (lo = None) as ->.
  { destruct Hlo as [->|(nf & Hnf & -> & _)]; [reflexivity|].
    assert (nf = nk) as -> by congruence. exact Hnextk. }
  split; [congruence|]. split; [rewrite Hds, length_insert; exact Hdescs|].
  split; [|split; [|split]].
  - exists (l1 ++ k :: l2). split; [exact Hfrom|].
    rewrite <- Permutation_middle, <- Hsplit, Hperm.
    rewrite seq_S. simpl. apply Permutation_cons_append.
  - rewrite Hff. reflexivity.
  - intros j Hj. rewrite Hds, list_lookup_insert_ne by lia. apply Hfree. lia.
  - intros j Hj. rewrite Hout; [apply Habsent; lia | | lia].
    intros Hc. apply Hin in Hc. lia.
Qed.

Lemma acquisitions_from n NOT_IN_LIST : ∀ times k s,
  handed_out n k s → (k + length times ≤ n)%nat →
  ∃ s', acquisitions (Z.of_nat n) NOT_IN_LIST times s =
          Ret (map (fun i => Returned (Z.of_nat i) (0, 0) false) (seq k (length times))) s' ∧
        handed_out n (k + length times) s'.
Proof.
  induction times as [|t times IH]; intros k s Hs Hlen.
  - exists s. split; [reflexivity|]. rewrite Nat.add_0_r. exact Hs.
  - simpl in Hlen.
    pose proof (handed_out_step n NOT_IN_LIST k t s Hs ltac:(lia)) as Hstep.
    apply twp_Ret in Hstep as (r & s1 & Hret & -> & Hs1).
    destruct (IH (S k) s1 Hs1 ltac:(lia)) as (s' & Hrest & Hs').
    exists s'. split.
    + cbn [acquisitions]. unfold bind. rewrite Hret, Hrest. reflexivity.
    + replace (k + length (t :: times))%nat with (S k + length times)%nat
        by (simpl; lia).
      exact Hs'.
Qed.

Lemma handed_out_initially n :
  (0 < n)%nat → handed_out n 0 (StrategyInitialize (Z.of_nat n) (linked_descriptors n)).
Proof.
  intros Hn. unfold handed_out, StrategyInitialize, linked_descriptors. cbn.
  rewrite Nat2Z.id, !length_map, !length_seq.
  split; [reflexivity|]. split; [reflexivity|]. split; [|split; [|split]].
  - exists []. split; [|reflexivity].
    split; [exact Logic.I|]. split; [apply NoDup_nil_2|]. split; reflexivity.
  - destruct n; [lia | reflexivity].
  - intros j Hj. rewrite list_lookup_fmap, lookup_seq_lt by lia. reflexivity.
  - intros j Hj. rewrite list_lookup_fmap, lookup_seq_lt by lia.
    eexists. split; [reflexivity|]. auto.
Qed.

(** X15.  A pool of [n >= 1] buffers right after [StrategyInitialize], on
    descriptors linked into a free list by the buffer manager, hands out
    its buffers in the order of the free list: the first [k <= n]
    acquisitions without a ring return the buffers [0, 1, ..., k-1], each
    with a reference count and a usage count of zero in the state word
    handed back, and none from the ring, whatever the clock values;
    afterwards exactly these [k] buffers are in the list, and
    [have_free_buffer] says whether buffers remain. *)
Theorem first_acquisitions_follow_the_free_list n NOT_IN_LIST times :
  (0 < n)%nat → (length times ≤ n)%nat →
  ∃ s',
    acquisitions (Z.of_nat n) NOT_IN_LIST times
      (StrategyInitialize (Z.of_nat n) (linked_descriptors n)) =
      Ret (map (fun i => Returned (Z.of_nat i) (0, 0) false) (seq 0 (length times))) s' ∧
    elru_list s' ≡ₚ seq 0 (length times) ∧
    have_free_buffer s' = Ret (negb (length times =? n)%nat) s'.
Proof.
  intros Hn Hlen.
  destruct (acquisitions_from n NOT_IN_LIST times 0 _ (handed_out_initially n Hn))
    as (s' & Hret & Hs'); [simpl; lia|].
  exists s'. split; [exact Hret|].
  destruct Hs' as (_ & _ & (l & Hwf & Hperm) & Hfirst & _). simpl in Hperm, Hfirst.
  split; [rewrite (stack_from_elru_list _ _ _ Hwf); exact Hperm|].
  unfold have_free_buffer, bind, ctl, gets, ret. rewrite Hfirst.
  destruct (length times =? n)%nat; simpl; [reflexivity|].
  destruct (Z.of_nat (length times) >=? 0) eqn:Hge; [reflexivity | lia].
Qed.

Lemma first_acquisitions_follow_the_free_list_witness :
  ∃ s',
    acquisitions (Z.of_nat 4) Pool4.NOT_IN_LIST [10; 20; 20]
      (StrategyInitialize (Z.of_nat 4) (linked_descriptors 4)) =
      Ret (map (fun i => Returned (Z.of_nat i) (0, 0) false) (seq 0 (length [10; 20; 20]))) s' ∧
    elru_list s' ≡ₚ seq 0 (length [10; 20; 20]) ∧
    have_free_buffer s' = Ret (negb (length [10; 20; 20] =? 4)%nat) s'.
Proof.
  apply (first_acquisitions_follow_the_free_list 4 Pool4.NOT_IN_LIST [10; 20; 20]);
    simpl; lia.
Defined.

(** ** The search for a victim *)

Lemma seg_head_prev ns lo a r :
  seg ns lo (a :: r) None →
  ∃ n, ns !! a = Some n ∧ node_id n = Z.of_nat a ∧ prev n = head r.
Proof.
  intros [(n & Hn & Hid & _ & Hprev) _]. exists n. split; [exact Hn|]. split; [exact Hid|].
  rewrite Hprev. destruct r; reflexivity.
Qed.

(** The walk from the bottom passes the pinned nodes [P] and stops at the
    first unpinned one, [v]. *)
Lemma twp_victim_loop_skips NBuffers t v R d (Q : get_buffer_result → State → Prop) :
  ∀ P lo fuel s,
  seg (elruStack s) lo (P ++ v :: R) None → NoDup (P ++ v :: R) →
  stackTop (StrategyControl s) = last (v :: R) →
  (∀ a, a ∈ P → pinned s a) →
  BufferDescriptors s !! v = Some d → refcount d = 0 →
  (length P < fuel)%nat →
  twp (wr (Some v) (set_last_accessed TIMESTAMP_NIL) ;;
       wr (Some v) (set_second_last_accessed TIMESTAMP_NIL) ;;
       StrategyAccessBuffer NBuffers (buf_id d) false t ;;
       ret (Returned (Z.of_nat v) (buf_state_of d) false)) Q s →
  twp (victim_loop NBuffers fuel t (head (P ++ v :: R))) Q s.
Proof.
  induction P as [|a P IH]; intros lo fuel s Hseg Hnd Htop Hpinned Hd Hrc Hfuel Hk.
  - destruct fuel as [|fuel]; [simpl in Hfuel; lia|].
    destruct (seg_head_prev _ _ _ _ Hseg) as (nv & Hnv & Hidv & _).
    cbn [app head victim_loop].
    apply twp_bind. eapply twp_rd; [exact Hnv|]. rewrite Hidv.
    apply twp_bind.
    eapply twp_rd_desc; [apply desc_index_of_nat | exact Hd |].
    rewrite Hrc. cbn [Z.eqb]. exact Hk.
  - destruct fuel as [|fuel]; [simpl in Hfuel; lia|].
    cbn [app] in Hseg, Hnd |- *.
    destruct (seg_head_prev _ _ _ _ Hseg) as (na & Hna & Hida & Hpreva).
    destruct (Hpinned a ltac:(left)) as (da & Hda & Hidda & Hrca).
    destruct (last (v :: R)) as [t0|] eqn:Ht0; [|apply last_None in Ht0; discriminate].
    assert (Ht0in : t0 ∈ P ++ v :: R).
    { apply elem_of_app. right. apply last_Some_elem_of. exact Ht0. }
    assert (Hat : a ≠ t0).
    { intros ->. apply NoDup_cons in Hnd as [Hnot _]. contradiction. }
    destruct Hseg as [_ Hseg'].
    destruct (seg_lookup _ _ _ _ t0 Hseg' Ht0in) as (nt & Hnt & Hidt).
    cbn [head victim_loop].
    apply twp_bind. eapply twp_rd; [exact Hna|]. rewrite Hida.
    apply twp_bind.
    eapply twp_rd_desc; [apply desc_index_of_nat | exact Hda |].
    destruct (refcount da =? 0) eqn:Hz; [lia|].
    apply twp_bind, twp_ctl. rewrite Htop.
    apply twp_bind. eapply twp_rd; [exact Hnt|]. rewrite Hidt, Hidda.
    destruct (Z.of_nat t0 =? Z.of_nat a) eqn:Heq; [lia|].
    apply twp_bind. eapply twp_rd; [exact Hna|]. rewrite Hpreva.
    eapply (IH (Some a) fuel s); try eassumption.
    + apply NoDup_cons in Hnd as [_ Hnd]. exact Hnd.
    + intros b Hb. apply Hpinned. right. exact Hb.
    + simpl in Hfuel. lia.
Qed.

Lemma same_stamps_off_list_access NBuffers id del now (X : State) :
  preserves (fun s0 => off_list s0 = off_list X)
            (StrategyAccessBuffer NBuffers id del now).
Proof.
  apply preserves_StrategyAccessBuffer; intros; assumption.
Qed.

(** X16.  With the free list empty, an acquisition without a ring takes
    as its victim the unpinned buffer closest to the bottom of the list: it
    passes the pinned buffers [P] below it, whatever their usage counts,
    and returns [v], not from the ring, with a reference count of zero and
    the victim's usage count in the state word handed back.  The victim's
    history is erased before the access of the acquisition is recorded, so
    its node has one access, at the time of the call.  The allocation is
    counted, and no index, free-list link, reference count or usage count
    of a descriptor changes.  (The list is well formed and holds another
    node besides the victim.) *)
Theorem acquire_evicts_the_lowest_unpinned NBuffers NOT_IN_LIST t s P (v : nat) R d :
  firstFreeBuffer (StrategyControl s) < 0 →
  stack_wf s (P ++ v :: R) → P ++ R ≠ [] →
  (∀ a, a ∈ P → pinned s a) →
  BufferDescriptors s !! v = Some d → buf_id d = Z.of_nat v → refcount d = 0 →
  Z.of_nat v < NBuffers →
  ∃ s' l1 l2 nv',
    StrategyGetBuffer NBuffers NOT_IN_LIST None t s =
      Ret (Returned (Z.of_nat v) (0, usage_count d) false, None) s' ∧
    P ++ R = l1 ++ l2 ∧ elru_list s' = l1 ++ v :: l2 ∧
    elruStack s' !! v = Some nv' ∧
    last_accessed nv' = t ∧ second_last_accessed nv' = TIMESTAMP_NIL ∧
    descriptors_keep_fields s s' ∧
    numBufferAllocs (StrategyControl s') =
      to_uint32 (numBufferAllocs (StrategyControl s) + 1).
Proof.
  intros Hfirst Hwf Hne Hpinned Hd Hid Hrc Hv.
  assert (Htwp : twp (StrategyGetBuffer NBuffers NOT_IN_LIST None t)
    (fun r s' => r = (Returned (Z.of_nat v) (0, usage_count d) false, None) ∧
       ∃ l1 l2 nv', P ++ R = l1 ++ l2 ∧ elru_list s' = l1 ++ v :: l2 ∧
         elruStack s' !! v = Some nv' ∧
         last_accessed nv' = t ∧ second_last_accessed nv' = TIMESTAMP_NIL ∧
         BufferDescriptors s' = BufferDescriptors s ∧
         numBufferAllocs (StrategyControl s') =
           to_uint32 (numBufferAllocs (StrategyControl s) + 1)) s).
  { unfold StrategyGetBuffer.
    apply twp_bind, twp_ret. cbn [fst snd].
    apply twp_wake_and_count. intros s1 Hns1 Hds1 Htop1 Hbot1 Hfirst1 Hallocs1.
    apply twp_bind, twp_ctl. rewrite Hfirst1.
    destruct (firstFreeBuffer (StrategyControl s) >=? 0) eqn:Hge; [lia|].
    apply twp_bind, twp_ret.
    apply twp_bind, twp_ctl. apply twp_bind, twp_gets. apply twp_bind.
    assert (Hwf1 : stack_wf s1 (P ++ v :: R)).
    { eapply (stack_from_ext s); eassumption. }
    destruct Hwf1 as (Hseg1 & Hnd1 & Hb1 & Ht1).
    rewrite Hb1.
    eapply (twp_victim_loop_skips NBuffers t v R d _ P None);
      [exact Hseg1 | exact Hnd1 | | | rewrite Hds1; exact Hd | exact Hrc | |].
    { rewrite Ht1. rewrite last_app. 
      destruct (last (v :: R)) eqn:Hl; [reflexivity|].
      apply last_None in Hl. discriminate. }
    { intros a Ha. destruct (Hpinned a Ha) as (da & Hda & Hrest).
      exists da. rewrite Hds1. auto. }
    { pose proof (NoDup_length_le _ _ _ _ Hseg1 Hnd1) as Hlen.
      rewrite length_app in Hlen. simpl in Hlen. lia. }
    destruct (seg_lookup _ _ _ _ v Hseg1) as (nv & Hnv & Hidv).
    { apply elem_of_app. right. left. }
    twp_wr_step. twp_wr_step.
    set (nv2 := set_second_last_accessed TIMESTAMP_NIL
                  (set_last_accessed TIMESTAMP_NIL nv)).
    match goal with |- twp _ _ ?s2 => set (s2' := s2) end.
    assert (Hnv2 : elruStack s2' !! v = Some nv2) by (subst s2'; lk; reflexivity).
    assert (Hwf2 : stack_wf s2' (P ++ v :: R)).
    { split; [|split; [exact Hnd1 | split; [exact Hb1 | exact Ht1]]].
      eapply seg_same_links; [|exact Hseg1]. intros a n Ha Hn.
      destruct (decide (a = v)) as [->|Hav].
      - exists nv2. assert (n = nv) as -> by congruence. repeat split. exact Hnv2.
      - exists n. repeat split. subst s2'. lk. exact Hn. }
    rewrite Hid.
    apply twp_bind.
    eapply twp_mono.
    { apply (twp_preserves (fun s0 => off_list s0 = off_list s2')).
      - apply (access_places_node_links NBuffers (Z.of_nat v) false t s2'
                 (P ++ v :: R) (P ++ R) Hwf2); [lia|].
        right. rewrite Nat2Z.id. exists P, R. auto.
      - apply same_stamps_off_list_access.
      - reflexivity. }
    intros _ s' [(l1 & l2 & lo & Hsplit & Hfrom & _ & _ & Hstamps & _) Hoff].
    rewrite Nat2Z.id in *.
    apply twp_ret. apply twp_ret.
    split; [unfold buf_state_of; rewrite Hrc; reflexivity|].
    destruct Hstamps as (nx & nx' & Hnx & Hnx' & Hlast & Hsecond).
    assert (nx = nv2) as -> by congruence.
    exists l1, l2, nx'. split; [exact Hsplit|].
    split; [eapply stack_from_elru_list; exact Hfrom|].
    split; [exact Hnx'|]. split; [exact Hlast|]. split; [exact Hsecond|].
    unfold off_list in Hoff. injection Hoff as Hdesc _ _ _ _ _ Hal _.
    split; [rewrite Hdesc; exact Hds1|]. rewrite Hal. exact Hallocs1. }
  apply twp_Ret in Htwp as (r & s' & Hret & -> & l1 & l2 & nv'
                            & H1 & H2 & H3 & H4 & H5 & Hdesc & Hal).
  exists s', l1, l2, nv'. repeat (split; [assumption|]).
  split; [apply descriptors_keep_fields_eq; exact Hdesc | exact Hal].
Qed.

Lemma acquire_evicts_the_lowest_unpinned_witness :
  ∃ s' l1 l2 nv',
    StrategyGetBuffer Pool4.N Pool4.NOT_IN_LIST None 50
      (Pool4.after [OpAcquire None 30; OpAcquire None 40; OpPin 0 1 0] Pool4.two) =
      Ret (Returned (Z.of_nat 1)
             (0, usage_count (mkBufferDesc 1 Pool4.NOT_IN_LIST 0 0)) false, None) s' ∧
    [0%nat] ++ [2; 3]%nat = l1 ++ l2 ∧ elru_list s' = l1 ++ 1%nat :: l2 ∧
    elruStack s' !! 1%nat = Some nv' ∧
    last_accessed nv' = 50 ∧ second_last_accessed nv' = TIMESTAMP_NIL ∧
    descriptors_keep_fields
      (Pool4.after [OpAcquire None 30; OpAcquire None 40; OpPin 0 1 0] Pool4.two) s' ∧
    numBufferAllocs (StrategyControl s') =
      to_uint32 (numBufferAllocs
                   (StrategyControl
                      (Pool4.after [OpAcquire None 30; OpAcquire None 40; OpPin 0 1 0]
                         Pool4.two)) + 1).
Proof.
  apply (acquire_evicts_the_lowest_unpinned Pool4.N Pool4.NOT_IN_LIST 50
           (Pool4.after [OpAcquire None 30; OpAcquire None 40; OpPin 0 1 0] Pool4.two)
           [0%nat] 1%nat [2; 3]%nat (mkBufferDesc 1 Pool4.NOT_IN_LIST 0 0)).
  - vm_compute. reflexivity.
  - split; [|split; [|split]].
    + vm_compute. repeat (first [reflexivity | split | eexists]).
    + apply (bool_decide_unpack _). vm_compute. exact Logic.I.
    + vm_compute. reflexivity.
    + vm_compute. reflexivity.
  - discriminate.
  - intros a Ha. apply list_elem_of_singleton in Ha as ->.
    eexists. split; [vm_compute; reflexivity|]. split; [reflexivity | discriminate].
  - vm_compute. reflexivity.
  - reflexivity.
  - reflexivity.
  - unfold Pool4.N. simpl. lia.
Defined.

Lemma bind_rd_desc {A B} id i (f : BufferDesc → A) (k : A → M B) s d :
  desc_index id = Some i → BufferDescriptors s !! i = Some d →
  bind (rd_desc id f) k s = k (f d) s.
Proof. intros Hi Hd. unfold bind, rd_desc. rewrite Hi, Hd. reflexivity. Qed.

(** A walk over pinned nodes only ends at the top, in the error. *)
Lemma victim_loop_all_pinned NBuffers t : ∀ P lo fuel s,
  seg (elruStack s) lo P None → NoDup P → P ≠ [] →
  stackTop (StrategyControl s) = last P →
  (∀ a, a ∈ P → pinned s a) →
  (length P ≤ fuel)%nat →
  victim_loop NBuffers fuel t (head P) s = Elog NoUnpinnedBuffer s.
Proof.
  induction P as [|a P IH]; intros lo fuel s Hseg Hnd Hne Htop Hpinned Hfuel;
    [congruence|].
  destruct fuel as [|fuel]; [simpl in Hfuel; lia|].
  destruct (seg_head_prev _ _ _ _ Hseg) as (na & Hna & Hida & Hpreva).
  destruct (Hpinned a ltac:(left)) as (da & Hda & Hidda & Hrca).
  cbn [head victim_loop].
  erewrite bind_rd by exact Hna. rewrite Hida.
  erewrite bind_rd_desc by (first [apply desc_index_of_nat | exact Hda]).
  destruct (refcount da =? 0) eqn:Hz; [lia|].
  rewrite bind_ctl, Htop.
  destruct P as [|b P].
  - cbn [last]. erewrite bind_rd by exact Hna.
    rewrite Hida, Hidda, Z.eqb_refl. reflexivity.
  - rewrite last_cons_cons.
    destruct (last (b :: P)) as [t0|] eqn:Ht0; [|apply last_None in Ht0; discriminate].
    assert (Ht0in : t0 ∈ b :: P) by (apply last_Some_elem_of; exact Ht0).
    assert (Hat : a ≠ t0).
    { intros ->. apply NoDup_cons in Hnd as [Hnot _]. contradiction. }
    destruct Hseg as [_ Hseg'].
    destruct (seg_lookup _ _ _ _ t0 Hseg' Ht0in) as (nt & Hnt & Hidt).
    erewrite bind_rd by exact Hnt. rewrite Hidt, Hidda.
    destruct (Z.of_nat t0 =? Z.of_nat a) eqn:Heq; [lia|].
    erewrite bind_rd by exact Hna. rewrite Hpreva.
    apply (IH (Some a) fuel s Hseg').
    + apply NoDup_cons in Hnd as [_ Hnd]. exact Hnd.
    + discriminate.
    + rewrite Htop, last_cons_cons. exact Ht0.
    + intros c Hc. apply Hpinned. right. exact Hc.
    + simpl in Hfuel |- *. lia.
Qed.

(** X17.  With the free list empty and every buffer of the list pinned,
    an acquisition without a ring ends in the error "No unpinned buffer":
    it has counted the allocation and has written neither to the list nor
    to the descriptors.  (The list is well formed and not empty; on an
    empty list the call ends without an error and without a buffer.) *)
Theorem acquire_raises_when_all_are_pinned NBuffers NOT_IN_LIST t s l :
  firstFreeBuffer (StrategyControl s) < 0 →
  stack_wf s l → l ≠ [] →
  (∀ a, a ∈ l → pinned s a) →
  ∃ s',
    StrategyGetBuffer NBuffers NOT_IN_LIST None t s = Elog NoUnpinnedBuffer s' ∧
    elruStack s' = elruStack s ∧
    BufferDescriptors s' = BufferDescriptors s ∧
    stackTop (StrategyControl s') = stackTop (StrategyControl s) ∧
    stackBottom (StrategyControl s') = stackBottom (StrategyControl s) ∧
    numBufferAllocs (StrategyControl s') =
      to_uint32 (numBufferAllocs (StrategyControl s) + 1).
Proof.
  intros Hfirst Hwf Hne Hpinned.
  assert (Hstart : ∃ s1,
    elruStack s1 = elruStack s ∧ BufferDescriptors s1 = BufferDescriptors s ∧
    stackTop (StrategyControl s1) = stackTop (StrategyControl s) ∧
    stackBottom (StrategyControl s1) = stackBottom (StrategyControl s) ∧
    firstFreeBuffer (StrategyControl s1) = firstFreeBuffer (StrategyControl s) ∧
    numBufferAllocs (StrategyControl s1) =
      to_uint32 (numBufferAllocs (StrategyControl s) + 1) ∧
    StrategyGetBuffer NBuffers NOT_IN_LIST None t s =
      (r <- victim_loop NBuffers (S (length (elruStack s1))) t
              (stackBottom (StrategyControl s1)) ;;
       ret (r, None)) s1).
  { assert (Hge : (firstFreeBuffer (StrategyControl s) >=? 0) = false) by lia.
    unfold StrategyGetBuffer.
    destruct (negb (bgwprocno (StrategyControl s) =? -1)) eqn:Hb.
    - exists (with_control
                (set_numBufferAllocs (to_uint32 (numBufferAllocs (StrategyControl s) + 1)))
                (with_latch (bgwprocno (StrategyControl s))
                   (with_control (set_bgwprocno (-1)) s))).
      repeat (split; [reflexivity|]).
      cbv beta iota delta [bind ctl gets set_ctl modify ret fst snd].
      rewrite Hb.
      cbn [with_control with_latch StrategyControl firstFreeBuffer
           set_numBufferAllocs set_bgwprocno numBufferAllocs].
      rewrite Hge. reflexivity.
    - exists (with_control
                (set_numBufferAllocs (to_uint32 (numBufferAllocs (StrategyControl s) + 1)))
                s).
      repeat (split; [reflexivity|]).
      cbv beta iota delta [bind ctl gets set_ctl modify ret fst snd].
      rewrite Hb.
      cbn [with_control StrategyControl firstFreeBuffer
           set_numBufferAllocs numBufferAllocs].
      rewrite Hge. reflexivity. }
  destruct Hstart as (s1 & Hns1 & Hds1 & Htop1 & Hbot1 & _ & Hal1 & Heq).
  exists s1. split; [|auto].
  rewrite Heq.
  assert (Hwf1 : stack_wf s1 l) by (eapply (stack_from_ext s); eassumption).
  destruct Hwf1 as (Hseg1 & Hnd1 & Hb1 & Ht1).
  unfold bind. rewrite Hb1.
  rewrite (victim_loop_all_pinned NBuffers t l None _ s1 Hseg1 Hnd1 Hne Ht1);
    [reflexivity | |].
  - intros a Ha. destruct (Hpinned a Ha) as (da & Hda & Hrest).
    exists da. rewrite Hds1. auto.
  - pose proof (NoDup_length_le _ _ _ _ Hseg1 Hnd1). lia.
Qed.

Lemma acquire_raises_when_all_are_pinned_witness :
  ∃ s',
    StrategyGetBuffer Pool4.N Pool4.NOT_IN_LIST None 50
      (Pool4.after [OpPin 0 1 0; OpPin 1 2 0; OpAcquire None 30; OpAcquire None 40;
                    OpPin 2 1 1; OpPin 3 1 0] Pool4.two) =
      Elog NoUnpinnedBuffer s' ∧
    elruStack s' =
      elruStack (Pool4.after [OpPin 0 1 0; OpPin 1 2 0; OpAcquire None 30;
                              OpAcquire None 40; OpPin 2 1 1; OpPin 3 1 0] Pool4.two) ∧
    BufferDescriptors s' =
      BufferDescriptors (Pool4.after [OpPin 0 1 0; OpPin 1 2 0; OpAcquire None 30;
                                      OpAcquire None 40; OpPin 2 1 1; OpPin 3 1 0]
                           Pool4.two) ∧
    stackTop (StrategyControl s') =
      stackTop (StrategyControl
                  (Pool4.after [OpPin 0 1 0; OpPin 1 2 0; OpAcquire None 30;
                                OpAcquire None 40; OpPin 2 1 1; OpPin 3 1 0] Pool4.two)) ∧
    stackBottom (StrategyControl s') =
      stackBottom (StrategyControl
                     (Pool4.after [OpPin 0 1 0; OpPin 1 2 0; OpAcquire None 30;
                                   OpAcquire None 40; OpPin 2 1 1; OpPin 3 1 0]
                        Pool4.two)) ∧
    numBufferAllocs (StrategyControl s') =
      to_uint32
        (numBufferAllocs
           (StrategyControl
              (Pool4.after [OpPin 0 1 0; OpPin 1 2 0; OpAcquire None 30;
                            OpAcquire None 40; OpPin 2 1 1; OpPin 3 1 0] Pool4.two)) + 1).
Proof.
  apply (acquire_raises_when_all_are_pinned Pool4.N Pool4.NOT_IN_LIST 50
           (Pool4.after [OpPin 0 1 0; OpPin 1 2 0; OpAcquire None 30; OpAcquire None 40;
                         OpPin 2 1 1; OpPin 3 1 0] Pool4.two)
           [0; 1; 2; 3]%nat).
  - vm_compute. reflexivity.
  - split; [|split; [|split]].
    + vm_compute. repeat (first [reflexivity | split | eexists]).
    + apply (bool_decide_unpack _). vm_compute. exact Logic.I.
    + vm_compute. reflexivity.
    + vm_compute. reflexivity.
  - discriminate.
  - intros a Ha. unfold pinned.
    repeat (apply elem_of_cons in Ha as [->|Ha];
            [eexists; split; [vm_compute; reflexivity|]; split; [reflexivity | discriminate]|]).
    inversion Ha.
Defined.

(** ** What an acquisition returns *)

(** An access writes no descriptor. *)
Lemma access_keeps_descriptor {A} NBuffers id now i d (x : A) s :
  BufferDescriptors s !! i = Some d →
  wp (StrategyAccessBuffer NBuffers id false now ;; ret x)
     (fun r s' => r = x ∧ BufferDescriptors s' !! i = Some d) (fun _ _ => True) s.
Proof.
  intros Hd. apply wp_bind.
  eapply (wp_preserves (fun s0 => BufferDescriptors s0 !! i = Some d));
    [| exact Hd | | auto].
  - apply preserves_StrategyAccessBuffer; intros; assumption.
  - intros _ s' Hs'. apply wp_ret. auto.
Qed.

Lemma freelist_loop_unpinned NBuffers NOT_IN_LIST now fuel : ∀ s,
  wp (freelist_loop NBuffers NOT_IN_LIST fuel now)
     (fun r s' => ∀ buf bs, r = Some (buf, bs) →
        ∃ i d, desc_index buf = Some i ∧ BufferDescriptors s' !! i = Some d ∧
               bs = buf_state_of d ∧ refcount d = 0 ∧ usage_count d = 0)
     (fun _ _ => True) s.
Proof.
  induction fuel as [|fuel IH]; intros s; simpl; [exact Logic.I|].
  apply wp_bind, wp_ctl.
  destruct (_ <? 0); [apply wp_ret; discriminate|].
  apply wp_bind, wp_rd_desc. intros i d Hi Hd.
  apply wp_bind, wp_set_ctl.
  apply wp_bind, wp_wr_desc. intros i1 d1 Hi1 Hd1.
  apply wp_bind, wp_rd_desc. intros i2 d2 Hi2 Hd2.
  destruct ((refcount d2 =? 0) && (usage_count d2 =? 0)) eqn:Huse.
  - eapply wp_mono; [apply (access_keeps_descriptor _ _ _ i2 d2); exact Hd2 | | auto].
    intros r s' [-> Hd'] buf bs [= <- <-].
    apply andb_prop in Huse as [H1 H2].
    exists i2, d2. split; [exact Hi2|]. split; [exact Hd'|]. split; [reflexivity|]. lia.
  - apply IH.
Qed.

Lemma victim_loop_unpinned NBuffers now fuel : ∀ victim s,
  wp (victim_loop NBuffers fuel now victim)
     (fun r s' => ∀ buf bs fr, r = Returned buf bs fr →
        fr = false ∧
        ∃ i d, desc_index buf = Some i ∧ BufferDescriptors s' !! i = Some d ∧
               bs = buf_state_of d ∧ refcount d = 0)
     (fun _ _ => True) s.
Proof.
  induction fuel as [|fuel IH]; intros victim s; simpl; [exact Logic.I|].
  destruct victim as [v|]; [|apply wp_ret; discriminate].
  wp_read n Hn.
  apply wp_bind, wp_rd_desc. intros i d Hi Hd.
  destruct (refcount d =? 0) eqn:Hrc.
  - wp_write n1 Hn1. wp_write n2 Hn2.
    eapply wp_mono; [apply (access_keeps_descriptor _ _ _ i d); exact Hd | | auto].
    intros r s' [-> Hd'] buf bs fr [= <- <- <-]. split; [reflexivity|].
    exists i, d. split; [exact Hi|]. split; [exact Hd'|]. split; [reflexivity|]. lia.
  - apply wp_bind, wp_ctl. wp_read nt Hnt.
    destruct (node_id nt =? buf_id d); [exact Logic.I|].
    wp_read nv Hnv. apply IH.
Qed.

(** X18.  Whatever the state and the ring, a buffer that
    [StrategyGetBuffer] returns is unpinned: its descriptor has a
    reference count of zero when the call returns, and the state word
    handed to the caller is the one of that descriptor.  A buffer from the
    ring has a usage count of at most one and one from the free list a
    usage count of zero; a victim taken from the list may have any. *)
Theorem acquire_returns_an_unpinned_buffer
    NBuffers NOT_IN_LIST strategy now s buf bs fr o s' :
  StrategyGetBuffer NBuffers NOT_IN_LIST strategy now s =
    Ret (Returned buf bs fr, o) s' →
  ∃ i d, desc_index buf = Some i ∧ BufferDescriptors s' !! i = Some d ∧
         bs = buf_state_of d ∧ refcount d = 0 ∧
         (fr = true → strategy ≠ None ∧ usage_count d ≤ 1).
Proof.
  intros Hret.
  assert (Hwp : wp (StrategyGetBuffer NBuffers NOT_IN_LIST strategy now)
    (fun r s' => ∀ buf bs fr, fst r = Returned buf bs fr →
       ∃ i d, desc_index buf = Some i ∧ BufferDescriptors s' !! i = Some d ∧
              bs = buf_state_of d ∧ refcount d = 0 ∧
              (fr = true → strategy ≠ None ∧ usage_count d ≤ 1))
    (fun _ _ => True) s).
  { unfold StrategyGetBuffer. apply wp_bind.
    assert (Hring : wp
      (match strategy with
       | Some st => r <- GetBufferFromRing st ;; ret (fst r, Some (snd r))
       | None => ret (None, None)
       end)
      (fun r s1 => s1 = s ∧
         ∀ buf bs, fst r = Some (buf, bs) →
           strategy ≠ None ∧
           ∃ i d, desc_index buf = Some i ∧ BufferDescriptors s !! i = Some d ∧
                  bs = buf_state_of d ∧ refcount d = 0 ∧ usage_count d ≤ 1)
      (fun _ _ => True) s).
    { destruct strategy as [st|]; [|apply wp_ret; split; [reflexivity | discriminate]].
      apply wp_bind. unfold GetBufferFromRing. cbv zeta.
      destruct (ring_slot _ _) as [bufnum|]; [|exact Logic.I].
      destruct (bufnum =? InvalidBuffer).
      - apply wp_ret. apply wp_ret. split; [reflexivity | discriminate].
      - apply wp_bind, wp_rd_desc. intros i d Hi Hd.
        destruct ((refcount d =? 0) && (usage_count d <=? 1)) eqn:Huse.
        + apply wp_ret. apply wp_ret. split; [reflexivity|].
          intros buf0 bs0 [= <- <-]. split; [discriminate|].
          apply andb_prop in Huse as [H1 H2].
          exists i, d. split; [exact Hi|]. split; [exact Hd|]. split; [reflexivity|]. lia.
        + apply wp_ret. apply wp_ret. split; [reflexivity | discriminate]. }
    eapply wp_mono; [exact Hring | | auto].
    intros [[[buf0 bs0]|] st'] s1 [-> Hserved]; cbn [fst snd] in *.
    - destruct (Hserved buf0 bs0 eq_refl) as (Hsome & i & d & Hi & Hd & Hbs & Hrc & Huc).
      apply wp_bind, wp_rd_desc. intros i1 d1 Hi1 Hd1.
      eapply wp_mono; [apply (access_keeps_descriptor _ _ _ i d); exact Hd | | auto].
      intros r s2 [-> Hd'] buf1 bs1 fr1 [= <- <- <-].
      exists i, d. auto 10.
    - apply wp_bind, wp_ctl. apply wp_bind.
      eapply (wp_preserves (fun _ => True)); [| exact Logic.I | | auto].
      { preserves_auto ltac:(intros; exact Logic.I). }
      intros _ s1 _.
      apply wp_bind, wp_ctl. apply wp_bind, wp_set_ctl. apply wp_bind, wp_ctl.
      apply wp_bind.
      eapply (wp_mono _ (fun r s' => ∀ buf bs, r = Some (buf, bs) →
                ∃ i d, desc_index buf = Some i ∧ BufferDescriptors s' !! i = Some d ∧
                       bs = buf_state_of d ∧ refcount d = 0 ∧ usage_count d = 0)).
      + destruct (_ >=? 0).
        * apply wp_bind, wp_gets. apply freelist_loop_unpinned.
        * apply wp_ret. discriminate.
      + intros [[buf1 bs1]|] s2 Hfree.
        * apply wp_ret. intros buf2 bs2 fr2 [= <- <- <-].
          destruct (Hfree buf1 bs1 eq_refl) as (i & d & Hi & Hd & Hbs & Hrc & Huc).
          exists i, d. repeat (split; [assumption|]). discriminate.
        * apply wp_bind, wp_ctl. apply wp_bind, wp_gets. apply wp_bind.
          eapply wp_mono; [apply victim_loop_unpinned | | auto].
          intros r s3 Hr. apply wp_ret. intros buf2 bs2 fr2 Heq. cbn [fst] in Heq.
          destruct (Hr buf2 bs2 fr2 Heq) as (-> & i & d & Hi & Hd & Hbs & Hrc).
          exists i, d. repeat (split; [assumption|]). discriminate.
      + simpl. auto. }
  exact (wp_Ret _ _ _ _ _ _ Hwp Hret buf bs fr eq_refl).
Qed.

Lemma acquire_returns_an_unpinned_buffer_witness :
  ∃ i d, desc_index 0 = Some i ∧
         BufferDescriptors
           (Pool4.after [OpAcquire (Some Pool4.ring) 30] Pool4.two) !! i = Some d ∧
         (0, 0) = buf_state_of d ∧ refcount d = 0 ∧
         (true = true → Some Pool4.ring ≠ None ∧ usage_count d ≤ 1).
Proof.
  apply (acquire_returns_an_unpinned_buffer Pool4.N Pool4.NOT_IN_LIST (Some Pool4.ring) 30
           Pool4.two 0 (0, 0) true (Some (mkStrategy BAS_BULKREAD 2 1 [0; 1]))
           (Pool4.after [OpAcquire (Some Pool4.ring) 30] Pool4.two)).
  vm_compute. reflexivity.
Defined.

(** ** Release *)

(** X19.  A release that returns has done one of two things.  If the
    buffer was on the free list already, nothing (the state is the same).
    If not, the buffer is now the head of the free list, linked to the
    former head, and it is also the tail if the list was empty; no other
    descriptor is written, and [have_free_buffer] answers true.  In both
    cases a second release of the same buffer changes nothing: it finds
    the buffer on the list.  (The marker
    [FREENEXT_NOT_IN_LIST] must not be the head of the list, which it
    never is: the head is a buffer index or negative one.) *)
Theorem release_puts_the_buffer_first NBuffers NOT_IN_LIST buf t s s' i d :
  desc_index buf = Some i → BufferDescriptors s !! i = Some d →
  StrategyFreeBuffer NBuffers NOT_IN_LIST buf t s = Ret tt s' →
  (freeNext d ≠ NOT_IN_LIST → s' = s) ∧
  (freeNext d = NOT_IN_LIST →
     firstFreeBuffer (StrategyControl s') = buf_id d ∧
     BufferDescriptors s' =
       <[i:=set_freeNext (firstFreeBuffer (StrategyControl s)) d]> (BufferDescriptors s) ∧
     lastFreeBuffer (StrategyControl s') =
       (if firstFreeBuffer (StrategyControl s) <? 0 then buf_id d
        else lastFreeBuffer (StrategyControl s)) ∧
     (0 ≤ buf_id d → have_free_buffer s' = Ret true s')) ∧
  (firstFreeBuffer (StrategyControl s) ≠ NOT_IN_LIST →
   ∀ t2, StrategyFreeBuffer NBuffers NOT_IN_LIST buf t2 s' = Ret tt s').
Proof.
  intros Hi Hd Hret. unfold StrategyFreeBuffer in Hret.
  erewrite bind_rd_desc in Hret by eassumption.
  destruct (freeNext d =? NOT_IN_LIST) eqn:Hfree.
  - assert (Hnil : freeNext d = NOT_IN_LIST) by lia.
    rewrite bind_ctl in Hret.
    apply bind_Ret in Hret as (u1 & s1 & Hwr & Hret).
    unfold wr_desc in Hwr. rewrite Hi, Hd in Hwr. injection Hwr as _ <-.
    set (d1 := set_freeNext (firstFreeBuffer (StrategyControl s)) d) in *.
    assert (Hlen : (i < length (BufferDescriptors s))%nat)
      by (eapply lookup_lt_Some; exact Hd).
    erewrite bind_rd_desc in Hret
      by (first [exact Hi | cbn; apply list_lookup_insert_eq; exact Hlen]).
    apply bind_Ret in Hret as (u2 & s2 & Htail & Hret).
    rewrite bind_set_ctl in Hret.
    assert (Hs2 : s2 = with_control
                         (fun c => if firstFreeBuffer (StrategyControl s) <? 0
                                   then set_lastFreeBuffer (buf_id d) c else c)
                         (with_descriptors (fun l => <[i:=d1]> l) s)).
    { cbn [freeNext d1 set_freeNext] in Htail.
      destruct (firstFreeBuffer (StrategyControl s) <? 0);
        [|destruct s as [[] ? ? ?]]; injection Htail as _ <-; reflexivity. }
    assert (Hoff : off_list s' =
                   off_list (with_control (set_firstFreeBuffer (buf_id d1)) s2)).
    { eapply (preserves_state_after (fun s0 => off_list s0 = off_list _));
        [apply same_stamps_off_list_access | reflexivity | rewrite Hret; reflexivity]. }
    unfold off_list in Hoff. injection Hoff as Hdesc _ _ Hff Hlf _ _ _.
    subst s2. cbn in Hdesc, Hff, Hlf.
    split; [intros Hne; contradiction|]. split.
    + intros _. split; [exact Hff|]. split; [exact Hdesc|]. split.
      * rewrite Hlf. destruct (firstFreeBuffer (StrategyControl s) <? 0); reflexivity.
      * intros Hpos. unfold have_free_buffer, bind, ctl, gets, ret. rewrite Hff.
        destruct (buf_id d >=? 0) eqn:Hge; [reflexivity | lia].
    + intros Hfirst t2. unfold StrategyFreeBuffer.
      erewrite bind_rd_desc
        by (first [exact Hi | rewrite Hdesc; apply list_lookup_insert_eq; exact Hlen]).
      cbn [freeNext d1 set_freeNext].
      destruct (firstFreeBuffer (StrategyControl s) =? NOT_IN_LIST) eqn:Heq;
        [lia | reflexivity].
  - injection Hret as <-.
    split; [reflexivity|]. split; [intros Hnil; lia|].
    intros _ t2. unfold StrategyFreeBuffer.
    erewrite bind_rd_desc by eassumption. rewrite Hfree. reflexivity.
Qed.

Lemma release_puts_the_buffer_first_witness :
  (freeNext (mkBufferDesc 1 Pool4.NOT_IN_LIST 0 0) ≠ Pool4.NOT_IN_LIST →
   Pool4.after [OpRelease 1 30] Pool4.two = Pool4.two) ∧
  (freeNext (mkBufferDesc 1 Pool4.NOT_IN_LIST 0 0) = Pool4.NOT_IN_LIST →
     firstFreeBuffer (StrategyControl (Pool4.after [OpRelease 1 30] Pool4.two)) =
       buf_id (mkBufferDesc 1 Pool4.NOT_IN_LIST 0 0) ∧
     BufferDescriptors (Pool4.after [OpRelease 1 30] Pool4.two) =
       <[1%nat:=set_freeNext (firstFreeBuffer (StrategyControl Pool4.two))
                  (mkBufferDesc 1 Pool4.NOT_IN_LIST 0 0)]>
         (BufferDescriptors Pool4.two) ∧
     lastFreeBuffer (StrategyControl (Pool4.after [OpRelease 1 30] Pool4.two)) =
       (if firstFreeBuffer (StrategyControl Pool4.two) <? 0
        then buf_id (mkBufferDesc 1 Pool4.NOT_IN_LIST 0 0)
        else lastFreeBuffer (StrategyControl Pool4.two)) ∧
     (0 ≤ buf_id (mkBufferDesc 1 Pool4.NOT_IN_LIST 0 0) →
      have_free_buffer (Pool4.after [OpRelease 1 30] Pool4.two) =
        Ret true (Pool4.after [OpRelease 1 30] Pool4.two))) ∧
  (firstFreeBuffer (StrategyControl Pool4.two) ≠ Pool4.NOT_IN_LIST →
   ∀ t2, StrategyFreeBuffer Pool4.N Pool4.NOT_IN_LIST 1 t2
           (Pool4.after [OpRelease 1 30] Pool4.two) =
         Ret tt (Pool4.after [OpRelease 1 30] Pool4.two)).
Proof.
  apply (release_puts_the_buffer_first Pool4.N Pool4.NOT_IN_LIST 1 30 Pool4.two
           (Pool4.after [OpRelease 1 30] Pool4.two) 1%nat
           (mkBufferDesc 1 Pool4.NOT_IN_LIST 0 0)).
  - reflexivity.
  - vm_compute. reflexivity.
  - vm_compute. reflexivity.
Defined.

(** A release of a buffer that is not on the free list, on a well-formed
    list. *)
Lemma release_pushes NBuffers NOT_IN_LIST t s (x : nat) d l rest :
  BufferDescriptors s !! x = Some d → buf_id d = Z.of_nat x →
  freeNext d = NOT_IN_LIST → Z.of_nat x < NBuffers →
  stack_wf s l → access_case s x l rest →
  twp (StrategyFreeBuffer NBuffers NOT_IN_LIST (Z.of_nat x) t)
      (fun _ s' =>
         firstFreeBuffer (StrategyControl s') = Z.of_nat x ∧
         BufferDescriptors s' =
           <[x:=set_freeNext (firstFreeBuffer (StrategyControl s)) d]> (BufferDescriptors s) ∧
         (∃ l1 l2 lo,
            rest = l1 ++ l2 ∧ stack_from s' lo (l1 ++ x :: l2) ∧
            (lo = None ∨ ∃ b, l = [b; x] ∧ l1 = [] ∧ l2 = [b] ∧ lo = Some b)) ∧
         (∃ nx nx', elruStack s !! x = Some nx ∧ elruStack s' !! x = Some nx' ∧
                    last_accessed nx' = t ∧
                    second_last_accessed nx' = last_accessed nx)) s.
Proof.
  intros Hd Hid Hnil Hx Hwf Hcase.
  assert (Hlen : (x < length (BufferDescriptors s))%nat)
    by (eapply lookup_lt_Some; exact Hd).
  unfold StrategyFreeBuffer.
  apply twp_bind. eapply twp_rd_desc; [apply desc_index_of_nat | exact Hd |].
  rewrite Hnil, Z.eqb_refl.
  apply twp_bind, twp_ctl. apply twp_bind.
  eapply twp_wr_desc; [apply desc_index_of_nat | exact Hd |].
  apply twp_bind.
  eapply twp_rd_desc; [apply desc_index_of_nat | cbn; apply list_lookup_insert_eq; exact Hlen |].
  cbn [freeNext buf_id set_freeNext]. rewrite Hid.
  assert (Hgo : ∀ s3,
    elruStack s3 = elruStack s →
    stackTop (StrategyControl s3) = stackTop (StrategyControl s) →
    stackBottom (StrategyControl s3) = stackBottom (StrategyControl s) →
    BufferDescriptors s3 =
      <[x:=set_freeNext (firstFreeBuffer (StrategyControl s)) d]> (BufferDescriptors s) →
    twp (set_ctl (set_firstFreeBuffer (Z.of_nat x)) ;;
         StrategyAccessBuffer NBuffers (Z.of_nat x) true t)
      (fun _ s' =>
         firstFreeBuffer (StrategyControl s') = Z.of_nat x ∧
         BufferDescriptors s' =
           <[x:=set_freeNext (firstFreeBuffer (StrategyControl s)) d]> (BufferDescriptors s) ∧
         (∃ l1 l2 lo,
            rest = l1 ++ l2 ∧ stack_from s' lo (l1 ++ x :: l2) ∧
            (lo = None ∨ ∃ b, l = [b; x] ∧ l1 = [] ∧ l2 = [b] ∧ lo = Some b)) ∧
         (∃ nx nx', elruStack s !! x = Some nx ∧ elruStack s' !! x = Some nx' ∧
                    last_accessed nx' = t ∧
                    second_last_accessed nx' = last_accessed nx)) s3).
  { intros s3 Hns3 Htop3 Hbot3 Hds3.
    apply twp_bind, twp_set_ctl.
    match goal with |- twp _ _ ?s4 => set (s4' := s4) end.
    assert (Hwf4 : stack_wf s4' l) by (eapply (stack_from_ext s); eassumption).
    assert (Hcase4 : access_case s4' (Z.to_nat (Z.of_nat x)) l rest).
    { rewrite Nat2Z.id. unfold access_case.
      change (elruStack s4') with (elruStack s3). rewrite Hns3. exact Hcase. }
    eapply twp_mono.
    { apply (twp_preserves (fun s0 => off_list s0 = off_list s4')).
      - apply (access_places_node_links NBuffers (Z.of_nat x) true t s4' l rest Hwf4);
          [lia | exact Hcase4].
      - apply same_stamps_off_list_access.
      - reflexivity. }
    intros _ s' [(l1 & l2 & lo & Hsplit & Hfrom & _ & _ & Hstamps & _ & Hlo & _) Hoff].
    rewrite Nat2Z.id in *.
    unfold off_list in Hoff. injection Hoff as Hdesc _ _ Hff _ _ _ _.
    split; [exact Hff|]. split; [rewrite Hdesc; exact Hds3|].
    split; [exists l1, l2, lo; auto|].
    change (elruStack s4') with (elruStack s3) in Hstamps. rewrite Hns3 in Hstamps.
    exact Hstamps. }
  apply twp_bind.
  destruct (firstFreeBuffer (StrategyControl s) <? 0).
  - apply twp_set_ctl. apply Hgo; reflexivity.
  - apply twp_ret. apply Hgo; reflexivity.
Qed.

(** X20.  The free list is last-in first-out across a release and an
    acquisition.  For an unpinned buffer with a usage count of zero that
    is not on the free list, whose node is outside a well-formed list or in
    it with at least one other node left when it is taken out: the release
    returns, the next acquisition without a ring returns this very buffer,
    and afterwards the head of the free list is what it was before the
    release, and so are the index, the free-list link, the reference count
    and the usage count of every descriptor.  The node of the buffer has
    gained two accesses, one from the release and one from the
    acquisition. *)
Theorem released_buffer_is_acquired_next NBuffers NOT_IN_LIST t1 t2 s (x : nat) d l rest :
  BufferDescriptors s !! x = Some d → buf_id d = Z.of_nat x →
  refcount d = 0 → usage_count d = 0 → freeNext d = NOT_IN_LIST →
  Z.of_nat x < NBuffers →
  stack_wf s l → access_case s x l rest → rest ≠ [] →
  ∃ s1 s2 nx',
    StrategyFreeBuffer NBuffers NOT_IN_LIST (Z.of_nat x) t1 s = Ret tt s1 ∧
    StrategyGetBuffer NBuffers NOT_IN_LIST None t2 s1 =
      Ret (Returned (Z.of_nat x) (0, 0) false, None) s2 ∧
    firstFreeBuffer (StrategyControl s2) = firstFreeBuffer (StrategyControl s) ∧
    descriptors_keep_fields s s2 ∧
    elruStack s2 !! x = Some nx' ∧
    last_accessed nx' = t2 ∧ second_last_accessed nx' = t1 ∧
    x ∈ elru_list s2.
Proof.
  intros Hd Hid Hrc Huc Hnil Hx Hwf Hcase Hrest.
  pose proof (release_pushes NBuffers NOT_IN_LIST t1 s x d l rest
                Hd Hid Hnil Hx Hwf Hcase) as Hrel.
  apply twp_Ret in Hrel as ([] & s1 & Hrel & Hff1 & Hds1
                            & (l1 & l2 & lo & Hsplit & Hfrom & Hlo)
                            & (nx & nx1 & Hnx & Hnx1 & Hlast1 & _)).
  assert (Hlen : (x < length (BufferDescriptors s))%nat)
    by (eapply lookup_lt_Some; exact Hd).
  pose proof (acquire_pops_free_list NBuffers NOT_IN_LIST t2 s1 x
                (set_freeNext (firstFreeBuffer (StrategyControl s)) d) lo
                (l1 ++ x :: l2) rest) as Hacq.
  apply twp_Ret in Hacq as (r & s2 & Hacq & -> & (l1' & l2' & lo' & _ & Hfrom2 & _)
                            & (nx1' & nx2 & Hnx1' & Hnx2 & Hlast2 & Hsecond2)
                            & _ & _ & Hds2 & Hff2 & _).
  - exists s1, s2, nx2. split; [exact Hrel|]. split; [exact Hacq|].
    split; [exact Hff2|]. split.
    + apply descriptors_keep_fields_eq.
      rewrite Hds2, Hds1, list_insert_insert_eq. apply list_insert_id.
      rewrite Hd. f_equal. clear -Hnil. destruct d as [b f r u].
      unfold set_freeNext. cbn in Hnil |- *. rewrite Hnil. reflexivity.
    + split; [exact Hnx2|]. split; [exact Hlast2|].
      split; [assert (nx1' = nx1) as -> by congruence; congruence|].
      rewrite (stack_from_elru_list _ _ _ Hfrom2). apply elem_of_app. right. left.
  - exact Hff1.
  - rewrite Hds1. apply list_lookup_insert_eq. exact Hlen.
  - exact Hid.
  - exact Hrc.
  - exact Huc.
  - exact Hx.
  - exact Hfrom.
  - destruct Hlo as [->|(b & _ & -> & _)]; [left | right]; reflexivity.
  - right. exists l1, l2. split; [reflexivity|]. split; [exact Hsplit | exact Hrest].
Qed.

Lemma released_buffer_is_acquired_next_witness :
  ∃ s1 s2 nx',
    StrategyFreeBuffer Pool4.N Pool4.NOT_IN_LIST (Z.of_nat 0) 30 Pool4.two = Ret tt s1 ∧
    StrategyGetBuffer Pool4.N Pool4.NOT_IN_LIST None 40 s1 =
      Ret (Returned (Z.of_nat 0) (0, 0) false, None) s2 ∧
    firstFreeBuffer (StrategyControl s2) = firstFreeBuffer (StrategyControl Pool4.two) ∧
    descriptors_keep_fields Pool4.two s2 ∧
    elruStack s2 !! 0%nat = Some nx' ∧
    last_accessed nx' = 40 ∧ second_last_accessed nx' = 30 ∧
    0%nat ∈ elru_list s2.
Proof.
  apply (released_buffer_is_acquired_next Pool4.N Pool4.NOT_IN_LIST 30 40 Pool4.two
           0%nat (mkBufferDesc 0 Pool4.NOT_IN_LIST 0 0) [0; 1]%nat [1%nat]).
  - vm_compute. reflexivity.
  - reflexivity.
  - reflexivity.
  - reflexivity.
  - reflexivity.
  - unfold Pool4.N. simpl. lia.
  - split; [|split; [|split]].
    + vm_compute. repeat (first [reflexivity | split | eexists]).
    + apply (bool_decide_unpack _). vm_compute. exact Logic.I.
    + vm_compute. reflexivity.
    + vm_compute. reflexivity.
  - right. exists [], [1%nat]. repeat split. discriminate.
  - discriminate.
Defined.

(** ** The comparator while the timestamps stay close *)

(** X22.  On two nodes whose timestamps all lie within one window of 2^31
    nanoseconds, [compareELRU] is a faithful three-way comparison of the
    ELRU keys: negative exactly when the first node has the smaller tier,
    or the same tier and the smaller rank, zero exactly when tier and rank
    agree, and of opposite sign when the arguments are exchanged. *)
Theorem compareELRU_orders_keys_within_window T a b :
  0 ≤ T → in_window T a → in_window T b →
  (compareELRU a b < 0 ↔ tier a < tier b ∨ (tier a = tier b ∧ rank a < rank b)) ∧
  (compareELRU a b = 0 ↔ tier a = tier b ∧ rank a = rank b) ∧
  compareELRU b a = - compareELRU a b.
Proof.
  intros HT [Hla Hsa] [Hlb Hsb].
  unfold compareELRU, isRemovedNode, tier, rank, TIMESTAMP_NIL in *.
  destruct (last_accessed a =? -1) eqn:Ea; [lia|].
  destruct (last_accessed b =? -1) eqn:Eb; [lia|]. simpl.
  destruct (second_last_accessed a =? -1) eqn:Esa;
    destruct (second_last_accessed b =? -1) eqn:Esb; simpl;
    rewrite ?to_int_small by lia; lia.
Qed.

Lemma compareELRU_orders_keys_within_window_witness :
  (compareELRU (mkBufferNode 0 None None 30 10) (mkBufferNode 1 None None 20 TIMESTAMP_NIL) < 0 ↔
   tier (mkBufferNode 0 None None 30 10) < tier (mkBufferNode 1 None None 20 TIMESTAMP_NIL) ∨
   (tier (mkBufferNode 0 None None 30 10) = tier (mkBufferNode 1 None None 20 TIMESTAMP_NIL) ∧
    rank (mkBufferNode 0 None None 30 10) < rank (mkBufferNode 1 None None 20 TIMESTAMP_NIL))) ∧
  (compareELRU (mkBufferNode 0 None None 30 10) (mkBufferNode 1 None None 20 TIMESTAMP_NIL) = 0 ↔
   tier (mkBufferNode 0 None None 30 10) = tier (mkBufferNode 1 None None 20 TIMESTAMP_NIL) ∧
   rank (mkBufferNode 0 None None 30 10) = rank (mkBufferNode 1 None None 20 TIMESTAMP_NIL)) ∧
  compareELRU (mkBufferNode 1 None None 20 TIMESTAMP_NIL) (mkBufferNode 0 None None 30 10) =
    - compareELRU (mkBufferNode 0 None None 30 10) (mkBufferNode 1 None None 20 TIMESTAMP_NIL).
Proof.
  apply (compareELRU_orders_keys_within_window 0
           (mkBufferNode 0 None None 30 10) (mkBufferNode 1 None None 20 TIMESTAMP_NIL)).
  - lia.
  - unfold in_window, TIMESTAMP_NIL. simpl. lia.
  - unfold in_window, TIMESTAMP_NIL. simpl. lia.
Defined.

(** ** An acquisition that the ring serves *)

(** X23.  When the slot after the cursor holds a buffer of the pool that
    is unpinned with a usage count of at most one, [StrategyGetBuffer]
    returns that buffer and says that it came from the ring, with a
    reference count of zero and the buffer's usage count in the state word
    handed back.  It records an access on the buffer's node; the free
    list, the allocation count, the pending notification and the latches
    are untouched, no index, free-list link, reference count or usage
    count of a descriptor changes, and the ring has only moved its cursor.
    (The list is well formed, and the node is outside it or not alone in
    it.) *)
Theorem acquire_served_by_the_ring NBuffers NOT_IN_LIST st t s (b : nat) d l rest :
  ring_ok st →
  ring_slot st ((current st + 1) mod nbuffers st) = Some (Z.of_nat b + 1) →
  BufferDescriptors s !! b = Some d → buf_id d = Z.of_nat b →
  refcount d = 0 → usage_count d ≤ 1 →
  Z.of_nat b < NBuffers →
  stack_wf s l → access_case s b l rest →
  ∃ s' st' nb',
    StrategyGetBuffer NBuffers NOT_IN_LIST (Some st) t s =
      Ret (Returned (Z.of_nat b) (0, usage_count d) true, Some st') s' ∧
    current st' = (current st + 1) mod nbuffers st ∧ buffers st' = buffers st ∧
    firstFreeBuffer (StrategyControl s') = firstFreeBuffer (StrategyControl s) ∧
    lastFreeBuffer (StrategyControl s') = lastFreeBuffer (StrategyControl s) ∧
    numBufferAllocs (StrategyControl s') = numBufferAllocs (StrategyControl s) ∧
    bgwprocno (StrategyControl s') = bgwprocno (StrategyControl s) ∧
    latches_set s' = latches_set s ∧
    descriptors_keep_fields s s' ∧
    elruStack s' !! b = Some nb' ∧ last_accessed nb' = t ∧
    b ∈ elru_list s'.
Proof.
  intros Hok Hslot Hd Hid Hrc Huc Hb Hwf Hcase. pose proof Hok as (Hn & Hlen & Hcur).
  assert (Hadv : ring_advance st = (current st + 1) mod nbuffers st).
  { unfold ring_advance. destruct (current st + 1 >=? nbuffers st) eqn:Hge.
    - assert (current st + 1 = nbuffers st) as -> by lia.
      symmetry. apply Z_mod_same_full.
    - symmetry. apply Z.mod_small. lia. }
  set (st' := set_current (ring_advance st) st).
  assert (Hring : GetBufferFromRing st s = Ret (Some (Z.of_nat b, buf_state_of d), st') s).
  { unfold GetBufferFromRing. cbv zeta. fold st'.
    change (current st') with (ring_advance st). rewrite Hadv.
    change (ring_slot st' ?i) with (ring_slot st i). rewrite Hslot.
    unfold InvalidBuffer. destruct (Z.of_nat b + 1 =? 0) eqn:Hz; [lia|].
    replace (Z.of_nat b + 1 - 1) with (Z.of_nat b) by lia.
    erewrite bind_rd_desc by (first [apply desc_index_of_nat | exact Hd]).
    rewrite Hrc. destruct (usage_count d <=? 1) eqn:Hu; [reflexivity | lia]. }
  assert (Htwp : twp (StrategyGetBuffer NBuffers NOT_IN_LIST (Some st) t)
    (fun r s' => r = (Returned (Z.of_nat b) (0, usage_count d) true, Some st') ∧
       off_list s' = off_list s ∧
       ∃ nb', elruStack s' !! b = Some nb' ∧ last_accessed nb' = t ∧
              b ∈ elru_list s') s).
  { unfold StrategyGetBuffer.
    apply twp_bind. apply twp_bind. unfold twp at 1. rewrite Hring.
    apply twp_ret. cbn [fst snd].
    apply twp_bind. eapply twp_rd_desc; [apply desc_index_of_nat | exact Hd |].
    rewrite Hid. apply twp_bind.
    eapply twp_mono.
    { apply (twp_preserves (fun s0 => off_list s0 = off_list s)).
      - apply (access_places_node_links NBuffers (Z.of_nat b) false t s l rest Hwf);
          [lia | rewrite Nat2Z.id; exact Hcase].
      - apply same_stamps_off_list_access.
      - reflexivity. }
    intros _ s' [(l1 & l2 & lo & _ & Hfrom & _ & _ & (nx & nx' & _ & Hnx' & Hlast & _) & _)
                 Hoff].
    rewrite Nat2Z.id in *. apply twp_ret.
    split; [unfold buf_state_of; rewrite Hrc; reflexivity|]. split; [exact Hoff|].
    exists nx'. split; [exact Hnx'|]. split; [exact Hlast|].
    rewrite (stack_from_elru_list _ _ _ Hfrom). apply elem_of_app. right. left. }
  apply twp_Ret in Htwp as (r & s' & Hret & -> & Hoff & nb' & Hnb' & Hlast & Hin).
  unfold off_list in Hoff. injection Hoff as Hdesc Hlatch _ Hff Hlf _ Hal Hbgw.
  exists s', st', nb'. split; [exact Hret|]. split; [exact Hadv|].
  split; [reflexivity|]. repeat (split; [assumption|]).
  split; [apply descriptors_keep_fields_eq; exact Hdesc|]. auto.
Qed.

Lemma acquire_served_by_the_ring_witness :
  ∃ s' st' nb',
    StrategyGetBuffer Pool4.N Pool4.NOT_IN_LIST (Some Pool4.ring) 30 Pool4.two =
      Ret (Returned (Z.of_nat 0) (0, usage_count (mkBufferDesc 0 Pool4.NOT_IN_LIST 0 0)) true,
           Some st') s' ∧
    current st' = (current Pool4.ring + 1) mod nbuffers Pool4.ring ∧
    buffers st' = buffers Pool4.ring ∧
    firstFreeBuffer (StrategyControl s') = firstFreeBuffer (StrategyControl Pool4.two) ∧
    lastFreeBuffer (StrategyControl s') = lastFreeBuffer (StrategyControl Pool4.two) ∧
    numBufferAllocs (StrategyControl s') = numBufferAllocs (StrategyControl Pool4.two) ∧
    bgwprocno (StrategyControl s') = bgwprocno (StrategyControl Pool4.two) ∧
    latches_set s' = latches_set Pool4.two ∧
    descriptors_keep_fields Pool4.two s' ∧
    elruStack s' !! 0%nat = Some nb' ∧ last_accessed nb' = 30 ∧
    0%nat ∈ elru_list s'.
Proof.
  apply (acquire_served_by_the_ring Pool4.N Pool4.NOT_IN_LIST Pool4.ring 30 Pool4.two
           0%nat (mkBufferDesc 0 Pool4.NOT_IN_LIST 0 0) [0; 1]%nat [1%nat]).
  - unfold ring_ok. simpl. lia.
  - reflexivity.
  - vm_compute. reflexivity.
  - reflexivity.
  - reflexivity.
  - simpl. lia.
  - unfold Pool4.N. simpl. lia.
  - split; [|split; [|split]].
    + vm_compute. repeat (first [reflexivity | split | eexists]).
    + apply (bool_decide_unpack _). vm_compute. exact Logic.I.
    + vm_compute. reflexivity.
    + vm_compute. reflexivity.
  - right. exists [], [1%nat]. repeat split. discriminate.
Defined.

(** ** Entries of the free list that cannot be used *)

Lemma free_chain_insert ds u d' c : ∀ first after,
  u ∉ c → free_chain ds first c after → free_chain (<[u:=d']> ds) first c after.
Proof.
  induction c as [|f c IH]; intros first after Hu; simpl; [auto|].
  intros (-> & d & Hd & Hc). split; [reflexivity|]. exists d. split.
  - rewrite list_lookup_insert_ne; [exact Hd|]. intros ->. apply Hu. left.
  - apply IH; [|exact Hc]. intros Hin. apply Hu. right. exact Hin.
Qed.

Lemma twp_freelist_loop_discards NBuffers NOT_IN_LIST t (f : nat) df lo0 l rest U :
  ∀ fuel s,
  (length U < fuel)%nat →
  free_chain (BufferDescriptors s) (firstFreeBuffer (StrategyControl s))
             (U ++ [f]) (freeNext df) →
  NoDup (U ++ [f]) →
  (∀ u, u ∈ U → ∃ d, BufferDescriptors s !! u = Some d ∧ usable d = false) →
  BufferDescriptors s !! f = Some df → buf_id df = Z.of_nat f → usable df = true →
  Z.of_nat f < NBuffers →
  stack_from s lo0 l → lo0 = None ∨ head l = Some f → access_case s f l rest →
  twp (freelist_loop NBuffers NOT_IN_LIST fuel t)
    (fun r s' =>
       r = Some (Z.of_nat f, (0, 0)) ∧
       (∃ l' lo, stack_from s' lo l' ∧ f ∈ l') ∧
       (∃ nf', elruStack s' !! f = Some nf' ∧ last_accessed nf' = t) ∧
       firstFreeBuffer (StrategyControl s') = freeNext df ∧
       numBufferAllocs (StrategyControl s') = numBufferAllocs (StrategyControl s) ∧
       (∀ i d0, BufferDescriptors s !! i = Some d0 →
          BufferDescriptors s' !! i =
            Some (if bool_decide (i ∈ U ++ [f])
                  then set_freeNext NOT_IN_LIST d0 else d0))) s.
Proof.
  induction U as [|u U IH]; intros fuel s Hfuel Hchain Hnd HU Hdf Hid Huse Hf Hwf Hside Hcase;
    (destruct fuel as [|fuel]; [simpl in Hfuel; lia|]); cbn [freelist_loop].
  - simpl in Hchain. destruct Hchain as (Hfirst & d & Hd & _).
    apply twp_bind, twp_ctl. rewrite Hfirst.
    destruct (Z.of_nat f <? 0) eqn:Hlt; [lia|].
    apply twp_bind.
    eapply twp_rd_desc; [apply desc_index_of_nat | exact Hdf |].
    apply twp_bind, twp_set_ctl. apply twp_bind.
    eapply twp_wr_desc; [apply desc_index_of_nat | cbn; exact Hdf |].
    apply twp_bind.
    eapply twp_rd_desc; [apply desc_index_of_nat | |].
    { cbn. apply list_lookup_insert_eq. eapply lookup_lt_Some. exact Hdf. }
    cbn [refcount usage_count set_freeNext buf_id]. fold (usable df). rewrite Huse, Hid.
    match goal with |- twp _ _ ?s2 => set (s2' := s2) end.
    assert (Hwf2 : stack_from s2' lo0 l).
    { eapply (stack_from_ext s); [reflexivity | reflexivity | reflexivity | exact Hwf]. }
    assert (Hcase2 : access_case s2' (Z.to_nat (Z.of_nat f)) l rest).
    { rewrite Nat2Z.id. exact Hcase. }
    apply twp_bind.
    eapply twp_mono.
    { apply (twp_preserves
               (fun s0 => off_list s0 = off_list s2' ∧
                          length (elruStack s0) = length (elruStack s2'))).
      - apply (access_places_node_from NBuffers (Z.of_nat f) false t s2' lo0 l rest Hwf2);
          [rewrite Nat2Z.id; exact Hside | lia | exact Hcase2].
      - apply off_list_access.
      - split; reflexivity. }
    intros _ s' [(l1 & l2 & lo & _ & Hfrom & _ & _ & (nx & nx' & _ & Hnx' & Hlast & _) & _)
                 [Hoff _]].
    rewrite Nat2Z.id in *. apply twp_ret.
    apply andb_prop in Huse as [Hrc%Z.eqb_eq Huc%Z.eqb_eq].
    split; [unfold buf_state_of; cbn; rewrite Hrc, Huc; reflexivity|].
    split; [exists (l1 ++ f :: l2), lo; split; [exact Hfrom|]; apply elem_of_app; right; left|].
    split; [exists nx'; auto|].
    unfold off_list in Hoff. injection Hoff as Hdesc _ _ Hff _ _ Hal _.
    split; [rewrite Hff; reflexivity|]. split; [rewrite Hal; reflexivity|].
    intros i d0 Hi. rewrite Hdesc. cbn.
    destruct (decide (i = f)) as [->|Hne].
    + rewrite Hdf in Hi. injection Hi as <-.
      rewrite bool_decide_eq_true_2 by (simpl; left).
      apply list_lookup_insert_eq. eapply lookup_lt_Some. exact Hdf.
    + rewrite bool_decide_eq_false_2
        by (simpl; intros Hin; apply list_elem_of_singleton in Hin; contradiction).
      rewrite list_lookup_insert_ne by congruence. exact Hi.
  - simpl in Hchain. destruct Hchain as (Hfirst & du & Hdu & Hchain).
    destruct (HU u) as (du' & Hdu' & Hbad); [left|].
    rewrite Hdu in Hdu'. injection Hdu' as <-.
    simpl in Hnd. apply NoDup_cons in Hnd as [Hu Hnd].
    apply twp_bind, twp_ctl. rewrite Hfirst.
    destruct (Z.of_nat u <? 0) eqn:Hlt; [lia|].
    apply twp_bind.
    eapply twp_rd_desc; [apply desc_index_of_nat | exact Hdu |].
    apply twp_bind, twp_set_ctl. apply twp_bind.
    eapply twp_wr_desc; [apply desc_index_of_nat | cbn; exact Hdu |].
    apply twp_bind.
    eapply twp_rd_desc; [apply desc_index_of_nat | |].
    { cbn. apply list_lookup_insert_eq. eapply lookup_lt_Some. exact Hdu. }
    cbn [refcount usage_count set_freeNext buf_id]. fold (usable du). rewrite Hbad.
    match goal with |- twp _ _ ?s2 => set (s2' := s2) end.
    assert (Hfu : f ≠ u).
    { intros ->. apply Hu. apply elem_of_app. right. left. }
    eapply twp_mono.
    { apply (IH fuel s2'); try assumption.
      - simpl in Hfuel. lia.
      - cbn. apply free_chain_insert; [exact Hu | exact Hchain].
      - intros v Hv. destruct (HU v) as (dv & Hdv & Hbv); [right; exact Hv|].
        exists dv. split; [|exact Hbv]. cbn.
        rewrite list_lookup_insert_ne; [exact Hdv|].
        intros ->. apply Hu. apply elem_of_app. left. exact Hv.
      - cbn. rewrite list_lookup_insert_ne by congruence. exact Hdf. }
    intros r s' (Hr & Hlist & Hnode & Hff & Hal & Hdescs).
    split; [exact Hr|]. split; [exact Hlist|]. split; [exact Hnode|].
    split; [exact Hff|]. split; [exact Hal|].
    intros i d0 Hi. destruct (decide (i = u)) as [->|Hne].
    + rewrite Hdu in Hi. injection Hi as <-.
      rewrite bool_decide_eq_true_2 by (simpl; left).
      rewrite (Hdescs u (set_freeNext NOT_IN_LIST du)).
      * rewrite bool_decide_eq_false_2 by exact Hu. reflexivity.
      * cbn. apply list_lookup_insert_eq. eapply lookup_lt_Some. exact Hdu.
    + rewrite (Hdescs i d0) by (cbn; rewrite list_lookup_insert_ne by congruence; exact Hi).
      f_equal. simpl.
      destruct (decide (i ∈ U ++ [f])) as [Hin|Hnin].
      * rewrite !bool_decide_eq_true_2; [reflexivity | right; exact Hin | exact Hin].
      * rewrite !bool_decide_eq_false_2; [reflexivity | | exact Hnin].
        intros Hin. apply elem_of_cons in Hin as [?|?]; contradiction.
Qed.

(** X24.  An acquisition without a ring takes entries off the free list
    until it meets one it can use: the entries before it that are pinned or
    have a nonzero usage count are discarded, the first buffer that is
    unpinned with a usage count of zero is returned.  All of them, and no
    other descriptor, are marked as off the free list, which then starts
    after the returned buffer; the allocation is counted once, and an
    access is recorded on the returned buffer's node.  (The list is well
    formed, and the node is outside it or not alone in it.) *)
Theorem acquire_discards_unusable_free_entries
    NBuffers NOT_IN_LIST t s (U : list nat) (f : nat) df l rest :
  free_chain (BufferDescriptors s) (firstFreeBuffer (StrategyControl s))
             (U ++ [f]) (freeNext df) →
  NoDup (U ++ [f]) →
  (∀ u, u ∈ U → ∃ d, BufferDescriptors s !! u = Some d ∧ usable d = false) →
  BufferDescriptors s !! f = Some df → buf_id df = Z.of_nat f → usable df = true →
  Z.of_nat f < NBuffers →
  stack_wf s l → access_case s f l rest →
  ∃ s' nf',
    StrategyGetBuffer NBuffers NOT_IN_LIST None t s =
      Ret (Returned (Z.of_nat f) (0, 0) false, None) s' ∧
    firstFreeBuffer (StrategyControl s') = freeNext df ∧
    (∀ i d0, BufferDescriptors s !! i = Some d0 →
       BufferDescriptors s' !! i =
         Some (if bool_decide (i ∈ U ++ [f]) then set_freeNext NOT_IN_LIST d0 else d0)) ∧
    numBufferAllocs (StrategyControl s') =
      to_uint32 (numBufferAllocs (StrategyControl s) + 1) ∧
    f ∈ elru_list s' ∧
    elruStack s' !! f = Some nf' ∧ last_accessed nf' = t.
Proof.
  intros Hchain Hnd HU Hdf Hid Huse Hf Hwf Hcase.
  assert (Hlen : (length (U ++ [f]) ≤ length (BufferDescriptors s))%nat).
  { assert (Hsub : U ++ [f] ⊆ seq 0 (length (BufferDescriptors s))).
    { intros i Hi. apply elem_of_seq. split; [lia|]. simpl.
      apply elem_of_app in Hi as [Hi|Hi].
      - destruct (HU i Hi) as (d & Hd & _). eapply lookup_lt_Some. exact Hd.
      - apply list_elem_of_singleton in Hi as ->. eapply lookup_lt_Some. exact Hdf. }
    apply NoDup_submseteq in Hsub; [|exact Hnd].
    apply submseteq_length in Hsub. rewrite length_seq in Hsub. exact Hsub. }
  assert (Hfirst : 0 ≤ firstFreeBuffer (StrategyControl s)).
  { destruct U; simpl in Hchain; destruct Hchain as [-> _]; lia. }
  assert (Htwp : twp (StrategyGetBuffer NBuffers NOT_IN_LIST None t)
    (fun r s' =>
       r = (Returned (Z.of_nat f) (0, 0) false, None) ∧
       (∃ l' lo, stack_from s' lo l' ∧ f ∈ l') ∧
       (∃ nf', elruStack s' !! f = Some nf' ∧ last_accessed nf' = t) ∧
       firstFreeBuffer (StrategyControl s') = freeNext df ∧
       numBufferAllocs (StrategyControl s') =
         to_uint32 (numBufferAllocs (StrategyControl s) + 1) ∧
       (∀ i d0, BufferDescriptors s !! i = Some d0 →
          BufferDescriptors s' !! i =
            Some (if bool_decide (i ∈ U ++ [f])
                  then set_freeNext NOT_IN_LIST d0 else d0))) s).
  { unfold StrategyGetBuffer.
    apply twp_bind, twp_ret. cbn [fst snd].
    apply twp_wake_and_count. intros s1 Hns1 Hds1 Htop1 Hbot1 Hfirst1 Hallocs1.
    apply twp_bind, twp_ctl. rewrite Hfirst1.
    destruct (firstFreeBuffer (StrategyControl s) >=? 0) eqn:Hge; [|lia].
    apply twp_bind. apply twp_bind, twp_gets.
    eapply twp_mono.
    { apply (twp_freelist_loop_discards NBuffers NOT_IN_LIST t f df None l rest U).
      - rewrite Hds1. rewrite length_app in Hlen. simpl in Hlen. lia.
      - rewrite Hds1, Hfirst1. exact Hchain.
      - exact Hnd.
      - rewrite Hds1. exact HU.
      - rewrite Hds1. exact Hdf.
      - exact Hid.
      - exact Huse.
      - exact Hf.
      - eapply (stack_from_ext s); [exact Hns1 | exact Htop1 | exact Hbot1 | exact Hwf].
      - left. reflexivity.
      - unfold access_case. rewrite Hns1. exact Hcase. }
    intros r s' (-> & Hlist & Hnode & Hff & Hal & Hdescs).
    apply twp_ret. split; [reflexivity|]. split; [exact Hlist|]. split; [exact Hnode|].
    split; [exact Hff|]. split; [rewrite Hal; exact Hallocs1|].
    rewrite <- Hds1. exact Hdescs. }
  apply twp_Ret in Htwp as (r & s' & Hret & -> & (l' & lo & Hfrom & Hin) & (nf' & Hnf' & Hlast)
                            & Hff & Hal & Hdescs).
  exists s', nf'. split; [exact Hret|]. split; [exact Hff|]. split; [exact Hdescs|].
  split; [exact Hal|]. split; [|split; assumption].
  rewrite (stack_from_elru_list _ _ _ Hfrom). exact Hin.
Qed.

Lemma acquire_discards_unusable_free_entries_witness :
  ∃ s' nf',
    StrategyGetBuffer Pool4.N Pool4.NOT_IN_LIST None 30
        (Pool4.after [OpPin 2 1 0] Pool4.two) =
      Ret (Returned (Z.of_nat 3) (0, 0) false, None) s' ∧
    firstFreeBuffer (StrategyControl s') = freeNext (mkBufferDesc 3 (-1) 0 0) ∧
    (∀ i d0, BufferDescriptors (Pool4.after [OpPin 2 1 0] Pool4.two) !! i = Some d0 →
       BufferDescriptors s' !! i =
         Some (if bool_decide (i ∈ [2%nat] ++ [3%nat])
               then set_freeNext Pool4.NOT_IN_LIST d0 else d0)) ∧
    numBufferAllocs (StrategyControl s') =
      to_uint32 (numBufferAllocs
                   (StrategyControl (Pool4.after [OpPin 2 1 0] Pool4.two)) + 1) ∧
    3%nat ∈ elru_list s' ∧
    elruStack s' !! 3%nat = Some nf' ∧ last_accessed nf' = 30.
Proof.
  apply (acquire_discards_unusable_free_entries Pool4.N Pool4.NOT_IN_LIST 30
           (Pool4.after [OpPin 2 1 0] Pool4.two) [2%nat] 3%nat
           (mkBufferDesc 3 (-1) 0 0) [0; 1]%nat [0; 1]%nat).
  - vm_compute. repeat (first [reflexivity | split | eexists]).
  - apply (bool_decide_unpack _). vm_compute. exact Logic.I.
  - intros u Hu. apply list_elem_of_singleton in Hu as ->.
    exists (mkBufferDesc 2 3 1 0). split; vm_compute; reflexivity.
  - vm_compute. reflexivity.
  - reflexivity.
  - reflexivity.
  - unfold Pool4.N. simpl. lia.
  - split; [|split; [|split]].
    + vm_compute. repeat (first [reflexivity | split | eexists]).
    + apply (bool_decide_unpack _). vm_compute. exact Logic.I.
    + vm_compute. reflexivity.
    + vm_compute. reflexivity.
  - left. split; [|split].
    + apply (bool_decide_unpack _). vm_compute. exact Logic.I.
    + reflexivity.
    + vm_compute. repeat (first [reflexivity | split | eexists]).
Defined.
